(** * hawkeslib: multivariate exponential Hawkes process (c_mv_exp.pyx)

    A shallow embedding of [src/model/c/c_mv_exp.pyx]: the log-likelihood
    [mv_exp_ll], the offspring sampler [_get_mv_offspring] and the branching
    sampler [mv_exp_sample_branching], with the properties of the
    specification stated and settled on the embedded code.

    Numbers.  The program computes on C doubles.  Here a double is an exact
    real or one of the three special values of IEEE 754 (+inf, -inf, NaN):
    the arithmetic of the special values is kept (the code starts [d] at
    +inf and relies on [exp(-inf) = 0]; [log 0 = -inf], [log] of a negative
    number is NaN), rounding and overflow of finite values are not, and the
    two zeros are one.  [exp] and [log] of math.h are the real functions. *)

From Stdlib Require Import Reals Lra Lia ZArith List Bool Arith Permutation Sorted.
Import ListNotations.

(** ** Doubles *)

Module Dbl.

Inductive double : Type :=
| Fin (r : R)
| PInf
| NInf
| NaN.

(** Sign of a real, as a three-way test. *)
Definition Rsgn (r : R) : comparison :=
  match total_order_T r 0 with
  | inleft (left _) => Lt
  | inleft (right _) => Eq
  | inright _ => Gt
  end.

Definition neg (a : double) : double :=
  match a with
  | Fin x => Fin (- x)
  | PInf => NInf
  | NInf => PInf
  | NaN => NaN
  end.

Definition add (a b : double) : double :=
  match a, b with
  | NaN, _ | _, NaN => NaN
  | Fin x, Fin y => Fin (x + y)
  | PInf, NInf | NInf, PInf => NaN
  | PInf, _ | _, PInf => PInf
  | NInf, _ | _, NInf => NInf
  end.

Definition sub (a b : double) : double := add a (neg b).

(** An infinity of sign [s] scaled by the sign of a finite factor. *)
Definition inf_signed (positive : bool) : double :=
  if positive then PInf else NInf.

Definition scale_inf (x : R) (positive : bool) : double :=
  match Rsgn x with
  | Gt => inf_signed positive
  | Lt => inf_signed (negb positive)
  | Eq => NaN
  end.

Definition mul (a b : double) : double :=
  match a, b with
  | NaN, _ | _, NaN => NaN
  | Fin x, Fin y => Fin (x * y)
  | Fin x, PInf | PInf, Fin x => scale_inf x true
  | Fin x, NInf | NInf, Fin x => scale_inf x false
  | PInf, PInf | NInf, NInf => PInf
  | PInf, NInf | NInf, PInf => NInf
  end.

(** C division ([cython.cdivision(True)]): a zero divisor gives an infinity
    or NaN, never an exception. *)
Definition div (a b : double) : double :=
  match a, b with
  | NaN, _ | _, NaN => NaN
  | Fin x, Fin y =>
      match Rsgn y with
      | Eq => scale_inf x true
      | _ => Fin (x / y)
      end
  | Fin _, _ => Fin 0
  | PInf, Fin y => match Rsgn y with Lt => NInf | _ => PInf end
  | NInf, Fin y => match Rsgn y with Lt => PInf | _ => NInf end
  | _, _ => NaN
  end.

(** [exp] and [log] of math.h. *)
Definition exp (a : double) : double :=
  match a with
  | Fin x => Fin (Rtrigo_def.exp x)
  | PInf => PInf
  | NInf => Fin 0
  | NaN => NaN
  end.

Definition log (a : double) : double :=
  match a with
  | Fin x =>
      match Rsgn x with
      | Gt => Fin (ln x)
      | Eq => NInf
      | Lt => NaN
      end
  | PInf => PInf
  | NInf | NaN => NaN
  end.

(** Comparisons: false as soon as one side is NaN. *)
Definition ltb (a b : double) : bool :=
  match a, b with
  | NaN, _ | _, NaN => false
  | Fin x, Fin y => if Rlt_dec x y then true else false
  | _, NInf => false
  | NInf, _ => true
  | PInf, _ => false
  | _, PInf => true
  end.

Definition leb (a b : double) : bool :=
  match a, b with
  | NaN, _ | _, NaN => false
  | Fin x, Fin y => if Rle_dec x y then true else false
  | NInf, _ => true
  | _, NInf => false
  | _, PInf => true
  | PInf, _ => false
  end.

Definition of_Z (z : Z) : double := Fin (IZR z).

Definition is_finite (a : double) : Prop := exists r, a = Fin r.

End Dbl.

Import Dbl.

(** ** Outcomes of a call

    A call returns, raises a Python exception, or reads or writes outside an
    array whose bounds are not checked ([cython.boundscheck(False)] with
    [cython.wraparound(False)]): the behaviour is then undefined, and the
    model stops there with [Undefined]. *)

Inductive exn : Type :=
| ValueError
| IndexError.

Inductive outcome (X : Type) : Type :=
| Ret (x : X)
| Raise (e : exn)
| Undefined.

Arguments Ret {X} x.
Arguments Raise {X} e.
Arguments Undefined {X}.

Definition bind {X Y : Type} (m : outcome X) (f : X -> outcome Y) : outcome Y :=
  match m with
  | Ret x => f x
  | Raise e => Raise e
  | Undefined => Undefined
  end.

Declare Scope outcome_scope.
Delimit Scope outcome_scope with outcome.
Notation "x <- m ;; k" := (bind m (fun x => k))
  (at level 61, m at next level, right associativity) : outcome_scope.
Notation "' p <- m ;; k" := (bind m (fun p => k))
  (at level 61, p pattern, m at next level, right associativity) : outcome_scope.
Local Open Scope outcome_scope.

(** [for x in xs: s = body(x, s)], stopping at the first failure. *)
Fixpoint foldM {X S : Type} (body : X -> S -> outcome S) (xs : list X) (s : S)
  : outcome S :=
  match xs with
  | [] => Ret s
  | x :: xs' => s' <- body x s ;; foldM body xs' s'
  end.

(** [for i in range(lo, hi)]. *)
Definition for_range {S : Type} (lo hi : nat) (body : nat -> S -> outcome S) (s : S)
  : outcome S :=
  foldM body (seq lo (hi - lo)) s.

(** ** Arrays

    A one-dimensional ndarray is a list; a two-dimensional one is the list of
    its rows.  Loop counters are natural numbers, marks are C [long]s. *)

Module Np.

Definition zeros (n : nat) : list double := repeat (Fin 0) n.
Definition ones (n : nat) : list double := repeat (Fin 1) n.

(** [a * x] with a scalar [x]. *)
Definition scale (a : list double) (x : double) : list double :=
  map (fun v => mul v x) a.

(** [np.sum]. *)
Definition sum (a : list double) : double := fold_left add a (Fin 0).

(** [np.unique]: the distinct values (only their number is used). *)
Definition unique (c : list Z) : list Z := nodup Z.eq_dec c.

(** Unchecked read [a[i]] with a loop counter. *)
Definition geti {X : Type} (a : list X) (i : nat) : outcome X :=
  match nth_error a i with
  | Some x => Ret x
  | None => Undefined
  end.

(** Unchecked read [a[i]] with a [long] index: negative indices do not wrap. *)
Definition getz {X : Type} (a : list X) (i : Z) : outcome X :=
  match i with
  | Zneg _ => Undefined
  | _ => geti a (Z.to_nat i)
  end.

Fixpoint upd {X : Type} (a : list X) (i : nat) (v : X) : list X :=
  match a, i with
  | [], _ => []
  | _ :: a', O => v :: a'
  | x :: a', S i' => x :: upd a' i' v
  end.

(** Unchecked write [a[i] = v]. *)
Definition seti {X : Type} (a : list X) (i : nat) (v : X) : outcome (list X) :=
  if i <? length a then Ret (upd a i v) else Undefined.

Definition setz {X : Type} (a : list X) (i : Z) (v : X) : outcome (list X) :=
  match i with
  | Zneg _ => Undefined
  | _ => seti a (Z.to_nat i) v
  end.

(** Unchecked read [A[i, j]]. *)
Definition get2 (A : list (list double)) (i : nat) (j : Z) : outcome double :=
  row <- geti A i ;; getz row j.

Definition shape0 (A : list (list double)) : nat := length A.
Definition shape1 (A : list (list double)) : nat := length (hd [] A).

(** [A.T]: row [k] of the result is column [k] of [A]. *)
Definition transpose (A : list (list double)) : list (list double) :=
  map (fun k => map (fun row => nth k row (Fin 0)) A) (seq 0 (shape1 A)).

(** Inner product of a row with a vector of the same length. *)
Definition inner (row v : list double) : double :=
  sum (map (fun p => mul (fst p) (snd p)) (combine row v)).

(** [A.T.dot(F)]: the shapes [(shape1 A, shape0 A)] and [(len F,)] must be
    aligned, or numpy raises ValueError. *)
Definition T_dot (A : list (list double)) (F : list double) : outcome (list double) :=
  if shape0 A =? length F
  then Ret (map (fun col => inner col F) (transpose A))
  else Raise ValueError.

End Np.

(** ** The log-likelihood: [mv_exp_ll] *)

Record ll_state : Type := mk_ll {
  phi : list double;
  d : list double;
  ed : list double;
  F : list double;
  lJ : double;
  lda : double;
  dot : double
}.

Section LogLikelihood.

Variables (t : list double) (c : list Z) (mu : list double)
          (A : list (list double)) (theta T : double).

(** The compensator increment [1 - exp(-theta * (T - ti))]. *)
Definition comp_inc (ti : double) : double :=
  sub (Fin 1) (exp (mul (neg theta) (sub T ti))).

(** Lines 54-56: the first event. *)
Definition ll_first (s : ll_state) : outcome ll_state :=
  c0 <- Np.geti c 0 ;;
  t0 <- Np.geti t 0 ;;
  f <- Np.getz (F s) c0 ;;
  F' <- Np.setz (F s) c0 (add f (comp_inc t0)) ;;
  m <- Np.getz mu c0 ;;
  d' <- Np.setz (d s) c0 (Fin 0) ;;
  Ret (mk_ll (phi s) d' (ed s) F' (log m) (lda s) (dot s)).

(** Lines 64-67: the body of the loop over the processes. *)
Definition ll_inner (i : nat) (ci : Z) (ti : double) (k : nat) (s : ll_state)
  : outcome ll_state :=
  tp <- Np.geti t (i - 1) ;;
  dk <- Np.geti (d s) k ;;
  let dk' := add dk (sub ti tp) in
  d' <- Np.seti (d s) k dk' ;;
  let edk := exp (mul (neg theta) dk') in
  ed' <- Np.seti (ed s) k edk ;;
  pk <- Np.geti (phi s) k ;;
  let pk' := mul edk (add (Fin 1) pk) in
  phi' <- Np.seti (phi s) k pk' ;;
  a <- Np.get2 A k ci ;;
  Ret (mk_ll phi' d' ed' (F s) (lJ s) (lda s) (add (dot s) (mul a pk'))).

(** Lines 59-74: the body of the loop over the events, for [K] processes. *)
Definition ll_event (K : nat) (i : nat) (s : ll_state) : outcome ll_state :=
  ci <- Np.geti c i ;;
  ti <- Np.geti t i ;;
  let s0 := mk_ll (phi s) (d s) (ed s) (F s) (lJ s) (lda s) (Fin 0) in
  s1 <- for_range 0 K (ll_inner i ci ti) s0 ;;
  m <- Np.getz mu ci ;;
  let lda' := add m (mul theta (dot s1)) in
  f <- Np.getz (F s1) ci ;;
  F' <- Np.setz (F s1) ci (add f (comp_inc ti)) ;;
  d' <- Np.setz (d s1) ci (Fin 0) ;;
  Ret (mk_ll (phi s1) d' (ed s1) F' (add (lJ s1) (log lda')) lda' (dot s1)).

(** Line 41: the number of processes the code works with. *)
Definition ll_K : nat := length (Np.unique c).

(** Lines 46-50. *)
Definition ll_init (K : nat) : ll_state :=
  mk_ll (Np.zeros K) (Np.scale (Np.ones K) PInf) (Np.zeros K) (Np.zeros K)
        (Fin 0) (Fin 0) (Fin 0).

(** Lines 52-74: the [nogil] block, run for the events before [n]. *)
Definition ll_pass_upto (n : nat) : outcome ll_state :=
  s <- ll_first (ll_init ll_K) ;;
  for_range 1 n (ll_event ll_K) s.

Definition ll_pass : outcome ll_state := ll_pass_upto (length t).

(** Line 76. *)
Definition ll_return (s : ll_state) : outcome double :=
  let bg := Np.sum (Np.scale mu T) in
  v <- Np.T_dot A (F s) ;;
  Ret (sub (add (lJ s) (neg bg)) (Np.sum v)).

Definition mv_exp_ll : outcome double :=
  s <- ll_pass ;; ll_return s.

End LogLikelihood.

(** ** The recursion of the specification

    The specification (section 4.1) describes the same pass for
    [K = len(mu)] processes, whole arrays at a time.  It is written here
    after the specification's words, to be compared with [ll_pass]. *)

Record rec_state : Type := mk_rec {
  r_phi : list double;
  r_d : list double;
  r_F : list double;
  r_total : double
}.

Section Recursion.

Variables (t : list double) (c : list Z) (mu : list double)
          (A : list (list double)) (theta T : double).

Definition rec_K : nat := length mu.

Definition mark (i : nat) : nat := Z.to_nat (nth i c 0%Z).
Definition time (i : nat) : double := nth i t NaN.
Definition entry (j k : nat) : double := nth k (nth j A []) NaN.

(** Step 1: [phi = 0], [d = +inf]; event 0. *)
Definition rec_first : rec_state :=
  let c0 := mark 0 in
  mk_rec (repeat (Fin 0) rec_K)
         (Np.upd (repeat PInf rec_K) c0 (Fin 0))
         (Np.upd (repeat (Fin 0) rec_K) c0
                 (add (Fin 0) (comp_inc theta T (time 0))))
         (log (nth c0 mu NaN)).

(** Step 2: event [i]. *)
Definition rec_event (s : rec_state) (i : nat) : rec_state :=
  let ci := mark i in
  let ti := time i in
  let d1 := map (fun x => add x (sub ti (time (i - 1)))) (r_d s) in
  let ed1 := map (fun x => exp (mul (neg theta) x)) d1 in
  let phi1 := map (fun p => mul (fst p) (add (Fin 1) (snd p))) (combine ed1 (r_phi s)) in
  let dot1 := fold_left (fun acc k => add acc (mul (entry k ci) (nth k phi1 NaN)))
                        (seq 0 rec_K) (Fin 0) in
  let lambda := add (nth ci mu NaN) (mul theta dot1) in
  mk_rec phi1
         (Np.upd d1 ci (Fin 0))
         (Np.upd (r_F s) ci (add (nth ci (r_F s) NaN) (comp_inc theta T ti)))
         (add (r_total s) (log lambda)).

Definition rec_pass : rec_state :=
  fold_left rec_event (seq 1 (length t - 1)) rec_first.

(** ** The direct evaluation

    The log-likelihood of the exponential-kernel model written out as sums
    over pairs of events (quadratic in the number of events): the intensity
    of process [k] at time [s] is
    [mu[k] + sum over earlier events j of A[c_j, k] * theta * exp(-theta * (s - t_j))]. *)

Definition bf_history (i : nat) : double :=
  fold_left (fun acc j =>
               add acc (mul (entry (mark j) (mark i))
                            (exp (mul (neg theta) (sub (time i) (time j))))))
            (seq 0 i) (Fin 0).

Definition bf_intensity (i : nat) : double :=
  add (nth (mark i) mu NaN) (mul theta (bf_history i)).

Definition bf_log_sum : double :=
  fold_left (fun acc i => add acc (log (bf_intensity i))) (seq 0 (length t)) (Fin 0).

(** Integral over [0, T] of the excitation caused by event [i], over all
    target processes. *)
Definition bf_excitation (i : nat) : double :=
  fold_left (fun acc k => add acc (mul (entry (mark i) k) (comp_inc theta T (time i))))
            (seq 0 rec_K) (Fin 0).

Definition bf_compensator : double :=
  add (Np.sum (Np.scale mu T))
      (fold_left (fun acc i => add acc (bf_excitation i)) (seq 0 (length t)) (Fin 0)).

Definition bf_ll : double := sub bf_log_sum bf_compensator.

End Recursion.

(** ** The random sources

    [rand()] and [RAND_MAX] of stdlib.h and numpy's generator are outside
    the file: they are taken as an interface.  A generator state is threaded
    through the samplers; each draw returns the next state.
    [np_random_poisson] raises for a mean it refuses and returns a count for
    every finite mean that is not negative; [np_random_sample] is one
    element of [np.random.rand], in [[0, 1)]; [rand] is in [[0, RAND_MAX]]. *)

Class RandomSource (rng : Type) : Type := {
  RAND_MAX : Z;
  rand : rng -> Z * rng;
  np_random_poisson : double -> rng -> outcome (nat * rng);
  np_random_sample : rng -> R * rng;
  RAND_MAX_pos : (0 < RAND_MAX)%Z;
  rand_range : forall g, (0 <= fst (rand g) <= RAND_MAX)%Z;
  sample_range : forall g, (0 <= fst (np_random_sample g) < 1)%R;
  poisson_defined : forall m g, (0 <= m)%R ->
    exists n g', np_random_poisson (Fin m) g = Ret (n, g')
}.

(** ** Sorting: [np.argsort(kind="mergesort")]

    numpy's routine is outside the file.  It is a stable sort, and the
    result of a stable sort is determined by its input; it is written here
    as the merge sort it is named after. *)

Section Mergesort.

Variable X : Type.
Variable lt : X -> X -> bool.

(** The merge takes from the right run only an element strictly smaller
    than the head of the left run. *)
Fixpoint merge (l1 l2 : list X) : list X :=
  let fix merge_right (l2 : list X) : list X :=
    match l1, l2 with
    | [], _ => l2
    | _, [] => l1
    | a :: l1', b :: l2' =>
        if lt b a then b :: merge_right l2' else a :: merge l1' l2
    end
  in merge_right l2.

(** Top-down merge sort, the runs split at the middle; [fuel] bounds the
    depth of the recursion. *)
Fixpoint mergesort0 (fuel : nat) (l : list X) : list X :=
  match fuel with
  | O => l
  | S fuel' =>
      match l with
      | [] | [_] => l
      | _ =>
          let m := Nat.div2 (length l) in
          merge (mergesort0 fuel' (firstn m l)) (mergesort0 fuel' (skipn m l))
      end
  end.

Definition mergesort (l : list X) : list X := mergesort0 (length l) l.

End Mergesort.

Arguments merge {X} lt l1 l2.
Arguments mergesort0 {X} lt fuel l.
Arguments mergesort {X} lt l.

Definition is_nan (a : double) : bool :=
  match a with NaN => true | _ => false end.

(** numpy's order on doubles when sorting: NaN is placed last. *)
Definition sort_lt (a b : double) : bool :=
  ltb a b || (is_nan b && negb (is_nan a)).

Definition argsort (P : list double) : list nat :=
  mergesort (fun i j => sort_lt (nth i P NaN) (nth j P NaN)) (seq 0 (length P)).

(** [a[six]] for an array of indices [six]. *)
Definition take {X : Type} (dflt : X) (a : list X) (six : list nat) : list X :=
  map (fun i => nth i a dflt) six.

(** [a] comes before [b] in a stable sort: [a] is smaller, or they tie and
    [a] was first. *)
Definition before {X : Type} (lt : X -> X -> bool) (rank : X -> nat) (a b : X) : Prop :=
  lt a b = true \/ (lt b a = false /\ rank a < rank b).

(** The order of the indices that [argsort] produces. *)
Definition key_before (P : list double) (i j : nat) : Prop :=
  before (fun i j => sort_lt (nth i P NaN) (nth j P NaN)) (fun i => i) i j.

(** [a[mask]] for a boolean mask of the length of [a]. *)
Fixpoint compress {X : Type} (mask : list bool) (a : list X) : list X :=
  match mask, a with
  | b :: mask', x :: a' => if b then x :: compress mask' a' else compress mask' a'
  | _, _ => []
  end.

(** ** The samplers *)

Section Samplers.

Context {rng : Type} {RS : RandomSource rng}.

(** Lines 13-14. *)
Definition uu (g : rng) : double * rng :=
  let (r, g') := rand g in (div (of_Z r) (of_Z RAND_MAX), g').

Record os_state : Type := mk_os {
  tos : list double;
  cos : list Z;
  os_gen : rng
}.

(** Lines 99-101: one child of process [k]. *)
Definition os_draw (t theta : double) (k : nat) (j : nat) (s : os_state)
  : outcome os_state :=
  let (u, g') := uu (os_gen s) in
  let tt := add (div (neg (log u)) theta) t in
  Ret (mk_os (tos s ++ [tt]) (cos s ++ [Z.of_nat k]) g').

(** Lines 97-101: the children of process [k]. *)
Definition os_process (t : double) (Acp : list double) (theta : double)
           (k : nat) (s : os_state) : outcome os_state :=
  a <- Np.geti Acp k ;;
  '(Nk, g') <- np_random_poisson a (os_gen s) ;;
  for_range 0 Nk (os_draw t theta k) (mk_os (tos s) (cos s) g').

(** Lines 103-107: the vectors copied into arrays, element by element. *)
Definition copy_out {X : Type} (dflt : X) (v : list X) : list X :=
  map (fun i => nth i v dflt) (seq 0 (length v)).

Definition _get_mv_offspring (t : double) (Acp : list double) (theta T : double)
           (g : rng) : outcome (list double * list Z * rng) :=
  let K := length Acp in
  s <- for_range 0 K (os_process t Acp theta) (mk_os [] [] g) ;;
  let tres := copy_out NaN (tos s) in
  let cres := copy_out 0%Z (cos s) in
  let keep := map (fun x => ltb x T) tres in
  Ret (compress keep tres, compress keep cres, os_gen s).

(** [np.random.rand(n)]. *)
Fixpoint np_random_rand (n : nat) (g : rng) : list double * rng :=
  match n with
  | O => ([], g)
  | S n' =>
      let (u, g1) := np_random_sample g in
      let (us, g2) := np_random_rand n' g1 in
      (Fin u :: us, g2)
  end.

Record sb_state : Type := mk_sb {
  curr_P : list double;
  curr_C : list Z;
  sb_gen : rng
}.

(** Lines 130-136: the immigrants of process [k]. *)
Definition sb_immigrants (T : double) (mu : list double) (k : nat) (s : sb_state)
  : outcome sb_state :=
  m <- Np.geti mu k ;;
  '(Nk0, g1) <- np_random_poisson (mul m T) (sb_gen s) ;;
  let (us, g2) := np_random_rand Nk0 g1 in
  let Pk0 := Np.scale us T in
  let Ck0 := map (fun o => (o * Z.of_nat k)%Z) (repeat 1%Z (length Pk0)) in
  Ret (mk_sb (curr_P s ++ Pk0) (curr_C s ++ Ck0) g2).

(** [A[ci, :]] on a Python integer: checked, a negative index counts from
    the end. *)
Definition row_of (A : list (list double)) (ci : Z) : outcome (list double) :=
  let n := Z.of_nat (length A) in
  let i := if (ci <? 0)%Z then (ci + n)%Z else ci in
  if ((0 <=? i) && (i <? n))%Z
  then match nth_error A (Z.to_nat i) with
       | Some row => Ret row
       | None => Raise IndexError
       end
  else Raise IndexError.

Record gen_state : Type := mk_gen {
  os_P : list (list double);
  os_C : list (list Z);
  gen_gen : rng
}.

(** Lines 146-149: the offspring of event [i] of the current generation. *)
Definition sb_offspring (T : double) (A : list (list double)) (theta : double)
           (cP : list double) (cC : list Z) (i : nat) (s : gen_state)
  : outcome gen_state :=
  ci <- Np.geti cC i ;;
  p <- Np.geti cP i ;;
  row <- row_of A ci ;;
  '(tres, cres, g') <- _get_mv_offspring p row theta T (gen_gen s) ;;
  Ret (mk_gen (os_P s ++ [tres]) (os_C s ++ [cres]) g').

(** Lines 138-152: the generations; [None] when [fuel] iterations of the
    [while] loop were not enough. *)
Fixpoint sb_generations (fuel : nat) (T : double) (A : list (list double))
         (theta : double) (P : list double) (C : list Z) (cur : sb_state)
  : option (outcome (list double * list Z * rng)) :=
  match length (curr_P cur) with
  | O => Some (Ret (P, C, sb_gen cur))
  | S _ =>
      match fuel with
      | O => None
      | S fuel' =>
          let P' := P ++ curr_P cur in
          let C' := C ++ curr_C cur in
          match for_range 0 (length (curr_P cur))
                          (sb_offspring T A theta (curr_P cur) (curr_C cur))
                          (mk_gen [] [] (sb_gen cur)) with
          | Ret s =>
              sb_generations fuel' T A theta P' C'
                             (mk_sb (concat (os_P s)) (concat (os_C s)) (gen_gen s))
          | Raise e => Some (Raise e)
          | Undefined => Some Undefined
          end
      end
  end.

(** Lines 121-136 and 138-152: everything before the sort. *)
Definition sb_accumulate (fuel : nat) (T : double) (mu : list double)
           (A : list (list double)) (theta : double) (g : rng)
  : option (outcome (list double * list Z * rng)) :=
  match for_range 0 (length mu) (sb_immigrants T mu) (mk_sb [] [] g) with
  | Ret cur => sb_generations fuel T A theta [] [] cur
  | Raise e => Some (Raise e)
  | Undefined => Some Undefined
  end.

(** Lines 154-156. *)
Definition sb_sorted (P : list double) (C : list Z) : list double * list Z :=
  let six := argsort P in (take NaN P six, take 0%Z C six).

Definition mv_exp_sample_branching (fuel : nat) (T : double) (mu : list double)
           (A : list (list double)) (theta : double) (g : rng)
  : option (outcome (list double * list Z * rng)) :=
  match sb_accumulate fuel T mu A theta g with
  | Some (Ret (P, C, g')) => Some (Ret (sb_sorted P C, g'))
  | Some (Raise e) => Some (Raise e)
  | Some Undefined => Some Undefined
  | None => None
  end.

End Samplers.

(** ** Shapes and sums used in the statements *)

(** Every mark is a process index below [K]. *)
Definition marks_in (c : list Z) (K : nat) : Prop :=
  Forall (fun z => (0 <= z < Z.of_nat K)%Z) c.

(** [A] is a [K] by [K] array. *)
Definition square (A : list (list double)) (K : nat) : Prop :=
  length A = K /\ Forall (fun row => length row = K) A.

(** The arrays fit together: as many marks as times, at least one event,
    [mu] of length [K], [A] of shape [(K, K)], marks in [[0, K)]. *)
Definition shapes_agree (t : list double) (c : list Z) (mu : list double)
           (A : list (list double)) : Prop :=
  length c = length t /\ 1 <= length t /\
  marks_in c (length mu) /\ square A (length mu).

(** Every process of [mu] has an event: the marks take [len(mu)] values. *)
Definition all_marks_occur (c : list Z) (mu : list double) : Prop :=
  length (Np.unique c) = length mu.

(** The arrays of a state have [K] cells. *)
Definition ll_wf (K : nat) (s : ll_state) : Prop :=
  length (phi s) = K /\ length (d s) = K /\ length (ed s) = K /\ length (F s) = K.

(** The compensator of process [k] over the events before [n]: the sum, over
    the events of mark [k], of [1 - exp(-theta * (T - t_i))]. *)
Definition comp_of (t : list double) (c : list Z) (theta T : double)
           (n : nat) (k : nat) : double :=
  fold_left (fun acc i => if mark c i =? k then add acc (comp_inc theta T (time t i)) else acc)
            (seq 0 n) (Fin 0).

(** [sum over k of sum over j of A[j, k] * F[j]]: [F] taken at the row (the
    source process) of [A]. *)
Definition excitation_by_source (A : list (list double)) (F : list double) : double :=
  fold_left (fun acc k =>
               add acc (fold_left (fun acc' j => add acc' (mul (entry A j k) (nth j F NaN)))
                                  (seq 0 (length A)) (Fin 0)))
            (seq 0 (Np.shape1 A)) (Fin 0).

(** [sum over j of sum over k of A[j, k] * F[k]]: [F] taken at the column
    (the target process) of [A]. *)
Definition excitation_by_target (A : list (list double)) (F : list double) : double :=
  fold_left (fun acc j =>
               add acc (fold_left (fun acc' k => add acc' (mul (entry A j k) (nth k F NaN)))
                                  (seq 0 (Np.shape1 A)) (Fin 0)))
            (seq 0 (length A)) (Fin 0).

(** The value is [-inf] or NaN. *)
Definition log_undefined (a : double) : Prop := a = NInf \/ a = NaN.

(** A time inside the window [[0, T)]. *)
Definition in_window (Tr : R) (a : double) : Prop :=
  exists r, a = Fin r /\ (0 <= r < Tr)%R.

(** A finite mean that is not negative. *)
Definition valid_mean (a : double) : Prop :=
  exists m, a = Fin m /\ (0 <= m)%R.

(** ** The states of the pass, in closed form *)

Section PassResults.

Variables (t : list double) (c : list Z) (mu : list double)
          (A : list (list double)) (theta T : double) (K : nat).

(** What the loop over the processes computes, for the cells still to do. *)
Definition advance_d (dt : double) (ds : list double) : list double :=
  map (fun x => add x dt) ds.

Definition decay (ds : list double) : list double :=
  map (fun x => exp (mul (neg theta) x)) ds.

Definition bump (eds phis : list double) : list double :=
  map (fun p => mul (fst p) (add (Fin 1) (snd p))) (combine eds phis).

Definition dot_step (ci : nat) (phis : list double) (acc : double) (k : nat) : double :=
  add acc (mul (entry A k ci) (nth k phis NaN)).

(** The state after event 0 (lines 54-56). *)
Definition first_result : ll_state :=
  let c0 := mark c 0 in
  mk_ll (Np.zeros K)
        (Np.upd (repeat PInf K) c0 (Fin 0))
        (Np.zeros K)
        (Np.upd (Np.zeros K) c0 (add (Fin 0) (comp_inc theta T (time t 0))))
        (log (nth c0 mu NaN)) (Fin 0) (Fin 0).

(** The state after event [i] (lines 59-74), from the state [s] before it. *)
Definition event_result (i : nat) (s : ll_state) : ll_state :=
  let ci := mark c i in
  let ti := time t i in
  let newd := advance_d (sub ti (time t (i - 1))) (d s) in
  let newphi := bump (decay newd) (phi s) in
  let dot' := fold_left (dot_step ci newphi) (seq 0 K) (Fin 0) in
  let lda' := add (nth ci mu NaN) (mul theta dot') in
  mk_ll newphi
        (Np.upd newd ci (Fin 0))
        (decay newd)
        (Np.upd (F s) ci (add (nth ci (F s) NaN) (comp_inc theta T ti)))
        (add (lJ s) (log lda')) lda' dot'.

(** The state after the events before [n]. *)
Definition pass_result (n : nat) : ll_state :=
  fold_left (fun s i => event_result i s) (seq 1 (n - 1)) first_result.

End PassResults.

(** [np.sum(mu * T)] written with indices. *)
Definition background_sum (mu : list double) (T : double) : double :=
  fold_left (fun acc k => add acc (mul (nth k mu NaN) T)) (seq 0 (length mu)) (Fin 0).

(** The state of the code and the state of the recursion agree. *)
Definition same_state (s : ll_state) (r : rec_state) : Prop :=
  phi s = r_phi r /\ d s = r_d r /\ F s = r_F r /\ lJ s = r_total r.

(** One of the defects the specification lists: lengths that differ, a mark
    outside [[0, K)], a negative entry of [mu] or [A], [theta <= 0],
    [T <= 0], or [T] before the last event. *)
Definition invalid_input (t : list double) (c : list Z) (mu : list double)
           (A : list (list double)) (theta T : double) : Prop :=
  length c <> length t \/
  ~ marks_in c (length mu) \/
  (exists m, In (Fin m) mu /\ (m < 0)%R) \/
  (exists row m, In row A /\ In (Fin m) row /\ (m < 0)%R) \/
  leb theta (Fin 0) = true \/
  leb T (Fin 0) = true \/
  ltb T (last t NaN) = true.

(** The call ends with a value. *)
Definition returns_value {X : Type} (o : outcome X) : Prop :=
  exists v, o = Ret v.

(** The state while the events are consumed: one finite cell per array, and
    the running total is the number of events seen times [log mu]. *)
Definition univariate_inv (m : R) (n : nat) (s : ll_state) : Prop :=
  (exists p, phi s = [Fin p]) /\ (exists x, d s = [Fin x]) /\
  (exists f, F s = [Fin f]) /\
  lJ s = mul (Fin (INR n)) (log (Fin m)).

(** The immigrants are inside the window, with a mark each. *)
Definition sb_inv {rng : Type} (Tr : R) (s : @sb_state rng) : Prop :=
  Forall (in_window Tr) (curr_P s) /\ length (curr_C s) = length (curr_P s).

(** The offspring gathered so far are inside the window, with a mark each. *)
Definition gen_inv {rng : Type} (Tr : R) (s : @gen_state rng) : Prop :=
  Forall (in_window Tr) (concat (os_P s)) /\
  length (concat (os_C s)) = length (concat (os_P s)).

(** ** The candidates of the offspring sampler

    Written after the specification (section 4.2), to be compared with
    [_get_mv_offspring]: for each target process a Poisson number of
    children, each at [parentTime + offset], then the filter [time < T]. *)

Section Candidates.

Context {rng : Type} {RS : RandomSource rng}.

(** The time of a child: [parentTime + (-ln(U) / theta)]. *)
Definition child_time (t theta u : double) : double :=
  add t (div (neg (log u)) theta).

(** [n] children of mark [k]. *)
Fixpoint children (t theta : double) (k : nat) (n : nat) (g : rng)
  : list (double * Z) * rng :=
  match n with
  | O => ([], g)
  | S n' =>
      let (u, g1) := uu g in
      let (rest, g2) := children t theta k n' g1 in
      ((child_time t theta u, Z.of_nat k) :: rest, g2)
  end.

(** The candidates: for each target process [k], from [k0] on, a Poisson
    number of children. *)
Fixpoint candidates_from (t theta : double) (k0 : nat) (row : list double) (g : rng)
  : outcome (list (double * Z) * rng) :=
  match row with
  | [] => Ret ([], g)
  | a :: row' =>
      '(n, g1) <- np_random_poisson a g ;;
      let (ch, g2) := children t theta k0 n g1 in
      '(rest, g3) <- candidates_from t theta (S k0) row' g2 ;;
      Ret (ch ++ rest, g3)
  end.

Definition candidates (t : double) (row : list double) (theta : double) (g : rng)
  : outcome (list (double * Z) * rng) :=
  candidates_from t theta 0 row g.

(** The candidates that survive: those with [time < T]. *)
Definition survivors (T : double) (cands : list (double * Z)) : list (double * Z) :=
  filter (fun e => ltb (fst e) T) cands.

End Candidates.

(** ** A scripted random source

    A generator that replays three lists of draws, for the concrete runs:
    the values of [rand()] (clamped to [[0, RAND_MAX]]), the Poisson counts,
    and the 53-bit integers behind [np.random.rand].  An exhausted list
    gives zero. *)

Record script : Type := mk_script {
  rand_script : list Z;
  poisson_script : list nat;
  sample_script : list Z
}.

Definition script_RAND_MAX : Z := 2147483647.

Definition script_rand (g : script) : Z * script :=
  match rand_script g with
  | [] => (0%Z, g)
  | z :: zs =>
      (Z.max 0 (Z.min z script_RAND_MAX),
       mk_script zs (poisson_script g) (sample_script g))
  end.

Definition script_count (g : script) : nat * script :=
  match poisson_script g with
  | [] => (O, g)
  | n :: ns => (n, mk_script (rand_script g) ns (sample_script g))
  end.

Definition script_poisson (lam : double) (g : script) : outcome (nat * script) :=
  match lam with
  | Fin m => if Rle_dec 0 m then Ret (script_count g) else Raise ValueError
  | _ => Raise ValueError
  end.

Definition script_sample (g : script) : R * script :=
  match sample_script g with
  | [] => (0%R, g)
  | z :: zs =>
      ((IZR (z mod 2 ^ 53) / IZR (2 ^ 53))%R,
       mk_script (rand_script g) (poisson_script g) zs)
  end.

(** ** Invariants of the further properties *)

(** The marks of the current generation are process indices below [K], one
    per time. *)
Definition sb_marks_inv {rng : Type} (K : nat) (s : @sb_state rng) : Prop :=
  marks_in (curr_C s) K /\ length (curr_C s) = length (curr_P s).

(** The same for the offspring gathered so far. *)
Definition gen_marks_inv {rng : Type} (K : nat) (s : @gen_state rng) : Prop :=
  marks_in (concat (os_C s)) K /\
  length (concat (os_C s)) = length (concat (os_P s)).

(** What reading and writing at the mark of event [i] needs: a mark for the
    event, at least 0, below [K] and below [len(mu)]. *)
Definition mark_fits (c : list Z) (mu : list double) (K : nat) (i : nat) : Prop :=
  i < length c /\
  (0 <= nth i c 0%Z < Z.of_nat K)%Z /\ (nth i c 0%Z < Z.of_nat (length mu))%Z.

(** Finite doubles by sign. *)
Definition nonneg_fin (a : double) : Prop := exists r, a = Fin r /\ (0 <= r)%R.
Definition pos_fin (a : double) : Prop := exists r, a = Fin r /\ (0 < r)%R.

(** A cell of [d]: [+inf] until the process fires, finite afterwards. *)
Definition fin_or_inf (a : double) : Prop := a = PInf \/ is_finite a.

(** The state of the pass on valid numbers: [phi] finite and not negative,
    [d] finite or [+inf], [F] and the running total finite. *)
Definition num_inv (s : ll_state) : Prop :=
  Forall nonneg_fin (phi s) /\ Forall fin_or_inf (d s) /\
  Forall is_finite (F s) /\ is_finite (lJ s).

(** The number of events of process [k] among the first [n]. *)
Definition events_of (c : list Z) (k n : nat) : nat :=
  length (filter (fun i => mark c i =? k) (seq 0 n)).

(** Sums over the events of one process, as reals: the time of event [i],
    the decayed count [sum over j < i of exp(-theta * (t_i - t_j))] of the
    events before it, the compensator of the first [n] events, and the
    running total of the logarithms of the intensities
    [mu + theta * a * (decayed count)]. *)
Definition tau (ts : list R) (i : nat) : R := nth i ts 0%R.

Definition decayed_count (th : R) (ts : list R) (i : nat) : R :=
  fold_left (fun acc j => (acc + Rtrigo_def.exp (- th * (tau ts i + - tau ts j)))%R)
            (seq 0 i) 0%R.

Definition compensator_sum (th Tr : R) (ts : list R) (n : nat) : R :=
  fold_left (fun acc i => (acc + (1 + - Rtrigo_def.exp (- th * (Tr + - tau ts i))))%R)
            (seq 0 n) 0%R.

Definition log_total (m a th : R) (ts : list R) (n : nat) : double :=
  fold_left (fun acc i => add acc (log (Fin (m + th * (a * decayed_count th ts i)))))
            (seq 0 n) (Fin 0).

(** The state of the pass for one process, after [n] events. *)
Definition one_process_inv (m a th Tr : R) (ts : list R) (n : nat) (s : ll_state)
  : Prop :=
  phi s = [Fin (decayed_count th ts (n - 1))] /\ d s = [Fin 0] /\
  F s = [Fin (compensator_sum th Tr ts n)] /\
  lJ s = log_total m a th ts n.

(** A matrix [A] of zeros, the sum of the logarithms of the background
    rates of the first [n] events, and the state of the pass after [n]
    events when [A] is zero. *)
Definition no_excitation (A : list (list double)) : Prop :=
  Forall (Forall (fun x => x = Fin 0%R)) A.

Definition background_logs (mu : list double) (c : list Z) (n : nat) : double :=
  fold_left (fun acc i => add acc (log (nth (mark c i) mu NaN))) (seq 0 n) (Fin 0).

Definition quiet_inv (mu : list double) (c : list Z) (n : nat) (s : ll_state)
  : Prop :=
  Forall nonneg_fin (phi s) /\ Forall fin_or_inf (d s) /\
  Forall is_finite (F s) /\ lJ s = background_logs mu c n.

(** The times moved by [s]: [t + s]. *)
Definition shift (s : R) (t : list double) : list double :=
  map (fun x => add x (Fin s)) t.

(** * Properties *)

(** ** Arithmetic of doubles *)

Local Open Scope R_scope.

Lemma Rsgn_gt (x : R) : 0 < x -> Rsgn x = Gt.
Proof.
  unfold Rsgn; intros Hx.
  destruct (total_order_T x 0) as [[Hlt | Heq] | Hgt]; try lra; reflexivity.
Qed.

Lemma Rsgn_lt (x : R) : x < 0 -> Rsgn x = Lt.
Proof.
  unfold Rsgn; intros Hx.
  destruct (total_order_T x 0) as [[Hlt | Heq] | Hgt]; try lra; reflexivity.
Qed.

Lemma Rsgn_eq (x : R) : x = 0 -> Rsgn x = Eq.
Proof.
  unfold Rsgn; intros Hx.
  destruct (total_order_T x 0) as [[Hlt | Heq] | Hgt]; try lra; reflexivity.
Qed.

Lemma Rsgn_cases (x : R) :
  (x < 0 /\ Rsgn x = Lt) \/ (x = 0 /\ Rsgn x = Eq) \/ (0 < x /\ Rsgn x = Gt).
Proof.
  destruct (Rtotal_order x 0) as [H | [H | H]].
  - left; split; [assumption | now apply Rsgn_lt].
  - right; left; split; [assumption | now apply Rsgn_eq].
  - right; right; split; [lra | apply Rsgn_gt; lra].
Qed.

Ltac sgn :=
  repeat first
    [ rewrite (Rsgn_gt _) by lra
    | rewrite (Rsgn_lt _) by lra
    | rewrite (Rsgn_eq _) by lra ].

Ltac pos2nat :=
  repeat match goal with
  | |- context [Pos.to_nat ?p] =>
      let n := eval vm_compute in (Pos.to_nat p) in change (Pos.to_nat p) with n
  end.

(** Runs the embedded code on concrete arrays: computation, then the sign
    tests on concrete reals. *)
Ltac run_code :=
  repeat (progress (cbn -[Rsgn Rle_dec Rlt_dec]; unfold scale_inf; sgn; pos2nat)).

Lemma add_comm (a b : double) : add a b = add b a.
Proof. destruct a, b; simpl; try reflexivity; f_equal; ring. Qed.

Lemma add_assoc (a b c : double) : add a (add b c) = add (add a b) c.
Proof. destruct a, b, c; simpl; try reflexivity; f_equal; ring. Qed.

Lemma add_0_l (a : double) : add (Fin 0) a = a.
Proof. destruct a; simpl; try reflexivity; f_equal; ring. Qed.

Lemma add_0_r (a : double) : add a (Fin 0) = a.
Proof. rewrite add_comm; apply add_0_l. Qed.

Lemma mul_comm (a b : double) : mul a b = mul b a.
Proof. destruct a, b; simpl; try reflexivity; f_equal; ring. Qed.

Lemma log_nonpositive (x : R) : x <= 0 -> log_undefined (log (Fin x)).
Proof.
  intros Hx; unfold log_undefined; simpl.
  destruct (Rsgn_cases x) as [[H E] | [[H E] | [H E]]]; rewrite E; auto; lra.
Qed.

Lemma log_undefined_add (a b : double) :
  log_undefined a -> log_undefined (add a b).
Proof.
  unfold log_undefined; intros [-> | ->]; destruct b; simpl; auto.
Qed.

Lemma log_undefined_sub (a b : double) :
  log_undefined a -> log_undefined (sub a b).
Proof.
  unfold sub; apply log_undefined_add.
Qed.

Lemma ltb_Fin (x y : R) : ltb (Fin x) (Fin y) = true <-> x < y.
Proof.
  simpl; destruct (Rlt_dec x y); split; intros; try assumption;
    try reflexivity; try discriminate; contradiction.
Qed.

Lemma leb_Fin (x y : R) : leb (Fin x) (Fin y) = true <-> x <= y.
Proof.
  simpl; destruct (Rle_dec x y); split; intros; try assumption;
    try reflexivity; try discriminate; contradiction.
Qed.

(** ** Loops and arrays *)

Local Open Scope nat_scope.

Lemma foldM_app {X S : Type} (body : X -> S -> outcome S) (xs ys : list X) (s : S) :
  foldM body (xs ++ ys) s = bind (foldM body xs s) (foldM body ys).
Proof.
  revert s; induction xs as [| x xs IH]; intros s; simpl.
  - reflexivity.
  - destruct (body x s) as [s' | e |]; simpl; auto.
Qed.

(** A loop over [range(lo, lo + n)] that keeps an invariant indexed by the
    counter returns, in a state that satisfies it. *)
Lemma foldM_seq_inv {S : Type} (Inv : nat -> S -> Prop) (body : nat -> S -> outcome S) :
  forall (n lo : nat) (s : S),
    Inv lo s ->
    (forall i s0, lo <= i < lo + n -> Inv i s0 ->
                  exists s1, body i s0 = Ret s1 /\ Inv (Datatypes.S i) s1) ->
    exists s', foldM body (seq lo n) s = Ret s' /\ Inv (lo + n) s'.
Proof.
  induction n as [| n IH]; intros lo s H0 Hstep; simpl.
  - exists s; split; [reflexivity | now rewrite Nat.add_0_r].
  - destruct (Hstep lo s) as (s1 & E1 & I1); [lia | assumption |].
    rewrite E1; simpl.
    destruct (IH (Datatypes.S lo) s1 I1) as (s' & E' & I').
    + intros i s0 Hi; apply Hstep; lia.
    + exists s'; split; [assumption |].
      now replace (lo + Datatypes.S n) with (Datatypes.S lo + n) by lia.
Qed.

Lemma geti_Ret {X : Type} (a : list X) (i : nat) (dflt : X) :
  i < length a -> Np.geti a i = Ret (nth i a dflt).
Proof.
  intros H; unfold Np.geti.
  destruct (nth_error a i) as [x |] eqn:E.
  - now rewrite (nth_error_nth _ _ dflt E).
  - apply nth_error_None in E; lia.
Qed.

Lemma getz_Ret {X : Type} (a : list X) (z : Z) (dflt : X) :
  (0 <= z < Z.of_nat (length a))%Z ->
  Np.getz a z = Ret (nth (Z.to_nat z) a dflt).
Proof.
  intros H; unfold Np.getz.
  destruct z as [| p | p]; try lia; apply geti_Ret; lia.
Qed.

Lemma seti_Ret {X : Type} (a : list X) (i : nat) (v : X) :
  i < length a -> Np.seti a i v = Ret (Np.upd a i v).
Proof.
  intros H; unfold Np.seti.
  destruct (Nat.ltb_spec i (length a)); [reflexivity | lia].
Qed.

Lemma setz_Ret {X : Type} (a : list X) (z : Z) (v : X) :
  (0 <= z < Z.of_nat (length a))%Z ->
  Np.setz a z v = Ret (Np.upd a (Z.to_nat z) v).
Proof.
  intros H; unfold Np.setz.
  destruct z as [| p | p]; try lia; apply seti_Ret; lia.
Qed.

Lemma upd_length {X : Type} (a : list X) (i : nat) (v : X) :
  length (Np.upd a i v) = length a.
Proof.
  revert i; induction a as [| x a IH]; intros [| i]; simpl; auto.
Qed.

Lemma upd_app_mid {X : Type} (done todo : list X) (x v : X) :
  Np.upd (done ++ x :: todo) (length done) v = done ++ v :: todo.
Proof.
  induction done as [| y done IH]; simpl; [reflexivity | now rewrite IH].
Qed.

Lemma nth_app_mid {X : Type} (done todo : list X) (x dflt : X) :
  nth (length done) (done ++ x :: todo) dflt = x.
Proof.
  induction done as [| y done IH]; simpl; auto.
Qed.

Lemma scale_ones_inf (K : nat) : Np.scale (Np.ones K) PInf = repeat PInf K.
Proof.
  unfold Np.scale, Np.ones.
  induction K as [| K IH]; simpl; [reflexivity |].
  rewrite IH; f_equal.
  unfold scale_inf; now rewrite Rsgn_gt by lra.
Qed.

(** ** The pass of [mv_exp_ll] *)

Section PassLemmas.

Variables (t : list double) (c : list Z) (mu : list double)
          (A : list (list double)) (theta T : double).


Lemma get2_Ret (k : nat) (ci : Z) :
  k < length A ->
  Forall (fun row => (0 <= ci < Z.of_nat (length row))%Z) A ->
  Np.get2 A k ci = Ret (entry A k (Z.to_nat ci)).
Proof.
  intros Hk Hrows; unfold Np.get2, entry.
  rewrite (geti_Ret A k []) by assumption; simpl.
  apply getz_Ret.
  rewrite Forall_forall in Hrows; apply Hrows, nth_In; assumption.
Qed.

Lemma ll_inner_loop (i : nat) (ci : Z) (ti : double) :
  i - 1 < length t ->
  Forall (fun row => (0 <= ci < Z.of_nat (length row))%Z) A ->
  forall (dt pt et dd pd edd : list double) (Fv : list double) (lJv ldav dotv : double),
    length pt = length dt -> length et = length dt ->
    length pd = length dd -> length edd = length dd ->
    length dd + length dt <= length A ->
    let step := sub ti (time t (i - 1)) in
    let newd := advance_d step dt in
    let newphi := bump (decay theta newd) pt in
    foldM (ll_inner t A theta i ci ti) (seq (length dd) (length dt))
          (mk_ll (pd ++ pt) (dd ++ dt) (edd ++ et) Fv lJv ldav dotv)
    = Ret (mk_ll (pd ++ newphi) (dd ++ newd) (edd ++ decay theta newd) Fv lJv ldav
                 (fold_left (dot_step A (Z.to_nat ci) (pd ++ newphi))
                            (seq (length dd) (length dt)) dotv)).
Proof.
  intros Hi Hrows dt.
  induction dt as [| x dt IH]; intros pt et dd pd edd Fv lJv ldav dotv Hp He Hpd Hed HA.
  - destruct pt; [| discriminate]. destruct et; [| discriminate]. reflexivity.
  - destruct pt as [| p pt]; [discriminate |].
    destruct et as [| e et]; [discriminate |].
    simpl in Hp, He, HA.
    cbn [length seq foldM].
    unfold ll_inner at 1; cbn [phi d ed F lJ lda dot].
    rewrite (geti_Ret t (i - 1) NaN) by assumption; cbn [bind].
    rewrite (geti_Ret (dd ++ x :: dt) (length dd) NaN) by (rewrite length_app; simpl; lia).
    cbn [bind]; rewrite nth_app_mid.
    rewrite seti_Ret by (rewrite length_app; simpl; lia).
    cbn [bind]; rewrite upd_app_mid.
    rewrite <- Hed at 1.
    rewrite seti_Ret by (rewrite length_app; simpl; lia).
    cbn [bind]; rewrite upd_app_mid.
    rewrite <- Hpd at 1.
    rewrite (geti_Ret (pd ++ p :: pt) (length pd) NaN) by (rewrite length_app; simpl; lia).
    cbn [bind]; rewrite nth_app_mid.
    rewrite <- Hpd at 1.
    rewrite seti_Ret by (rewrite length_app; simpl; lia).
    cbn [bind]; rewrite upd_app_mid.
    rewrite get2_Ret by (assumption || lia).
    cbn [bind].
    set (x' := add x (sub ti (nth (i - 1) t NaN))).
    set (e' := exp (mul (neg theta) x')).
    set (p' := mul e' (add (Fin 1) p)).
    replace (pd ++ p' :: pt) with ((pd ++ [p']) ++ pt) by (now rewrite <- app_assoc).
    replace (dd ++ x' :: dt) with ((dd ++ [x']) ++ dt) by (now rewrite <- app_assoc).
    replace (edd ++ e' :: et) with ((edd ++ [e']) ++ et) by (now rewrite <- app_assoc).
    replace (S (length dd)) with (length (dd ++ [x'])) by (rewrite length_app; simpl; lia).
    rewrite IH by (rewrite ?length_app; simpl; lia).
    unfold advance_d, decay, bump, time; cbn [map combine fst snd fold_left].
    fold x'; fold e'; fold p'.
    rewrite <- !app_assoc; cbn [app].
    f_equal; f_equal.
    unfold dot_step at 3.
    rewrite <- Hpd, nth_app_mid. reflexivity.
Qed.

End PassLemmas.

Section EventLemmas.

Variables (t : list double) (c : list Z) (mu : list double)
          (A : list (list double)) (theta T : double) (K : nat).

Hypothesis Hmu : length mu = K.
Hypothesis HA : square A K.
Hypothesis Hc : marks_in c K.
Hypothesis Hlen : length c = length t.


Lemma mark_range (i : nat) :
  i < length t -> (0 <= nth i c 0%Z < Z.of_nat K)%Z.
Proof using Hc Hlen.
  clear Hmu HA.
  intros Hi. unfold marks_in in Hc. rewrite Forall_forall in Hc.
  apply Hc, nth_In. lia.
Qed.

Lemma mark_lt (i : nat) : i < length t -> mark c i < K.
Proof using Hc Hlen.
  clear Hmu HA.
  intros Hi. pose proof (mark_range i Hi). unfold mark. lia.
Qed.

Lemma rows_cover (i : nat) :
  i < length t ->
  Forall (fun row => (0 <= nth i c 0%Z < Z.of_nat (length row))%Z) A.
Proof using HA Hc Hlen.
  clear Hmu.
  intros Hi. destruct HA as [_ Hrows].
  rewrite Forall_forall in *. intros row Hin.
  rewrite (Hrows row Hin). now apply mark_range.
Qed.

Lemma zeros_length (n : nat) : length (Np.zeros n) = n.
Proof. apply repeat_length. Qed.

Lemma ll_first_Ret :
  1 <= length t ->
  ll_first t c mu theta T (ll_init K) = Ret (first_result t c mu theta T K).
Proof.
  intros HN. unfold ll_first, ll_init; cbn [phi d ed F lJ lda dot].
  pose proof (mark_range 0 ltac:(lia)) as Hr.
  rewrite (geti_Ret c 0 0%Z) by lia.
  rewrite (geti_Ret t 0 NaN) by lia.
  cbn [bind].
  rewrite (getz_Ret _ _ NaN) by (rewrite zeros_length; exact Hr).
  cbn [bind].
  rewrite setz_Ret by (rewrite zeros_length; exact Hr).
  cbn [bind].
  rewrite (getz_Ret _ _ NaN) by (rewrite Hmu; exact Hr).
  cbn [bind].
  rewrite scale_ones_inf.
  rewrite setz_Ret by (rewrite repeat_length; exact Hr).
  cbn [bind]. unfold first_result, mark, time.
  do 2 f_equal.
  unfold Np.zeros. f_equal. f_equal.
  apply nth_repeat_lt. lia.
Qed.

Lemma first_result_wf : 1 <= length t -> ll_wf K (first_result t c mu theta T K).
Proof using.
  clear Hmu HA Hc Hlen.
  intros HN; unfold ll_wf, first_result; cbn [phi d ed F].
  rewrite !upd_length, !zeros_length, repeat_length. auto.
Qed.

Lemma ll_event_Ret (i : nat) (s : ll_state) :
  1 <= i < length t -> ll_wf K s ->
  ll_event t c mu A theta T K i s = Ret (event_result t c mu A theta T K i s).
Proof.
  intros Hi (Hphi & Hd & Hed & HF).
  pose proof (mark_range i ltac:(lia)) as Hr.
  unfold ll_event.
  rewrite (geti_Ret c i 0%Z) by lia.
  rewrite (geti_Ret t i NaN) by lia.
  cbn [bind].
  unfold for_range. rewrite Nat.sub_0_r.
  pose proof (ll_inner_loop t A theta i (nth i c 0%Z) (nth i t NaN)
                ltac:(lia) (rows_cover i ltac:(lia))
                (d s) (phi s) (ed s) [] [] [] (F s) (lJ s) (lda s) (Fin 0)) as Hloop.
  cbn [app length] in Hloop.
  rewrite <- Hd at 1. rewrite Hloop; clear Hloop;
    try lia; try (destruct HA as [HA0 _]; lia).
  cbn [bind phi d ed F lJ lda dot].
  rewrite (getz_Ret _ _ NaN) by (rewrite Hmu; exact Hr).
  cbn [bind].
  rewrite (getz_Ret _ _ NaN) by (rewrite HF; exact Hr).
  cbn [bind].
  rewrite setz_Ret by (rewrite HF; exact Hr).
  cbn [bind].
  rewrite setz_Ret
    by (unfold advance_d; rewrite length_map, Hd; exact Hr).
  cbn [bind]. unfold event_result, mark, time. rewrite Hd. reflexivity.
Qed.

Lemma event_result_wf (i : nat) (s : ll_state) :
  ll_wf K s -> ll_wf K (event_result t c mu A theta T K i s).
Proof using.
  clear Hmu HA Hc Hlen.
  intros (Hphi & Hd & Hed & HF).
  unfold ll_wf, event_result; cbn [phi d ed F].
  unfold bump, decay, advance_d.
  rewrite !upd_length, !length_map, length_combine, !length_map.
  repeat split; lia.
Qed.


Lemma pass_result_S (n : nat) :
  1 <= n ->
  pass_result t c mu A theta T K (S n)
  = event_result t c mu A theta T K n (pass_result t c mu A theta T K n).
Proof using.
  clear Hmu HA Hc Hlen.
  intros Hn; unfold pass_result.
  replace (S n - 1) with ((n - 1) + 1) by lia.
  rewrite seq_app, fold_left_app; cbn [seq fold_left].
  now replace (1 + (n - 1)) with n by lia.
Qed.

Lemma pass_result_wf (n : nat) :
  1 <= length t -> ll_wf K (pass_result t c mu A theta T K n).
Proof using.
  clear Hmu HA Hc Hlen.
  intros HN. destruct n as [| n]; [now apply first_result_wf |].
  induction n as [| n IH].
  - now apply first_result_wf.
  - rewrite pass_result_S by lia. now apply event_result_wf.
Qed.

Lemma for_range_events (n : nat) :
  1 <= n <= length t ->
  for_range 1 n (ll_event t c mu A theta T K) (first_result t c mu theta T K)
  = Ret (pass_result t c mu A theta T K n).
Proof.
  intros Hn. unfold for_range.
  destruct (foldM_seq_inv
              (fun i s => s = pass_result t c mu A theta T K i)
              (ll_event t c mu A theta T K) (n - 1) 1
              (first_result t c mu theta T K))
    as (s' & E & I).
  - reflexivity.
  - intros i s0 Hi ->.
    exists (event_result t c mu A theta T K i (pass_result t c mu A theta T K i)).
    split.
    + apply ll_event_Ret; [lia | apply pass_result_wf; lia].
    + now rewrite pass_result_S by lia.
  - rewrite E, I. now replace (1 + (n - 1)) with n by lia.
Qed.

End EventLemmas.

(** ** The whole call on arrays that fit together *)

Section CallLemmas.

Variables (t : list double) (c : list Z) (mu : list double)
          (A : list (list double)) (theta T : double).

Hypothesis Hshape : shapes_agree t c mu A.
Hypothesis Hall : all_marks_occur c mu.

Lemma ll_pass_upto_Ret (n : nat) :
  1 <= n <= length t ->
  ll_pass_upto t c mu A theta T n
  = Ret (pass_result t c mu A theta T (length mu) n).
Proof.
  intros Hn. destruct Hshape as (Hlen & HN & Hc & HA).
  pose proof Hall as HK. unfold all_marks_occur in HK.
  unfold ll_pass_upto, ll_K. rewrite HK.
  rewrite (ll_first_Ret t c mu theta T (length mu)) by (auto; lia).
  cbn [bind].
  apply for_range_events; auto.
Qed.

Lemma ll_pass_Ret :
  ll_pass t c mu A theta T
  = Ret (pass_result t c mu A theta T (length mu) (length t)).
Proof.
  unfold ll_pass. apply ll_pass_upto_Ret.
  destruct Hshape as (_ & HN & _). lia.
Qed.

Lemma pass_wf (n : nat) :
  ll_wf (length mu) (pass_result t c mu A theta T (length mu) n).
Proof.
  destruct Hshape as (Hlen & HN & _). apply pass_result_wf; auto.
Qed.

Lemma T_dot_Ret (Fv : list double) :
  length Fv = length mu ->
  Np.T_dot A Fv = Ret (map (fun col => Np.inner col Fv) (Np.transpose A)).
Proof.
  intros HF. destruct Hshape as (_ & _ & _ & HA0 & _).
  unfold Np.T_dot, Np.shape0.
  rewrite HA0, HF, Nat.eqb_refl. reflexivity.
Qed.

Lemma mv_exp_ll_Ret :
  let s := pass_result t c mu A theta T (length mu) (length t) in
  mv_exp_ll t c mu A theta T
  = Ret (sub (add (lJ s) (neg (Np.sum (Np.scale mu T))))
             (Np.sum (map (fun col => Np.inner col (F s)) (Np.transpose A)))).
Proof.
  intros s. unfold mv_exp_ll. rewrite ll_pass_Ret. cbn [bind].
  unfold ll_return. fold s.
  rewrite T_dot_Ret by apply (pass_wf (length t)).
  reflexivity.
Qed.

End CallLemmas.

(** ** What the call does with inputs the specification calls invalid *)


Lemma lJ_event_result t c mu A theta T K i s :
  lJ (event_result t c mu A theta T K i s)
  = add (lJ s) (log (lda (event_result t c mu A theta T K i s))).
Proof. reflexivity. Qed.

Lemma log_undefined_add_r (a b : double) :
  log_undefined b -> log_undefined (add a b).
Proof. rewrite add_comm. apply log_undefined_add. Qed.

Lemma lJ_undefined_later t c mu A theta T K (n m : nat) :
  1 <= n <= m ->
  log_undefined (lJ (pass_result t c mu A theta T K n)) ->
  log_undefined (lJ (pass_result t c mu A theta T K m)).
Proof.
  intros [Hn Hnm] H. induction Hnm as [| m Hnm IH]; [assumption |].
  rewrite pass_result_S by lia. rewrite lJ_event_result.
  now apply log_undefined_add.
Qed.

(** C1 (code defect).  The number of processes the code works with is the
    number of distinct marks, not [len(mu)]: for two events of process 0 of
    a two-process model, [K] is 1, the arrays [phi], [d], [ed], [F] have one
    cell, and the call ends in numpy's ValueError at the last line, where
    [A.T] of shape (2, 2) meets [F] of shape (1,). *)
Theorem mv_exp_ll_K_counts_distinct_marks :
  let t := [Fin 0; Fin 1] in
  let c := [0; 0]%Z in
  let mu := [Fin 1; Fin 1] in
  let A := [[Fin 0; Fin 0]; [Fin 0; Fin 0]] in
  shapes_agree t c mu A /\
  ll_K c = 1 /\ length mu = 2 /\
  (exists s, ll_pass t c mu A (Fin 1) (Fin 2) = Ret s /\ ll_wf 1 s) /\
  mv_exp_ll t c mu A (Fin 1) (Fin 2) = Raise ValueError.
Proof.
  cbv zeta. split; [| split; [| split; [| split]]].
  - unfold shapes_agree, marks_in, square; simpl.
    repeat split; repeat constructor; lia.
  - reflexivity.
  - reflexivity.
  - eexists; split; [cbv [ll_pass ll_pass_upto ll_K]; run_code; reflexivity |].
    unfold ll_wf; simpl; auto.
  - cbv [mv_exp_ll ll_pass ll_pass_upto ll_K]; run_code; reflexivity.
Qed.

(** C5 (counterexample).  With [T = -1], negative and before the only event
    (at time 0), the call validates nothing and returns a value. *)
Lemma mv_exp_ll_invalid_input_returns :
  invalid_input [Fin 0] [0%Z] [Fin 1] [[Fin 0]] (Fin 1) (Fin (-1)) /\
  returns_value (mv_exp_ll [Fin 0] [0%Z] [Fin 1] [[Fin 0]] (Fin 1) (Fin (-1))).
Proof.
  split.
  - unfold invalid_input. do 5 right. left.
    apply leb_Fin. lra.
  - unfold returns_value. eexists.
    cbv [mv_exp_ll ll_pass ll_pass_upto ll_K]; run_code; reflexivity.
Qed.

(** C5 (amended).  The call checks no value: whenever the arrays fit
    together and every process has an event, it returns a value, whatever
    the entries of [mu] and [A], [theta] and [T] are. *)
Theorem mv_exp_ll_validates_nothing
        (t : list double) (c : list Z) (mu : list double)
        (A : list (list double)) (theta T : double) :
  shapes_agree t c mu A -> all_marks_occur c mu ->
  returns_value (mv_exp_ll t c mu A theta T).
Proof.
  intros Hshape Hall. unfold returns_value.
  eexists. apply mv_exp_ll_Ret; assumption.
Qed.

Lemma mv_exp_ll_validates_nothing_witness :
  shapes_agree [Fin 0; Fin (-3)] [0%Z; 1%Z] [Fin (-1); Fin 2]
               [[Fin (-1); Fin 0]; [Fin 0; Fin 0]] /\
  all_marks_occur [0%Z; 1%Z] [Fin (-1); Fin 2] /\
  returns_value (mv_exp_ll [Fin 0; Fin (-3)] [0%Z; 1%Z] [Fin (-1); Fin 2]
                           [[Fin (-1); Fin 0]; [Fin 0; Fin 0]] (Fin (-1)) (Fin (-5))).
Proof.
  assert (Hs : shapes_agree [Fin 0; Fin (-3)] [0%Z; 1%Z] [Fin (-1); Fin 2]
                            [[Fin (-1); Fin 0]; [Fin 0; Fin 0]]).
  { unfold shapes_agree, marks_in, square; simpl.
    repeat split; repeat constructor; lia. }
  assert (Ha : all_marks_occur [0%Z; 1%Z] [Fin (-1); Fin 2]) by reflexivity.
  split; [exact Hs | split; [exact Ha |]].
  apply (mv_exp_ll_validates_nothing _ _ _ _ (Fin (-1)) (Fin (-5)) Hs Ha).
Defined.

(** C6 (counterexample).  With [mu = [0]] the logarithm at the first event
    is taken at 0: the call returns, and its value is [-inf]. *)
Lemma mv_exp_ll_log_of_zero_returns :
  nth (mark [0%Z] 0) [Fin 0] NaN = Fin 0 /\
  mv_exp_ll [Fin 0] [0%Z] [Fin 0] [[Fin 0]] (Fin 1) (Fin 1) = Ret NInf.
Proof.
  split; [reflexivity |].
  cbv [mv_exp_ll ll_pass ll_pass_upto ll_K]; run_code; reflexivity.
Qed.

(** C6 (amended).  No error is signalled for an intensity that is not
    positive: when the background rate at the first event, or the intensity
    [lda] computed at a later event, is zero or negative, the call still
    returns, and the value it returns is [-inf] or NaN. *)
Theorem mv_exp_ll_nonpositive_intensity_not_signalled
        (t : list double) (c : list Z) (mu : list double)
        (A : list (list double)) (theta T : double) :
  shapes_agree t c mu A -> all_marks_occur c mu ->
  (exists x, nth (mark c 0) mu NaN = Fin x /\ (x <= 0)%R) \/
  (exists i s x, 1 <= i < length t /\
                 ll_pass_upto t c mu A theta T (S i) = Ret s /\
                 lda s = Fin x /\ (x <= 0)%R) ->
  exists v, mv_exp_ll t c mu A theta T = Ret v /\ log_undefined v.
Proof.
  intros Hshape Hall Hbad.
  eexists; split; [apply mv_exp_ll_Ret; assumption |].
  apply log_undefined_sub, log_undefined_add.
  assert (HN : 1 <= length t) by (destruct Hshape as (_ & HN & _); exact HN).
  destruct Hbad as [(x & Hx & Hle) | (i & s & x & Hi & Hs & Hx & Hle)].
  - apply (lJ_undefined_later _ _ _ _ _ _ _ 1); [lia |].
    unfold pass_result; cbn [Nat.sub seq fold_left first_result lJ].
    rewrite Hx. now apply log_nonpositive.
  - rewrite ll_pass_upto_Ret in Hs by (assumption || lia).
    injection Hs as Hs.
    apply (lJ_undefined_later _ _ _ _ _ _ _ (S i)); [lia |].
    rewrite Hs. rewrite pass_result_S in Hs by lia.
    rewrite <- Hs at 1. rewrite lJ_event_result. rewrite Hs, Hx.
    apply log_undefined_add_r. now apply log_nonpositive.
Qed.

Lemma mv_exp_ll_nonpositive_intensity_witness :
  exists v, mv_exp_ll [Fin 0; Fin 1] [0%Z; 0%Z] [Fin (-1)] [[Fin 0]] (Fin 1) (Fin 2) = Ret v
            /\ log_undefined v.
Proof.
  apply mv_exp_ll_nonpositive_intensity_not_signalled.
  - unfold shapes_agree, marks_in, square; simpl.
    repeat split; repeat constructor; lia.
  - reflexivity.
  - left. exists (-1)%R. split; [reflexivity | lra].
Defined.

(** ** One process without excitation *)

Lemma mul_INR_succ (n : nat) (L : double) :
  1 <= n -> add (mul (Fin (INR n)) L) L = mul (Fin (INR (S n))) L.
Proof.
  intros Hn.
  assert (H0 : (0 < INR n)%R) by (apply lt_0_INR; lia).
  assert (H1 : (0 < INR (S n))%R) by (apply lt_0_INR; lia).
  destruct L as [l | | |]; cbn [mul]; unfold scale_inf.
  - cbn [add]. f_equal. rewrite S_INR. ring.
  - now rewrite !Rsgn_gt by assumption.
  - now rewrite !Rsgn_gt by assumption.
  - reflexivity.
Qed.

Lemma mul_INR_1 (L : double) : mul (Fin (INR 1)) L = L.
Proof.
  destruct L as [l | | |]; cbn [mul INR]; unfold scale_inf; sgn;
    try reflexivity.
  f_equal; ring.
Qed.

Lemma unique_all_zero (c : list Z) :
  c <> [] -> Forall (fun z => z = 0%Z) c -> Np.unique c = [0%Z].
Proof.
  unfold Np.unique.
  induction c as [| z c IH]; intros Hne Hall; [congruence |].
  inversion Hall as [| z' c' Hz Hc]; subst.
  destruct c as [| z c].
  - reflexivity.
  - cbn [nodup].
    destruct (in_dec Z.eq_dec 0%Z (z :: c)) as [Hin | Hnin].
    + apply IH; [discriminate | assumption].
    + exfalso. apply Hnin. inversion Hc; subst. now left.
Qed.

Lemma nth_all_zero (c : list Z) (i : nat) :
  Forall (fun z => z = 0%Z) c -> nth i c 0%Z = 0%Z.
Proof.
  intros Hall. destruct (Nat.lt_ge_cases i (length c)) as [H | H].
  - rewrite Forall_forall in Hall. apply Hall, nth_In, H.
  - now apply nth_overflow.
Qed.

Lemma time_finite (t : list double) (i : nat) :
  Forall is_finite t -> i < length t -> exists x, time t i = Fin x.
Proof.
  intros Hfin Hi. rewrite Forall_forall in Hfin.
  apply (Hfin (nth i t NaN)), nth_In, Hi.
Qed.

Section Univariate.

Variables (t : list double) (c : list Z) (m th Tr : R).

Hypothesis HN : 1 <= length t.
Hypothesis Hlen : length c = length t.
Hypothesis Hzero : Forall (fun z => z = 0%Z) c.
Hypothesis Hfin : Forall is_finite t.

Let mu := [Fin m].
Let A := [[Fin 0%R]].


Lemma univariate_first :
  univariate_inv m 1 (first_result t c mu (Fin th) (Fin Tr) 1).
Proof using HN Hzero Hfin.
  clear Hlen.
  destruct (time_finite t 0 Hfin ltac:(lia)) as (x & Hx).
  unfold univariate_inv, first_result, mark.
  rewrite mul_INR_1.
  rewrite nth_all_zero by assumption.
  cbn [Z.to_nat Np.zeros repeat Np.upd phi d F lJ nth mu].
  rewrite Hx. unfold comp_inc. cbn [neg sub mul exp add].
  eauto 8.
Qed.

Lemma univariate_event (i : nat) (s : ll_state) :
  1 <= i < length t ->
  univariate_inv m i s ->
  univariate_inv m (S i) (event_result t c mu A (Fin th) (Fin Tr) 1 i s).
Proof using Hzero Hfin.
  clear HN Hlen.
  intros Hi ((p & Hp) & (x & Hd) & (f & HF) & HlJ).
  destruct (time_finite t i Hfin ltac:(lia)) as (ti & Hti).
  destruct (time_finite t (i - 1) Hfin ltac:(lia)) as (tp & Htp).
  unfold univariate_inv, event_result, mark.
  rewrite <- (mul_INR_succ i) by lia. rewrite <- HlJ.
  rewrite nth_all_zero by assumption.
  rewrite Hp, Hd, HF, Hti, Htp.
  unfold advance_d, decay, bump, dot_step, comp_inc, entry.
  cbn [Z.to_nat map combine fst snd seq fold_left nth Np.upd
       phi d F lJ A mu neg sub mul exp add].
  repeat split; eauto.
  match goal with
  | |- context [log (Fin ?e)] => replace e with m by ring
  end.
  reflexivity.
Qed.

Lemma univariate_pass (n : nat) :
  1 <= n <= length t ->
  univariate_inv m n (pass_result t c mu A (Fin th) (Fin Tr) 1 n).
Proof using HN Hzero Hfin.
  clear Hlen.
  intros [Hn Hle]. induction n as [| n IH]; [lia |].
  destruct n as [| n].
  - apply univariate_first.
  - rewrite pass_result_S by lia.
    apply univariate_event; [lia | apply IH; lia].
Qed.

End Univariate.

(** C7.  For one process and [A = [[0]]], the call returns the Poisson
    log-likelihood [N * log(mu) - mu * T], for every sequence of [N >= 1]
    finite times (sorted or not) and every finite [mu], [theta], [T]; for
    [mu > 0] this is the real number [N * ln mu - mu * T]. *)
Theorem mv_exp_ll_univariate_poisson
        (t : list double) (c : list Z) (m th Tr : R) :
  1 <= length t -> length c = length t ->
  Forall (fun z => z = 0%Z) c -> Forall is_finite t ->
  mv_exp_ll t c [Fin m] [[Fin 0%R]] (Fin th) (Fin Tr)
  = Ret (sub (mul (Fin (INR (length t))) (log (Fin m))) (mul (Fin m) (Fin Tr)))
  /\ ((0 < m)%R ->
      mv_exp_ll t c [Fin m] [[Fin 0%R]] (Fin th) (Fin Tr)
      = Ret (Fin (INR (length t) * ln m - m * Tr)%R)).
Proof.
  intros HN Hlen Hzero Hfin.
  assert (Hshape : shapes_agree t c [Fin m] [[Fin 0%R]]).
  { unfold shapes_agree, marks_in, square. repeat split; auto.
    eapply Forall_impl; [| exact Hzero]. intros z ->. simpl. lia. }
  assert (Hall : all_marks_occur c [Fin m]).
  { unfold all_marks_occur. rewrite unique_all_zero; auto.
    intros ->. simpl in Hlen. lia. }
  assert (Hmain : mv_exp_ll t c [Fin m] [[Fin 0%R]] (Fin th) (Fin Tr)
                  = Ret (sub (mul (Fin (INR (length t))) (log (Fin m)))
                             (mul (Fin m) (Fin Tr)))).
  { rewrite (mv_exp_ll_Ret _ _ _ _ _ _ Hshape Hall). cbv zeta.
    destruct (univariate_pass t c m th Tr HN Hzero Hfin (length t) ltac:(lia))
      as (_ & _ & (f & HF) & HlJ).
    cbn [length] in *. rewrite HF, HlJ.
    generalize (mul (Fin (INR (length t))) (log (Fin m))) as L. intros L.
    unfold Np.scale, Np.transpose, Np.shape1, Np.inner, Np.sum.
    cbn [hd length seq map combine fst snd fold_left nth mul add neg].
    f_equal. unfold sub.
    destruct L as [l | | |]; cbn [neg add]; try reflexivity.
    f_equal. ring. }
  split; [exact Hmain |].
  intros Hm. rewrite Hmain. cbn [log mul].
  rewrite Rsgn_gt by assumption. cbn [mul sub neg add].
  f_equal.
Qed.

Lemma mv_exp_ll_univariate_poisson_witness :
  mv_exp_ll [Fin 0; Fin 1; Fin 3] [0%Z; 0%Z; 0%Z] [Fin 2] [[Fin 0%R]] (Fin 1) (Fin 4)
  = Ret (Fin (INR 3 * ln 2 - 2 * 4)%R).
Proof.
  apply (mv_exp_ll_univariate_poisson [Fin 0; Fin 1; Fin 3] [0%Z; 0%Z; 0%Z] 2 1 4);
    try (simpl; lia); try lra.
  - repeat constructor.
  - repeat constructor; eexists; reflexivity.
Defined.

(** ** The compensator and the returned value *)

Lemma upd_map_seq {X : Type} (f : nat -> X) (v : X) :
  forall (n lo j : nat),
    Np.upd (map f (seq lo n)) j v
    = map (fun k => if k =? lo + j then v else f k) (seq lo n).
Proof.
  induction n as [| n IH]; intros lo j; [reflexivity |].
  destruct j as [| j]; cbn [seq map Np.upd].
  - rewrite Nat.add_0_r, Nat.eqb_refl. f_equal.
    apply map_ext_in. intros k Hk. apply in_seq in Hk.
    destruct (Nat.eqb_spec k lo); [lia | reflexivity].
  - destruct (Nat.eqb_spec lo (lo + S j)); [lia |].
    f_equal. rewrite IH. apply map_ext. intros k.
    now replace (S lo + j) with (lo + S j) by lia.
Qed.

Lemma zeros_map_seq (n : nat) : Np.zeros n = map (fun _ => Fin 0%R) (seq 0 n).
Proof.
  unfold Np.zeros. generalize 0 as lo.
  induction n as [| n IH]; intros lo; simpl; [reflexivity | now rewrite <- IH].
Qed.

Lemma comp_of_S t c theta T (n k : nat) :
  comp_of t c theta T (S n) k
  = if mark c n =? k
    then add (comp_of t c theta T n k) (comp_inc theta T (time t n))
    else comp_of t c theta T n k.
Proof.
  unfold comp_of. replace (S n) with (n + 1) by lia.
  rewrite seq_app, fold_left_app. reflexivity.
Qed.

Lemma F_pass_result t c mu A theta T K (n : nat) :
  length mu = K -> marks_in c K -> length c = length t ->
  1 <= n <= length t ->
  F (pass_result t c mu A theta T K n) = map (comp_of t c theta T n) (seq 0 K).
Proof.
  intros Hmu Hc Hlen [Hn Hle].
  induction n as [| n IH]; [lia |].
  destruct n as [| n].
  - unfold pass_result; cbn [Nat.sub seq fold_left first_result F].
    rewrite zeros_map_seq, upd_map_seq. apply map_ext. intros k.
    rewrite comp_of_S. cbn [Nat.add comp_of seq fold_left].
    rewrite (Nat.eqb_sym k). reflexivity.
  - rewrite pass_result_S by lia.
    unfold event_result at 1; cbn [F].
    rewrite IH by lia.
    pose proof (mark_lt t c K Hc Hlen (S n) ltac:(lia)) as Hlt.
    rewrite upd_map_seq. apply map_ext_in. intros k Hk.
    rewrite (comp_of_S _ _ _ _ (S n)). cbn [Nat.add].
    rewrite (Nat.eqb_sym k).
    destruct (Nat.eqb_spec (mark c (S n)) k) as [E | E]; [| reflexivity].
    rewrite (nth_indep _ NaN (comp_of t c theta T (S n) 0))
      by (rewrite length_map, length_seq; lia).
    rewrite map_nth, seq_nth by lia. cbn [Nat.add]. now rewrite E.
Qed.

Lemma fold_add_map {X : Type} (g : X -> double) (l : list X) (a : double) :
  fold_left add (map g l) a = fold_left (fun acc x => add acc (g x)) l a.
Proof.
  revert a; induction l as [| x l IH]; intros a; simpl; auto.
Qed.

Lemma fold_left_over_map {X Y Z0 : Type} (f : Z0 -> Y -> Z0) (g : X -> Y)
      (l : list X) (a : Z0) :
  fold_left f (map g l) a = fold_left (fun acc x => f acc (g x)) l a.
Proof.
  revert a; induction l as [| x l IH]; intros a; simpl; auto.
Qed.

Lemma fold_left_ext_in {X Y : Type} (f g : Y -> X -> Y) (l : list X) (a : Y) :
  (forall acc x, In x l -> f acc x = g acc x) ->
  fold_left f l a = fold_left g l a.
Proof.
  revert a; induction l as [| x l IH]; intros a H; simpl; [reflexivity |].
  rewrite H by now left. apply IH. intros acc y Hy. apply H. now right.
Qed.

Lemma combine_map_seq {X Y Z0 : Type} (h : X -> Y -> Z0) (xs : list X) (ys : list Y)
      (dx : X) (dy : Y) :
  length xs = length ys ->
  map (fun p => h (fst p) (snd p)) (combine xs ys)
  = map (fun j => h (nth j xs dx) (nth j ys dy)) (seq 0 (length xs)).
Proof.
  revert ys; induction xs as [| x xs IH]; intros [| y ys] H; simpl in *;
    try reflexivity; try discriminate.
  f_equal. rewrite IH by lia. rewrite <- seq_shift, map_map. reflexivity.
Qed.

(** [np.sum(A.T.dot(F))] written with indices. *)
Lemma sum_T_dot (A : list (list double)) (Fv : list double) (K : nat) :
  square A K -> length Fv = K ->
  Np.sum (map (fun col => Np.inner col Fv) (Np.transpose A))
  = excitation_by_source A Fv.
Proof.
  intros [HA Hrows] HF.
  unfold Np.sum, Np.transpose, excitation_by_source.
  rewrite map_map, fold_add_map.
  apply fold_left_ext_in. intros acc k Hk. f_equal.
  apply in_seq in Hk. unfold Np.inner, Np.sum.
  rewrite (combine_map_seq mul _ _ (Fin 0%R) NaN)
    by (rewrite length_map; lia).
  rewrite length_map, fold_add_map.
  apply fold_left_ext_in. intros acc' j Hj. f_equal. f_equal.
  apply in_seq in Hj. unfold entry.
  rewrite (nth_indep _ (Fin 0%R) (nth k [] (Fin 0%R)))
    by (rewrite length_map; lia).
  rewrite (map_nth (fun row => nth k row (Fin 0%R)) A []).
  apply nth_indep.
  rewrite Forall_forall in Hrows.
  assert (Hj' : length (nth j A []) = K) by (apply Hrows, nth_In; lia).
  unfold Np.shape1 in Hk. destruct A as [| row0 A']; [simpl in Hk; lia |].
  cbn [hd] in Hk. rewrite (Hrows row0) in Hk by now left. lia.
Qed.

Lemma map_nth_seq_id {X : Type} (l : list X) (dflt : X) :
  map (fun i => nth i l dflt) (seq 0 (length l)) = l.
Proof.
  induction l as [| x l IH]; simpl; [reflexivity |].
  f_equal. rewrite <- seq_shift, map_map. exact IH.
Qed.


Lemma sum_scale (mu : list double) (T : double) :
  Np.sum (Np.scale mu T) = background_sum mu T.
Proof.
  unfold Np.sum, Np.scale, background_sum.
  rewrite fold_add_map.
  rewrite <- (map_nth_seq_id mu NaN) at 1.
  now rewrite fold_left_over_map.
Qed.

(** C3 (counterexample).  With [A = [[0, 1], [0, 0]]] (process 0 excites
    process 1) the value returned is not the running total minus
    [sum(mu * T)] minus [sum over j, k of A[j, k] * F[k]]. *)
Lemma mv_exp_ll_return_not_by_target :
  let t := [Fin 0; Fin 1] in
  let c := [0; 1]%Z in
  let mu := [Fin 1; Fin 1] in
  let A := [[Fin 0; Fin 1]; [Fin 0; Fin 0]] in
  exists s v,
    ll_pass t c mu A (Fin 1) (Fin 2) = Ret s /\
    mv_exp_ll t c mu A (Fin 1) (Fin 2) = Ret v /\
    v <> sub (sub (lJ s) (background_sum mu (Fin 2))) (excitation_by_target A (F s)).
Proof.
  cbv zeta. eexists. eexists. split; [| split].
  - cbv [ll_pass ll_pass_upto ll_K]. run_code.
    match goal with
    | |- context [Rsgn ?e] =>
        assert (Hpos : (0 < e)%R)
          by (pose proof (exp_pos (- (1) * (0 + (1 + - 0)))); nra)
    end.
    rewrite (Rsgn_gt _ Hpos). run_code. reflexivity.
  - cbv [mv_exp_ll ll_pass ll_pass_upto ll_K]. run_code.
    match goal with
    | |- context [Rsgn ?e] =>
        assert (Hpos : (0 < e)%R)
          by (pose proof (exp_pos (- (1) * (0 + (1 + - 0)))); nra)
    end.
    rewrite (Rsgn_gt _ Hpos). run_code. reflexivity.
  - cbv [background_sum excitation_by_target entry]. run_code.
    intros H. injection H as H.
    assert (Hlt : (Rtrigo_def.exp (- (1) * (2 + - 0))
                   < Rtrigo_def.exp (- (1) * (2 + - (1))))%R)
      by (apply exp_increasing; lra).
    lra.
Qed.

(** C3 (amended).  When the arrays fit together and every process has an
    event, the pass ends with [F[j]] the sum, over the events of process
    [j], of [1 - exp(-theta * (T - t_i))], and the call returns the running
    total minus [sum over k of mu[k] * T] minus
    [sum over k, j of A[j, k] * F[j]]: [F] is taken at the row of [A]. *)
Theorem mv_exp_ll_return_value
        (t : list double) (c : list Z) (mu : list double)
        (A : list (list double)) (theta T : double) :
  shapes_agree t c mu A -> all_marks_occur c mu ->
  exists s,
    ll_pass t c mu A theta T = Ret s /\
    F s = map (comp_of t c theta T (length t)) (seq 0 (length mu)) /\
    mv_exp_ll t c mu A theta T
    = Ret (sub (sub (lJ s) (background_sum mu T)) (excitation_by_source A (F s))).
Proof.
  intros Hshape Hall.
  exists (pass_result t c mu A theta T (length mu) (length t)).
  pose proof Hshape as (Hlen & HN & Hc & HA).
  split; [now apply ll_pass_Ret | split].
  - apply F_pass_result; auto.
  - rewrite (mv_exp_ll_Ret _ _ _ _ _ _ Hshape Hall). cbv zeta.
    rewrite (sum_T_dot A _ (length mu) HA)
      by apply (pass_wf t c mu A theta T Hshape (length t)).
    rewrite sum_scale. reflexivity.
Qed.

Lemma mv_exp_ll_return_value_witness :
  exists s,
    ll_pass [Fin 0; Fin 1] [0%Z; 1%Z] [Fin 1; Fin 1]
            [[Fin 0; Fin 1]; [Fin 0; Fin 0]] (Fin 1) (Fin 2) = Ret s /\
    F s = map (comp_of [Fin 0; Fin 1] [0%Z; 1%Z] (Fin 1) (Fin 2) 2) (seq 0 2) /\
    mv_exp_ll [Fin 0; Fin 1] [0%Z; 1%Z] [Fin 1; Fin 1]
              [[Fin 0; Fin 1]; [Fin 0; Fin 0]] (Fin 1) (Fin 2)
    = Ret (sub (sub (lJ s) (background_sum [Fin 1; Fin 1] (Fin 2)))
               (excitation_by_source [[Fin 0; Fin 1]; [Fin 0; Fin 0]] (F s))).
Proof.
  apply (mv_exp_ll_return_value [Fin 0; Fin 1] [0%Z; 1%Z] [Fin 1; Fin 1]
                                [[Fin 0; Fin 1]; [Fin 0; Fin 0]] (Fin 1) (Fin 2)).
  - unfold shapes_agree, marks_in, square; simpl.
    repeat split; repeat constructor; lia.
  - reflexivity.
Defined.

(** ** The pass against the recursion of the specification *)


Lemma first_result_same t c mu theta T :
  same_state (first_result t c mu theta T (length mu)) (rec_first t c mu theta T).
Proof. repeat split. Qed.

Lemma event_result_same t c mu A theta T (i : nat) (s : ll_state) (r : rec_state) :
  same_state s r ->
  same_state (event_result t c mu A theta T (length mu) i s)
             (rec_event t c mu A theta T r i).
Proof.
  intros (Hphi & Hd & HF & HlJ).
  unfold same_state, event_result, rec_event; cbn [phi d F lJ r_phi r_d r_F r_total].
  rewrite Hphi, Hd, HF, HlJ. repeat split.
Qed.

Lemma pass_result_same t c mu A theta T (n : nat) :
  same_state (pass_result t c mu A theta T (length mu) n)
             (fold_left (rec_event t c mu A theta T) (seq 1 (n - 1))
                        (rec_first t c mu theta T)).
Proof.
  unfold pass_result. generalize (seq 1 (n - 1)) as l.
  generalize (first_result_same t c mu theta T).
  generalize (first_result t c mu theta T (length mu)) as s.
  generalize (rec_first t c mu theta T) as r.
  intros r s H l. revert r s H.
  induction l as [| i l IH]; intros r s H; cbn [fold_left]; [exact H |].
  apply IH. now apply event_result_same.
Qed.

(** When the arrays fit together and every process has an event, the pass
    of the code ends in the state of the recursion of the specification. *)
Lemma ll_pass_refines_recursion
      (t : list double) (c : list Z) (mu : list double)
      (A : list (list double)) (theta T : double) :
  shapes_agree t c mu A -> all_marks_occur c mu ->
  exists s, ll_pass t c mu A theta T = Ret s /\
            same_state s (rec_pass t c mu A theta T).
Proof.
  intros Hshape Hall.
  exists (pass_result t c mu A theta T (length mu) (length t)).
  split; [now apply ll_pass_Ret | apply pass_result_same].
Qed.

Ltac pose_exp_pos :=
  repeat match goal with
  | |- context [Rtrigo_def.exp ?x] =>
      lazymatch goal with
      | _ : (0 < Rtrigo_def.exp x)%R |- _ => fail
      | _ => pose proof (exp_pos x)
      end
  end.

(** Settles a sign test on an expression that is positive because the
    exponentials in it are. *)
Ltac sgn_exp :=
  match goal with
  | |- context [Rsgn ?e] =>
      let H := fresh "Hpos" in
      assert (H : (0 < e)%R) by (pose_exp_pos; nra);
      rewrite (Rsgn_gt _ H); clear H
  end.

Ltac run_code_exp := repeat (run_code; try sgn_exp).

Ltac norm_exp :=
  repeat match goal with
  | |- context [Rtrigo_def.exp ?x] =>
      progress (first [ replace x with (-1)%R by lra
                      | replace x with (-2)%R by lra
                      | replace x with (-3)%R by lra ])
  end.

Ltac norm_ln :=
  repeat match goal with
  | |- context [ln ?x] => progress (ring_simplify x)
  end.

(** C2 (code defect, the one of C1).  For two events of process 1 of a
    two-process model the code has [K = 1]: its arrays have one cell, the
    loop over the processes covers process 0 only, and the accesses
    [F[c[0]]] and [d[c[0]]] of lines 54 and 56 fall outside the arrays, where
    bounds are not checked.  The recursion of the specification runs over
    both processes and gives the running total [log 1 + log(1 + exp(-1))]. *)
Theorem mv_exp_ll_pass_misses_processes :
  let t := [Fin 0; Fin 1] in
  let c := [1; 1]%Z in
  let mu := [Fin 1; Fin 1] in
  let A := [[Fin 0; Fin 0]; [Fin 0; Fin 1]] in
  shapes_agree t c mu A /\
  ll_K c = 1 /\ rec_K mu = 2 /\
  ll_pass t c mu A (Fin 1) (Fin 2) = Undefined /\
  mv_exp_ll t c mu A (Fin 1) (Fin 2) = Undefined /\
  r_total (rec_pass t c mu A (Fin 1) (Fin 2)) = Fin (ln (1 + Rtrigo_def.exp (-1))).
Proof.
  cbv zeta. split; [| split; [| split; [| split; [| split]]]].
  - unfold shapes_agree, marks_in, square; simpl.
    repeat split; repeat constructor; lia.
  - reflexivity.
  - reflexivity.
  - cbv [ll_pass ll_pass_upto ll_K]; run_code; reflexivity.
  - cbv [mv_exp_ll ll_pass ll_pass_upto ll_K]; run_code; reflexivity.
  - cbv [rec_pass rec_first rec_event rec_K mark time entry comp_inc].
    run_code_exp. f_equal. norm_exp. rewrite ln_1. norm_ln. ring.
Qed.

(** ** The pass against the direct evaluation *)

(** C4 (code defect).  Process 0 fires at time 0 and process 1 at times 1
    and 2; process 0 excites process 1.  At the third event the code has
    [phi[0] = exp(-2) * (1 + exp(-1))]: the update of line 66 added 1 to
    [phi[0]] again at the second event, where process 0 did not fire.  The
    sum over the earlier events gives [exp(-2)].  The two log-likelihoods
    differ, on an input in which every process has an event. *)
Theorem mv_exp_ll_differs_from_direct_evaluation :
  let t := [Fin 0; Fin 1; Fin 2] in
  let c := [0; 1; 1]%Z in
  let mu := [Fin 1; Fin 1] in
  let A := [[Fin 0; Fin 1]; [Fin 0; Fin 0]] in
  let e1 := Rtrigo_def.exp (-1) in
  let e2 := Rtrigo_def.exp (-2) in
  let e3 := Rtrigo_def.exp (-3) in
  shapes_agree t c mu A /\ all_marks_occur c mu /\
  mv_exp_ll t c mu A (Fin 1) (Fin 3)
  = Ret (Fin (ln (1 + e1) + ln (1 + e2 * (1 + e1)) - 6 - (1 - e3))) /\
  bf_ll t c mu A (Fin 1) (Fin 3)
  = Fin (ln (1 + e1) + ln (1 + e2) - 6 - (1 - e3)) /\
  mv_exp_ll t c mu A (Fin 1) (Fin 3) <> Ret (bf_ll t c mu A (Fin 1) (Fin 3)).
Proof.
  cbv zeta.
  assert (Hcode :
    mv_exp_ll [Fin 0; Fin 1; Fin 2] [0; 1; 1]%Z [Fin 1; Fin 1]
              [[Fin 0; Fin 1]; [Fin 0; Fin 0]] (Fin 1) (Fin 3)
    = Ret (Fin (ln (1 + Rtrigo_def.exp (-1))
                + ln (1 + Rtrigo_def.exp (-2) * (1 + Rtrigo_def.exp (-1)))
                - 6 - (1 - Rtrigo_def.exp (-3))))).
  { cbv [mv_exp_ll ll_pass ll_pass_upto ll_K]. run_code_exp.
    do 2 f_equal. norm_exp. rewrite ln_1. norm_ln. ring. }
  assert (Hdirect :
    bf_ll [Fin 0; Fin 1; Fin 2] [0; 1; 1]%Z [Fin 1; Fin 1]
          [[Fin 0; Fin 1]; [Fin 0; Fin 0]] (Fin 1) (Fin 3)
    = Fin (ln (1 + Rtrigo_def.exp (-1)) + ln (1 + Rtrigo_def.exp (-2))
           - 6 - (1 - Rtrigo_def.exp (-3)))).
  { cbv [bf_ll bf_log_sum bf_compensator bf_intensity bf_history bf_excitation
         rec_K mark time entry comp_inc Np.sum Np.scale].
    run_code_exp. f_equal. norm_exp.
    replace (1 + 1 * 0)%R with 1%R by ring. rewrite ln_1. norm_ln. ring. }
  split; [| split; [| split; [| split]]].
  - unfold shapes_agree, marks_in, square; simpl.
    repeat split; repeat constructor; lia.
  - reflexivity.
  - exact Hcode.
  - exact Hdirect.
  - rewrite Hcode, Hdirect. intros H. injection H as H.
    pose proof (exp_pos (-1)) as H1. pose proof (exp_pos (-2)) as H2.
    assert (Hlt : (ln (1 + Rtrigo_def.exp (-2))
                   < ln (1 + Rtrigo_def.exp (-2) * (1 + Rtrigo_def.exp (-1))))%R)
      by (apply ln_increasing; nra).
    lra.
Qed.

(** ** The scripted source is a random source *)

Lemma script_rand_range (g : script) :
  (0 <= fst (script_rand g) <= script_RAND_MAX)%Z.
Proof.
  unfold script_rand, script_RAND_MAX.
  destruct (rand_script g) as [| z zs]; cbn [fst]; lia.
Qed.

Lemma script_sample_range (g : script) :
  (0 <= fst (script_sample g) < 1)%R.
Proof.
  unfold script_sample.
  destruct (sample_script g) as [| z zs]; cbn [fst]; [lra |].
  assert (Hpow : (0 < 2 ^ 53)%Z) by reflexivity.
  pose proof (Z.mod_pos_bound z (2 ^ 53) Hpow) as [Hlo Hhi].
  assert (Hd : (0 < IZR (2 ^ 53))%R) by (apply IZR_lt; exact Hpow).
  apply IZR_le in Hlo. apply IZR_lt in Hhi.
  split.
  - apply Rmult_le_pos; [exact Hlo | left; now apply Rinv_0_lt_compat].
  - apply (Rmult_lt_reg_r (IZR (2 ^ 53))); [exact Hd |].
    unfold Rdiv. rewrite Rmult_assoc, Rinv_l by lra. lra.
Qed.

Lemma script_poisson_defined (m : R) (g : script) :
  (0 <= m)%R -> exists n g', script_poisson (Fin m) g = Ret (n, g').
Proof.
  intros Hm. unfold script_poisson.
  destruct (Rle_dec 0 m) as [_ | Hn]; [| contradiction].
  destruct (script_count g) as [n g']. eauto.
Qed.

#[export] Instance scripted : RandomSource script := {|
  RAND_MAX := script_RAND_MAX;
  rand := script_rand;
  np_random_poisson := script_poisson;
  np_random_sample := script_sample;
  RAND_MAX_pos := eq_refl;
  rand_range := script_rand_range;
  sample_range := script_sample_range;
  poisson_defined := script_poisson_defined
|}.

(** ** The offspring sampler *)

Section OffspringLemmas.

Context {rng : Type} {RS : RandomSource rng}.

Lemma uu_range (g : rng) :
  exists u, fst (uu g) = Fin u /\ (0 <= u <= 1)%R.
Proof.
  unfold uu. pose proof (rand_range g) as [Hlo Hhi].
  destruct (rand g) as [r g']; cbn [fst] in *.
  pose proof RAND_MAX_pos as HM.
  assert (Hd : (0 < IZR RAND_MAX)%R) by (apply IZR_lt; exact HM).
  apply IZR_le in Hlo, Hhi.
  unfold of_Z; cbn [div]. rewrite Rsgn_gt by exact Hd.
  eexists; split; [reflexivity |].
  split.
  - apply Rmult_le_pos; [exact Hlo | left; now apply Rinv_0_lt_compat].
  - apply (Rmult_le_reg_r (IZR RAND_MAX)); [exact Hd |].
    unfold Rdiv. rewrite Rmult_assoc, Rinv_l by lra. lra.
Qed.

(** The loop of lines 98-101 appends the children of process [k]. *)
Lemma os_draw_loop (t theta : double) (k : nat) :
  forall (n lo : nat) (ts : list double) (cs : list Z) (g : rng),
    foldM (os_draw t theta k) (seq lo n) (mk_os ts cs g)
    = Ret (mk_os (ts ++ map fst (fst (children t theta k n g)))
                 (cs ++ map snd (fst (children t theta k n g)))
                 (snd (children t theta k n g))).
Proof.
  induction n as [| n IH]; intros lo ts cs g; cbn [seq foldM children].
  - cbn [fst snd map]. now rewrite !app_nil_r.
  - unfold os_draw at 1; cbn [os_gen tos cos].
    destruct (uu g) as [u g1]. cbn [bind].
    rewrite IH.
    destruct (children t theta k n g1) as [rest g2]; cbn [fst snd map].
    rewrite <- !app_assoc. cbn [app].
    unfold child_time. now rewrite (add_comm t).
Qed.

(** The loop of lines 96-101 appends the candidates, process by process. *)
Lemma os_process_loop (t theta : double) :
  forall (row pre : list double) (ts : list double) (cs : list Z) (g : rng),
    foldM (os_process t (pre ++ row) theta) (seq (length pre) (length row))
          (mk_os ts cs g)
    = ('(cands, g') <- candidates_from t theta (length pre) row g ;;
       Ret (mk_os (ts ++ map fst cands) (cs ++ map snd cands) g')).
Proof.
  induction row as [| a row IH]; intros pre ts cs g;
    cbn [length seq foldM candidates_from].
  - cbn [bind map]. now rewrite !app_nil_r.
  - unfold os_process at 1; cbn [os_gen tos cos].
    rewrite (geti_Ret (pre ++ a :: row) (length pre) NaN)
      by (rewrite length_app; simpl; lia).
    rewrite nth_app_mid. cbn [bind].
    destruct (np_random_poisson a g) as [[n g1] | e |]; cbn [bind]; try reflexivity.
    unfold for_range. rewrite Nat.sub_0_r, os_draw_loop.
    destruct (children t theta (length pre) n g1) as [ch g2]; cbn [fst snd bind].
    replace (pre ++ a :: row) with ((pre ++ [a]) ++ row) by (now rewrite <- app_assoc).
    replace (S (length pre)) with (length (pre ++ [a]))
      by (rewrite length_app; simpl; lia).
    rewrite IH.
    destruct (candidates_from t theta (length (pre ++ [a])) row g2)
      as [[rest g3] | e |]; cbn [bind]; try reflexivity.
    rewrite !map_app, !app_assoc. reflexivity.
Qed.

Lemma compress_map {X Y : Type} (p : X -> bool) (h : X -> Y) (l : list X) :
  compress (map p l) (map h l) = map h (filter p l).
Proof.
  induction l as [| x l IH]; cbn [map compress filter]; [reflexivity |].
  destruct (p x); cbn [map]; now rewrite IH.
Qed.

Lemma copy_out_id {X : Type} (dflt : X) (v : list X) : copy_out dflt v = v.
Proof. apply map_nth_seq_id. Qed.

(** The call in terms of the candidates and the survivors. *)
Lemma get_mv_offspring_eq (t : double) (Acp : list double) (theta T : double) (g : rng) :
  _get_mv_offspring t Acp theta T g
  = ('(cands, g') <- candidates t Acp theta g ;;
     Ret (map fst (survivors T cands), map snd (survivors T cands), g')).
Proof.
  unfold _get_mv_offspring, candidates, for_range.
  rewrite Nat.sub_0_r.
  pose proof (os_process_loop t theta Acp [] [] [] g) as Hloop.
  cbn [length app] in Hloop. rewrite Hloop; clear Hloop.
  destruct (candidates_from t theta 0 Acp g) as [[cands g'] | e |];
    cbn [bind]; try reflexivity.
  cbn [tos cos os_gen app]. rewrite !copy_out_id.
  unfold survivors. rewrite map_map.
  rewrite (compress_map (fun e => ltb (fst e) T) fst).
  rewrite (compress_map (fun e => ltb (fst e) T) snd).
  reflexivity.
Qed.

Lemma children_marks (t theta : double) (k : nat) :
  forall (n : nat) (g : rng),
    Forall (fun e => snd e = Z.of_nat k) (fst (children t theta k n g)).
Proof.
  induction n as [| n IH]; intros g; cbn [children]; [constructor |].
  destruct (uu g) as [u g1]. specialize (IH g1).
  destruct (children t theta k n g1) as [rest g2]; cbn [fst] in *.
  constructor; [reflexivity | exact IH].
Qed.

Lemma children_times (t theta : double) (k : nat) :
  forall (n : nat) (g : rng),
    Forall (fun e => exists u, (0 <= u <= 1)%R /\ fst e = child_time t theta (Fin u))
           (fst (children t theta k n g)).
Proof.
  induction n as [| n IH]; intros g; cbn [children]; [constructor |].
  destruct (uu_range g) as (u & Hu & Hr).
  destruct (uu g) as [u0 g1]; cbn [fst] in Hu; subst u0.
  specialize (IH g1).
  destruct (children t theta k n g1) as [rest g2]; cbn [fst] in *.
  constructor; [exists u; split; [exact Hr | reflexivity] | exact IH].
Qed.

(** Every candidate is a child of the parent, for a uniform draw in
    [[0, 1]], with a mark of the row. *)
Lemma candidates_from_spec (t theta : double) :
  forall (row : list double) (k0 : nat) (g : rng) cands g',
    candidates_from t theta k0 row g = Ret (cands, g') ->
    Forall (fun e => (exists u, (0 <= u <= 1)%R /\ fst e = child_time t theta (Fin u)) /\
                     (Z.of_nat k0 <= snd e < Z.of_nat (k0 + length row))%Z) cands.
Proof.
  induction row as [| a row IH]; intros k0 g cands g' H; cbn [candidates_from] in H.
  - injection H as <- <-. constructor.
  - destruct (np_random_poisson a g) as [[n g1] | e |]; cbn [bind] in H;
      try discriminate.
    pose proof (children_times t theta k0 n g1) as Ht.
    pose proof (children_marks t theta k0 n g1) as Hm.
    destruct (children t theta k0 n g1) as [ch g2]; cbn [fst] in *.
    destruct (candidates_from t theta (S k0) row g2) as [[rest g3] | e |] eqn:E;
      cbn [bind] in H; try discriminate.
    injection H as <- <-.
    apply Forall_app; split.
    + rewrite Forall_forall in *. intros e He. split; [now apply Ht |].
      rewrite (Hm e He). cbn [length]. lia.
    + specialize (IH _ _ _ _ E).
      eapply Forall_impl; [| exact IH].
      cbn beta. intros e [He1 He2]. split; [exact He1 |]. cbn [length]. lia.
Qed.

(** The call returns for a row of valid means. *)
Lemma candidates_from_defined (t theta : double) :
  forall (row : list double) (k0 : nat) (g : rng),
    Forall valid_mean row ->
    exists cands g', candidates_from t theta k0 row g = Ret (cands, g').
Proof.
  induction row as [| a row IH]; intros k0 g Hrow; cbn [candidates_from].
  - eauto.
  - inversion Hrow as [| a' row' (m & -> & Hm) Hrest]; subst.
    destruct (poisson_defined m g Hm) as (n & g1 & ->). cbn [bind].
    destruct (children t theta k0 n g1) as [ch g2].
    destruct (IH (S k0) g2 Hrest) as (rest & g3 & ->). cbn [bind]. eauto.
Qed.

End OffspringLemmas.

(** ** Children and their parent *)

Lemma child_time_at_one (tr th : R) :
  (0 < th)%R -> child_time (Fin tr) (Fin th) (Fin 1) = Fin tr.
Proof.
  intros Hth. unfold child_time. cbn [log]. rewrite Rsgn_gt by lra.
  cbn [neg div]. rewrite Rsgn_gt by exact Hth. cbn [add].
  f_equal. rewrite ln_1. field. lra.
Qed.

Lemma child_time_at_zero (t : double) (th : R) :
  (0 < th)%R -> child_time t (Fin th) (Fin 0) = add t PInf.
Proof.
  intros Hth. unfold child_time. cbn [log]. rewrite Rsgn_eq by reflexivity.
  cbn [neg div]. now rewrite Rsgn_gt by exact Hth.
Qed.

(** The offset [-ln(U) / theta] is [+inf] for [U = 0] and a real that is
    not negative otherwise. *)
Lemma child_time_cases (t : double) (th u : R) :
  (0 < th)%R -> (0 <= u <= 1)%R ->
  child_time t (Fin th) (Fin u) = add t PInf \/
  exists o, (0 <= o)%R /\ child_time t (Fin th) (Fin u) = add t (Fin o).
Proof.
  intros Hth [Hlo Hhi].
  destruct (Req_dec u 0) as [-> | Hne].
  - left. now apply child_time_at_zero.
  - right. assert (Hu : (0 < u)%R) by lra.
    assert (Hln : (ln u <= 0)%R).
    { destruct (Req_dec u 1) as [-> | Hne1]; [rewrite ln_1; lra |].
      left. rewrite <- ln_1. apply ln_increasing; lra. }
    exists (- ln u / th)%R. split.
    + apply Rmult_le_pos; [lra | left; now apply Rinv_0_lt_compat].
    + unfold child_time. cbn [log]. rewrite Rsgn_gt by exact Hu.
      cbn [neg div]. now rewrite Rsgn_gt by exact Hth.
Qed.

Lemma survivor_not_before_parent (t T : double) (th u : R) :
  (0 < th)%R -> (0 <= u <= 1)%R ->
  ltb (child_time t (Fin th) (Fin u)) T = true ->
  leb t (child_time t (Fin th) (Fin u)) = true.
Proof.
  intros Hth Hu Hlt.
  destruct (child_time_cases t th u Hth Hu) as [E | (o & Ho & E)];
    rewrite E in *.
  - destruct t, T; cbn [add ltb] in Hlt; discriminate.
  - destruct t as [tr | | |]; cbn [add] in *.
    + apply leb_Fin. lra.
    + destruct T; discriminate.
    + reflexivity.
    + destruct T; discriminate.
Qed.

Lemma survivor_in_window (tr Tr th u : R) :
  (0 < th)%R -> (0 <= u <= 1)%R -> (0 <= tr)%R ->
  ltb (child_time (Fin tr) (Fin th) (Fin u)) (Fin Tr) = true ->
  in_window Tr (child_time (Fin tr) (Fin th) (Fin u)).
Proof.
  intros Hth Hu Htr Hlt.
  destruct (child_time_cases (Fin tr) th u Hth Hu) as [E | (o & Ho & E)];
    rewrite E in *; cbn [add] in *.
  - discriminate.
  - apply ltb_Fin in Hlt. exists (tr + o)%R. split; [reflexivity | lra].
Qed.

Lemma uu_at_max {rng : Type} {RS : RandomSource rng} (g : rng) :
  fst (rand g) = RAND_MAX -> fst (uu g) = Fin 1.
Proof.
  intros H. unfold uu. destruct (rand g) as [r g']; cbn [fst] in *. subst r.
  pose proof RAND_MAX_pos as HM.
  assert (Hd : (0 < IZR RAND_MAX)%R) by (apply IZR_lt; exact HM).
  unfold of_Z; cbn [div]. rewrite Rsgn_gt by exact Hd.
  f_equal. field. lra.
Qed.

Lemma uu_at_zero {rng : Type} {RS : RandomSource rng} (g : rng) :
  fst (rand g) = 0%Z -> fst (uu g) = Fin 0.
Proof.
  intros H. unfold uu. destruct (rand g) as [r g']; cbn [fst] in *. subst r.
  pose proof RAND_MAX_pos as HM.
  assert (Hd : (0 < IZR RAND_MAX)%R) by (apply IZR_lt; exact HM).
  unfold of_Z; cbn [div]. rewrite Rsgn_gt by exact Hd.
  f_equal. field. lra.
Qed.

Lemma survivors_In (T : double) (cands : list (double * Z)) (e : double * Z) :
  In e (survivors T cands) <-> In e cands /\ ltb (fst e) T = true.
Proof. unfold survivors. apply filter_In. Qed.

(** C8.  The call returns exactly the candidates with [time < T], times and
    marks side by side: for each process [k] of the row, a Poisson number
    (of mean [Acp[k]]) of children at [parentTime + (-ln(U) / theta)] with
    mark [k].  It returns for every row of finite means that are not
    negative; every time it returns is below [T]; and it returns two empty
    arrays when no candidate is below [T]. *)
Theorem get_mv_offspring_survivors
        {rng : Type} {RS : RandomSource rng}
        (t : double) (Acp : list double) (theta T : double) (g : rng) :
  _get_mv_offspring t Acp theta T g
  = ('(cands, g') <- candidates t Acp theta g ;;
     Ret (map fst (survivors T cands), map snd (survivors T cands), g'))
  /\ (Forall valid_mean Acp ->
      exists cands g',
        candidates t Acp theta g = Ret (cands, g') /\
        _get_mv_offspring t Acp theta T g
        = Ret (map fst (survivors T cands), map snd (survivors T cands), g'))
  /\ (forall tres cres g',
        _get_mv_offspring t Acp theta T g = Ret (tres, cres, g') ->
        length tres = length cres /\
        Forall (fun x => ltb x T = true) tres /\
        Forall (fun k => (0 <= k < Z.of_nat (length Acp))%Z) cres)
  /\ (forall cands g',
        candidates t Acp theta g = Ret (cands, g') ->
        Forall (fun e => (exists u, (0 <= u <= 1)%R /\
                                    fst e = child_time t theta (Fin u)) /\
                         (0 <= snd e < Z.of_nat (length Acp))%Z) cands /\
        (forall e, In e cands -> ltb (fst e) T = true ->
                   In e (combine (map fst (survivors T cands))
                                 (map snd (survivors T cands)))) /\
        (Forall (fun e => ltb (fst e) T = false) cands ->
         _get_mv_offspring t Acp theta T g = Ret ([], [], g'))).
Proof.
  pose proof (get_mv_offspring_eq t Acp theta T g) as Heq.
  split; [exact Heq | split; [| split]].
  - intros Hrow.
    destruct (candidates_from_defined t theta Acp 0 g Hrow) as (cands & g' & E).
    exists cands, g'. split; [exact E |].
    rewrite Heq. unfold candidates. rewrite E. reflexivity.
  - intros tres cres g' H. rewrite Heq in H.
    destruct (candidates t Acp theta g) as [[cands g1] | e |] eqn:E;
      cbn [bind] in H; try discriminate.
    injection H as <- <- <-.
    split; [now rewrite !length_map | split].
    + apply Forall_forall. intros x Hx. apply in_map_iff in Hx.
      destruct Hx as (e & <- & He). now apply survivors_In in He.
    + apply Forall_forall. intros k Hk. apply in_map_iff in Hk.
      destruct Hk as (e & <- & He). apply survivors_In in He.
      pose proof (candidates_from_spec t theta Acp 0 g cands g1 E) as Hs.
      rewrite Forall_forall in Hs. destruct (Hs e (proj1 He)) as [_ Hm].
      cbn [Nat.add] in Hm. lia.
  - intros cands g' E.
    pose proof (candidates_from_spec t theta Acp 0 g cands g' E) as Hs.
    split; [| split].
    + eapply Forall_impl; [| exact Hs]. cbn beta. intros e [H1 H2].
      split; [exact H1 | cbn [Nat.add] in H2; lia].
    + intros e He Hlt.
      assert (Hin : In e (survivors T cands)) by (apply survivors_In; auto).
      clear - Hin. induction (survivors T cands) as [| [x k] l IH];
        cbn [map combine fst snd] in *; [contradiction |].
      destruct Hin as [-> | Hin]; [now left | right; auto].
    + intros Hnone. rewrite Heq, E. cbn [bind].
      assert (Hempty : survivors T cands = []).
      { unfold survivors. clear - Hnone.
        induction Hnone as [| e l He Hl IH]; cbn [filter]; [reflexivity |].
        now rewrite He. }
      now rewrite Hempty.
Qed.

(** Draws of the scripted source. *)
Lemma script_uu (z : Z) (zs : list Z) (ps : list nat) (ss : list Z) :
  uu (mk_script (z :: zs) ps ss)
  = (Fin (IZR (Z.max 0 (Z.min z script_RAND_MAX)) / IZR script_RAND_MAX),
     mk_script zs ps ss).
Proof.
  unfold uu. cbn [rand scripted script_rand rand_script poisson_script sample_script].
  unfold of_Z. cbn [div RAND_MAX scripted].
  rewrite Rsgn_gt by (apply IZR_lt; reflexivity). reflexivity.
Qed.

Lemma script_poisson_run (m : R) (n : nat) (ns : list nat) (rs ss : list Z) :
  (0 <= m)%R ->
  np_random_poisson (Fin m) (mk_script rs (n :: ns) ss) = Ret (n, mk_script rs ns ss).
Proof.
  intros Hm. cbn [np_random_poisson scripted script_poisson].
  destruct (Rle_dec 0 m) as [_ | Hn]; [reflexivity | contradiction].
Qed.

Lemma script_sample_run (z : Z) (zs : list Z) (ps : list nat) (rs : list Z) :
  np_random_sample (mk_script rs ps (z :: zs))
  = ((IZR (z mod 2 ^ 53) / IZR (2 ^ 53))%R, mk_script rs ps zs).
Proof. reflexivity. Qed.

Lemma ltb_Fin_true (x y : R) : (x < y)%R -> ltb (Fin x) (Fin y) = true.
Proof. apply ltb_Fin. Qed.

(** A parent at time 1 with one child, [theta = 1], [T = 2]: the draw
    [rand() = RAND_MAX] puts the child at the time of the parent. *)
Lemma offspring_run_at_max :
  _get_mv_offspring (Fin 1) [Fin 1] (Fin 1) (Fin 2)
                    (mk_script [script_RAND_MAX] [1] [])
  = Ret ([Fin 1], [0%Z], mk_script [] [] []).
Proof.
  rewrite get_mv_offspring_eq. unfold candidates. cbn [candidates_from].
  rewrite script_poisson_run by lra. cbn [bind children].
  rewrite script_uu. cbn [children app bind].
  change (Z.max 0 (Z.min script_RAND_MAX script_RAND_MAX)) with script_RAND_MAX.
  replace (IZR script_RAND_MAX / IZR script_RAND_MAX)%R with 1%R
    by (unfold script_RAND_MAX; field; lra).
  rewrite child_time_at_one by lra.
  unfold survivors. cbn [filter fst]. rewrite ltb_Fin_true by lra.
  reflexivity.
Qed.

(** The same parent with the draw [rand() = 0]: the child is at [+inf] and
    is filtered out. *)
Lemma offspring_run_at_zero :
  _get_mv_offspring (Fin 1) [Fin 1] (Fin 1) (Fin 2) (mk_script [0%Z] [1] [])
  = Ret ([], [], mk_script [] [] []).
Proof.
  rewrite get_mv_offspring_eq. unfold candidates. cbn [candidates_from].
  rewrite script_poisson_run by lra. cbn [bind children].
  rewrite script_uu. cbn [children app bind].
  change (Z.max 0 (Z.min 0 script_RAND_MAX)) with 0%Z.
  replace (0 / IZR script_RAND_MAX)%R with 0%R
    by (unfold script_RAND_MAX; field; lra).
  rewrite child_time_at_zero by lra.
  reflexivity.
Qed.

Lemma get_mv_offspring_survivors_witness :
  exists cands g',
    candidates (Fin 1) [Fin 1] (Fin 1) (mk_script [script_RAND_MAX] [1] [])
    = Ret (cands, g') /\
    _get_mv_offspring (Fin 1) [Fin 1] (Fin 1) (Fin 2)
                      (mk_script [script_RAND_MAX] [1] [])
    = Ret (map fst (survivors (Fin 2) cands), map snd (survivors (Fin 2) cands), g').
Proof.
  apply (get_mv_offspring_survivors (Fin 1) [Fin 1] (Fin 1) (Fin 2)
                                    (mk_script [script_RAND_MAX] [1] [])).
  repeat constructor. exists 1%R. split; [reflexivity | lra].
Defined.

(** C10.  With [theta > 0] every child returned is at or after its parent.
    It need not be after: the uniform draw is [rand() / RAND_MAX], in
    [[0, 1]] with both ends; [rand() = RAND_MAX] gives [U = 1], offset 0 and
    a child at the time of its parent, which the call returns (first run
    below); [rand() = 0] gives [U = 0] and a child at [+inf], which no
    [T] keeps (second run). *)
Theorem get_mv_offspring_child_not_before_parent :
  (forall (rng : Type) (RS : RandomSource rng)
          (t : double) (Acp : list double) (th : R) (T : double) (g : rng)
          tres cres g',
      (0 < th)%R ->
      _get_mv_offspring t Acp (Fin th) T g = Ret (tres, cres, g') ->
      Forall (fun x => leb t x = true) tres)
  /\ (forall (rng : Type) (RS : RandomSource rng) (g : rng) (th tr : R),
         (0 < th)%R -> fst (rand g) = RAND_MAX ->
         fst (uu g) = Fin 1 /\
         child_time (Fin tr) (Fin th) (fst (uu g)) = Fin tr)
  /\ (forall (rng : Type) (RS : RandomSource rng) (g : rng) (th tr : R) (T : double),
         (0 < th)%R -> fst (rand g) = 0%Z ->
         fst (uu g) = Fin 0 /\
         child_time (Fin tr) (Fin th) (fst (uu g)) = PInf /\
         ltb PInf T = false)
  /\ _get_mv_offspring (Fin 1) [Fin 1] (Fin 1) (Fin 2)
                       (mk_script [script_RAND_MAX] [1] [])
     = Ret ([Fin 1], [0%Z], mk_script [] [] [])
  /\ _get_mv_offspring (Fin 1) [Fin 1] (Fin 1) (Fin 2) (mk_script [0%Z] [1] [])
     = Ret ([], [], mk_script [] [] []).
Proof.
  split; [| split; [| split; [| split]]].
  - intros rng RS t Acp th T g tres cres g' Hth H.
    rewrite get_mv_offspring_eq in H.
    destruct (candidates t Acp (Fin th) g) as [[cands g1] | e |] eqn:E;
      cbn [bind] in H; try discriminate.
    injection H as <- <- <-.
    pose proof (candidates_from_spec t (Fin th) Acp 0 g cands g1 E) as Hs.
    rewrite Forall_forall in *. intros x Hx.
    apply in_map_iff in Hx. destruct Hx as (e & <- & He).
    apply survivors_In in He. destruct He as [Hin Hlt].
    destruct (Hs e Hin) as [(u & Hu & Eu) _].
    rewrite Eu in *. now apply (survivor_not_before_parent t T th u).
  - intros rng RS g th tr Hth Hmax.
    rewrite (uu_at_max g Hmax). split; [reflexivity |].
    now apply child_time_at_one.
  - intros rng RS g th tr T Hth Hzero.
    rewrite (uu_at_zero g Hzero). split; [reflexivity | split].
    + now rewrite child_time_at_zero.
    + destruct T; reflexivity.
  - exact offspring_run_at_max.
  - exact offspring_run_at_zero.
Qed.

Lemma get_mv_offspring_child_not_before_parent_witness :
  Forall (fun x => leb (Fin 1) x = true) [Fin 1].
Proof.
  apply (proj1 get_mv_offspring_child_not_before_parent
               script scripted (Fin 1) [Fin 1] 1%R (Fin 2)
               (mk_script [script_RAND_MAX] [1] [])
               [Fin 1] [0%Z] (mk_script [] [] [])).
  - lra.
  - exact offspring_run_at_max.
Defined.

(** ** The merge sort is a stable sort *)

Section MergesortLemmas.

Variable X : Type.
Variable lt : X -> X -> bool.
Variable rank : X -> nat.

Hypothesis lt_trans : forall a b c, lt a b = true -> lt b c = true -> lt a c = true.
Hypothesis lt_negtrans : forall a b c, lt a b = false -> lt b c = false -> lt a c = false.


Lemma merge_nil_l (l2 : list X) : merge lt [] l2 = l2.
Proof. destruct l2; reflexivity. Qed.

Lemma merge_nil_r (l1 : list X) : merge lt l1 [] = l1.
Proof. destruct l1; reflexivity. Qed.

Lemma merge_cons_cons (a b : X) (l1 l2 : list X) :
  merge lt (a :: l1) (b :: l2)
  = if lt b a then b :: merge lt (a :: l1) l2 else a :: merge lt l1 (b :: l2).
Proof. reflexivity. Qed.

Lemma merge_perm (l1 l2 : list X) : Permutation (merge lt l1 l2) (l1 ++ l2).
Proof using.
  clear lt_trans lt_negtrans.
  revert l2. induction l1 as [| a l1 IH1]; intros l2.
  - rewrite merge_nil_l. apply Permutation_refl.
  - induction l2 as [| b l2 IH2].
    + rewrite merge_nil_r, app_nil_r. apply Permutation_refl.
    + rewrite merge_cons_cons. destruct (lt b a).
      * apply Permutation_trans with (b :: (a :: l1) ++ l2).
        -- now apply perm_skip.
        -- apply (Permutation_middle (a :: l1) l2 b).
      * cbn [app]. apply perm_skip. apply IH1.
Qed.

Lemma before_through_left (a b x : X) :
  lt b a = true -> before lt rank a x -> before lt rank b x.
Proof using lt_trans lt_negtrans.
  intros Hba [Hax | [Hxa Hr]]; left.
  - now apply (lt_trans b a x).
  - destruct (lt b x) eqn:E; [reflexivity |].
    rewrite (lt_negtrans b x a E Hxa) in Hba. discriminate.
Qed.

Lemma before_through_right (a b x : X) :
  lt b a = false -> rank a < rank x -> before lt rank b x -> before lt rank a x.
Proof using lt_negtrans.
  clear lt_trans.
  intros Hba Hrank [Hbx | [Hxb Hr]].
  - left. destruct (lt a x) eqn:E; [reflexivity |].
    rewrite (lt_negtrans b a x Hba E) in Hbx. discriminate.
  - right. split; [now apply (lt_negtrans x b a) | exact Hrank].
Qed.

Lemma merge_sorted (l1 l2 : list X) :
  StronglySorted (before lt rank) l1 -> StronglySorted (before lt rank) l2 ->
  (forall a b, In a l1 -> In b l2 -> rank a < rank b) ->
  StronglySorted (before lt rank) (merge lt l1 l2).
Proof using lt_trans lt_negtrans.
  revert l2. induction l1 as [| a l1 IH1]; intros l2 H1 H2 Hr.
  - now rewrite merge_nil_l.
  - induction l2 as [| b l2 IH2].
    + now rewrite merge_nil_r.
    + rewrite merge_cons_cons.
      inversion H1 as [| a' l1' Hs1 Hf1]; subst.
      inversion H2 as [| b' l2' Hs2 Hf2]; subst.
      destruct (lt b a) eqn:E.
      * constructor.
        -- apply IH2; [exact Hs2 |].
           intros x y Hx Hy. apply Hr; [exact Hx | now right].
        -- apply (Permutation_Forall (Permutation_sym (merge_perm (a :: l1) l2))).
           apply Forall_app. split; [| exact Hf2].
           constructor; [now left |].
           eapply Forall_impl; [| exact Hf1].
           intros x Hx. now apply (before_through_left a b x).
      * constructor.
        -- apply IH1; [exact Hs1 | exact H2 |].
           intros x y Hx Hy. apply Hr; [now right | exact Hy].
        -- apply (Permutation_Forall (Permutation_sym (merge_perm l1 (b :: l2)))).
           apply Forall_app. split; [exact Hf1 |].
           assert (Hab : rank a < rank b)
             by (apply Hr; [now left | now left]).
           constructor; [right; split; [exact E | exact Hab] |].
           rewrite Forall_forall in *. intros x Hx.
           apply (before_through_right a b x E).
           ++ apply Hr; [now left | now right].
           ++ now apply Hf2.
Qed.

Lemma mergesort0_perm (fuel : nat) :
  forall l : list X, Permutation (mergesort0 lt fuel l) l.
Proof using.
  clear lt_trans lt_negtrans.
  induction fuel as [| fuel IH]; intros l; cbn [mergesort0].
  - apply Permutation_refl.
  - destruct l as [| x [| y l']]; try apply Permutation_refl.
    remember (x :: y :: l') as l eqn:El.
    eapply Permutation_trans; [apply merge_perm |].
    set (m := Nat.div2 (length l)).
    apply Permutation_trans with (firstn m l ++ skipn m l).
    + apply Permutation_app; apply IH.
    + rewrite firstn_skipn. apply Permutation_refl.
Qed.

Lemma half_bounds (n : nat) : 2 <= n -> 1 <= Nat.div2 n < n.
Proof.
  intros Hn. pose proof (Nat.div2_odd n) as H.
  destruct (Nat.odd n); cbn [Nat.b2n] in H; lia.
Qed.

Lemma sorted_app_inv (R0 : X -> X -> Prop) (l1 l2 : list X) :
  StronglySorted R0 (l1 ++ l2) ->
  StronglySorted R0 l1 /\ StronglySorted R0 l2 /\
  (forall a b, In a l1 -> In b l2 -> R0 a b).
Proof using.
  clear lt_trans lt_negtrans.
  induction l1 as [| x l1 IH]; cbn [app]; intros H.
  - repeat split; [constructor | exact H | contradiction].
  - inversion H as [| x' l' Hs Hf]; subst.
    destruct (IH Hs) as (S1 & S2 & Hc).
    apply Forall_app in Hf. destruct Hf as [Hf1 Hf2].
    repeat split.
    + now constructor.
    + exact S2.
    + intros a b [<- | Ha] Hb.
      * rewrite Forall_forall in Hf2. now apply Hf2.
      * now apply Hc.
Qed.

Lemma mergesort0_sorted (fuel : nat) :
  forall l : list X,
    length l <= fuel ->
    StronglySorted (fun a b => rank a < rank b) l ->
    StronglySorted (before lt rank) (mergesort0 lt fuel l).
Proof using lt_trans lt_negtrans.
  induction fuel as [| fuel IH]; intros l Hlen Hs; cbn [mergesort0].
  - destruct l; [constructor | simpl in Hlen; lia].
  - destruct l as [| x [| y l']]; [constructor | repeat constructor |].
    remember (x :: y :: l') as l eqn:El.
    assert (Hn : 2 <= length l) by (subst l; simpl; lia).
    pose proof (half_bounds (length l) Hn) as Hm.
    set (m := Nat.div2 (length l)) in *.
    rewrite <- (firstn_skipn m l) in Hs.
    destruct (sorted_app_inv _ _ _ Hs) as (S1 & S2 & Hc).
    apply merge_sorted.
    + apply IH; [rewrite length_firstn; lia | exact S1].
    + apply IH; [rewrite length_skipn; lia | exact S2].
    + intros a b Ha Hb. apply Hc.
      * apply (Permutation_in a (mergesort0_perm fuel (firstn m l))), Ha.
      * apply (Permutation_in b (mergesort0_perm fuel (skipn m l))), Hb.
Qed.

End MergesortLemmas.

Lemma seq_sorted (n lo : nat) : StronglySorted Nat.lt (seq lo n).
Proof.
  revert lo. induction n as [| n IH]; intros lo; cbn [seq]; constructor.
  - apply IH.
  - apply Forall_forall. intros x Hx. apply in_seq in Hx. unfold Nat.lt. lia.
Qed.

(** numpy's order on doubles is a strict weak order. *)
Lemma sort_lt_trans (a b c : double) :
  sort_lt a b = true -> sort_lt b c = true -> sort_lt a c = true.
Proof.
  unfold sort_lt.
  destruct a as [x | | |], b as [y | | |], c as [z | | |]; cbn;
    try discriminate; try reflexivity.
  destruct (Rlt_dec x y), (Rlt_dec y z), (Rlt_dec x z);
    try discriminate; try reflexivity. lra.
Qed.

Lemma sort_lt_negtrans (a b c : double) :
  sort_lt a b = false -> sort_lt b c = false -> sort_lt a c = false.
Proof.
  unfold sort_lt.
  destruct a as [x | | |], b as [y | | |], c as [z | | |]; cbn;
    try discriminate; try reflexivity.
  destruct (Rlt_dec x y), (Rlt_dec y z), (Rlt_dec x z);
    try discriminate; try reflexivity. lra.
Qed.


Lemma argsort_perm (P : list double) : Permutation (argsort P) (seq 0 (length P)).
Proof. unfold argsort, mergesort. apply mergesort0_perm. Qed.

Lemma argsort_sorted (P : list double) : StronglySorted (key_before P) (argsort P).
Proof.
  unfold argsort, mergesort, key_before.
  apply mergesort0_sorted.
  - intros a b c. apply sort_lt_trans.
  - intros a b c. apply sort_lt_negtrans.
  - reflexivity.
  - apply seq_sorted.
Qed.

(** ** The branching sampler *)

Lemma foldM_preserves {X S : Type} (Inv : S -> Prop) (body : X -> S -> outcome S) :
  forall (xs : list X),
    (forall x s s', In x xs -> Inv s -> body x s = Ret s' -> Inv s') ->
    forall s s', Inv s -> foldM body xs s = Ret s' -> Inv s'.
Proof.
  induction xs as [| x xs IH]; intros Hbody s s' Hs H; cbn [foldM] in H.
  - now injection H as <-.
  - destruct (body x s) as [s1 | e |] eqn:E; cbn [bind] in H; try discriminate.
    apply (IH (fun y a b Hy => Hbody y a b (or_intror Hy)) s1 s').
    + apply (Hbody x s s1); [now left | exact Hs | exact E].
    + exact H.
Qed.

Lemma geti_In {X : Type} (a : list X) (i : nat) (x : X) :
  Np.geti a i = Ret x -> In x a.
Proof.
  unfold Np.geti. destruct (nth_error a i) as [y |] eqn:E; [| discriminate].
  intros H. injection H as <-. now apply nth_error_In in E.
Qed.

Section SamplerLemmas.

Context {rng : Type} {RS : RandomSource rng}.

Variables (Tr th : R).
Hypothesis HTr : (0 < Tr)%R.
Hypothesis Hth : (0 < th)%R.

Lemma np_random_rand_unit (n : nat) :
  forall g : rng,
    Forall (fun x => exists u, x = Fin u /\ (0 <= u < 1)%R) (fst (np_random_rand n g)).
Proof using.
  clear HTr Hth.
  induction n as [| n IH]; intros g; cbn [np_random_rand]; [constructor |].
  pose proof (sample_range g) as Hu.
  destruct (np_random_sample g) as [u g1]; cbn [fst] in Hu.
  specialize (IH g1). destruct (np_random_rand n g1) as [us g2]; cbn [fst] in *.
  constructor; [now exists u | exact IH].
Qed.


Lemma sb_immigrants_inv (mu : list double) (k : nat) (s s' : @sb_state rng) :
  sb_inv Tr s -> sb_immigrants (Fin Tr) mu k s = Ret s' -> sb_inv Tr s'.
Proof using HTr.
  clear Hth.
  intros [HP HC] H. unfold sb_immigrants in H.
  destruct (Np.geti mu k) as [m | e |]; cbn [bind] in H; try discriminate.
  destruct (np_random_poisson (mul m (Fin Tr)) (sb_gen s)) as [[n g1] | e |];
    cbn [bind] in H; try discriminate.
  pose proof (np_random_rand_unit n g1) as Hus.
  destruct (np_random_rand n g1) as [us g2]; cbn [fst] in Hus.
  injection H as <-. unfold sb_inv; cbn [curr_P curr_C]. split.
  - apply Forall_app. split; [exact HP |].
    unfold Np.scale. apply Forall_forall. intros x Hx.
    apply in_map_iff in Hx. destruct Hx as (v & <- & Hv).
    rewrite Forall_forall in Hus. destruct (Hus v Hv) as (u & -> & Hu).
    exists (u * Tr)%R. split; [reflexivity | nra].
  - rewrite !length_app, length_map, repeat_length. lia.
Qed.

(** The children of a parent inside the window are inside the window. *)
Lemma get_mv_offspring_window (tr : R) (row : list double) (g : rng) tres cres g' :
  (0 <= tr)%R ->
  _get_mv_offspring (Fin tr) row (Fin th) (Fin Tr) g = Ret (tres, cres, g') ->
  Forall (in_window Tr) tres /\ length cres = length tres.
Proof using Hth.
  clear HTr.
  intros Htr H. rewrite get_mv_offspring_eq in H.
  destruct (candidates (Fin tr) row (Fin th) g) as [[cands g1] | e |] eqn:E;
    cbn [bind] in H; try discriminate.
  injection H as <- <- <-.
  split; [| now rewrite !length_map].
  pose proof (candidates_from_spec (Fin tr) (Fin th) row 0 g cands g1 E) as Hs.
  rewrite Forall_forall in *. intros x Hx.
  apply in_map_iff in Hx. destruct Hx as (e & <- & He).
  apply survivors_In in He. destruct He as [Hin Hlt].
  destruct (Hs e Hin) as [(u & Hu & Eu) _].
  rewrite Eu in *. now apply survivor_in_window.
Qed.


Lemma sb_offspring_inv (A : list (list double)) (cP : list double) (cC : list Z)
      (i : nat) (s s' : @gen_state rng) :
  Forall (in_window Tr) cP ->
  gen_inv Tr s -> sb_offspring (Fin Tr) A (Fin th) cP cC i s = Ret s' -> gen_inv Tr s'.
Proof using Hth.
  clear HTr.
  intros HcP [HP HC] H. unfold sb_offspring in H.
  destruct (Np.geti cC i) as [ci | e |]; cbn [bind] in H; try discriminate.
  destruct (Np.geti cP i) as [p | e |] eqn:Ep; cbn [bind] in H; try discriminate.
  destruct (row_of A ci) as [row | e |]; cbn [bind] in H; try discriminate.
  apply geti_In in Ep. rewrite Forall_forall in HcP.
  destruct (HcP p Ep) as (tr & -> & Htr).
  destruct (_get_mv_offspring (Fin tr) row (Fin th) (Fin Tr) (gen_gen s))
    as [[[tres cres] g1] | e |] eqn:E; cbn [bind] in H; try discriminate.
  injection H as <-.
  destruct (get_mv_offspring_window tr row _ _ _ _ (proj1 Htr) E) as [Ht Hl].
  unfold gen_inv; cbn [os_P os_C].
  rewrite !concat_app; cbn [concat]. rewrite !app_nil_r. split.
  - apply Forall_app. now split.
  - rewrite !length_app. lia.
Qed.

Lemma sb_generations_inv (A : list (list double)) (fuel : nat) :
  forall (P : list double) (C : list Z) (cur : @sb_state rng) P' C' g',
    Forall (in_window Tr) P -> length C = length P -> sb_inv Tr cur ->
    sb_generations fuel (Fin Tr) A (Fin th) P C cur = Some (Ret (P', C', g')) ->
    Forall (in_window Tr) P' /\ length C' = length P'.
Proof using Hth.
  clear HTr.
  induction fuel as [| fuel IH]; intros P C cur P' C' g' HP HC [HcP HcC] H;
    cbn [sb_generations] in H.
  - destruct (length (curr_P cur)); [| discriminate].
    injection H as <- <- <-. now split.
  - destruct (length (curr_P cur)) as [| n] eqn:En.
    + injection H as <- <- <-. now split.
    + rewrite <- En in H.
      destruct (for_range 0 (length (curr_P cur))
                  (sb_offspring (Fin Tr) A (Fin th) (curr_P cur) (curr_C cur))
                  (mk_gen [] [] (sb_gen cur))) as [s | e |] eqn:E;
        try discriminate.
      assert (Hs : gen_inv Tr s).
      { unfold for_range in E.
        eapply (foldM_preserves (gen_inv Tr)); [| | exact E].
        - intros x a b _ Ha Hb. eapply sb_offspring_inv; eauto.
        - split; [constructor | reflexivity]. }
      apply (IH _ _ _ _ _ _) in H; [exact H | | | exact Hs].
      * apply Forall_app. now split.
      * rewrite !length_app. lia.
Qed.

Lemma sb_accumulate_inv (fuel : nat) (mu : list double) (A : list (list double))
      (g : rng) P C g' :
  sb_accumulate fuel (Fin Tr) mu A (Fin th) g = Some (Ret (P, C, g')) ->
  Forall (in_window Tr) P /\ length C = length P.
Proof using HTr Hth.
  unfold sb_accumulate. intros H.
  destruct (for_range 0 (length mu) (sb_immigrants (Fin Tr) mu) (mk_sb [] [] g))
    as [cur | e |] eqn:E; try discriminate.
  assert (Hcur : sb_inv Tr cur).
  { unfold for_range in E.
    eapply (foldM_preserves (sb_inv Tr)); [| | exact E].
    - intros x a b _ Ha Hb. eapply sb_immigrants_inv; eauto.
    - split; [constructor | reflexivity]. }
  apply (sb_generations_inv A fuel [] [] cur P C g'); auto.
Qed.

End SamplerLemmas.

Lemma StronglySorted_map_in {X Y : Type} (R0 : X -> X -> Prop) (R1 : Y -> Y -> Prop)
      (f : X -> Y) (l : list X) :
  StronglySorted R0 l ->
  (forall a b, In a l -> In b l -> R0 a b -> R1 (f a) (f b)) ->
  StronglySorted R1 (map f l).
Proof.
  induction 1 as [| a l Hs IH Hf]; intros Himp; cbn [map]; constructor.
  - apply IH. intros x y Hx Hy. apply Himp; now right.
  - apply Forall_forall. intros y Hy. apply in_map_iff in Hy.
    destruct Hy as (x & <- & Hx). rewrite Forall_forall in Hf.
    apply Himp; [now left | now right | now apply Hf].
Qed.

Lemma sort_lt_Fin (x y : R) : sort_lt (Fin x) (Fin y) = ltb (Fin x) (Fin y).
Proof. unfold sort_lt. cbn [is_nan andb]. apply orb_false_r. Qed.

(** On finite keys: smaller, or equal and earlier in the input. *)
Lemma key_before_finite (P : list double) (i j : nat) (x y : R) :
  nth i P NaN = Fin x -> nth j P NaN = Fin y ->
  key_before P i j ->
  (x <= y)%R /\
  (ltb (nth i P NaN) (nth j P NaN) = true \/ (nth i P NaN = nth j P NaN /\ i < j)).
Proof.
  intros Hi Hj. unfold key_before, before. rewrite Hi, Hj, !sort_lt_Fin.
  intros [Hlt | [Hge Hij]].
  - split; [apply ltb_Fin in Hlt; lra | now left].
  - assert (Hle : (x <= y)%R).
    { destruct (Rle_dec x y) as [H | H]; [exact H |].
      rewrite ltb_Fin_true in Hge by lra. discriminate. }
    split; [exact Hle |].
    destruct (Req_dec x y) as [-> | Hne]; [right; now split |].
    left. apply ltb_Fin. lra.
Qed.

(** C9.  A run of the sampler that ends, for [T > 0] and [theta > 0],
    returns times in ascending order, all inside [[0, T)], with one mark per
    time.  The order is the one of a stable sort of the accumulated
    generations: the events are a permutation of the accumulated ones, and
    of two events at the same time the one accumulated first comes first. *)
Theorem mv_exp_sample_branching_sorted
        {rng : Type} {RS : RandomSource rng}
        (fuel : nat) (Tr th : R) (mu : list double) (A : list (list double))
        (g : rng) (P : list double) (C : list Z) (g' : rng) :
  (0 < Tr)%R -> (0 < th)%R ->
  mv_exp_sample_branching fuel (Fin Tr) mu A (Fin th) g = Some (Ret (P, C, g')) ->
  StronglySorted (fun a b => leb a b = true) P /\
  Forall (in_window Tr) P /\
  length C = length P /\
  exists P0 C0,
    sb_accumulate fuel (Fin Tr) mu A (Fin th) g = Some (Ret (P0, C0, g')) /\
    length C0 = length P0 /\
    Permutation (argsort P0) (seq 0 (length P0)) /\
    P = take NaN P0 (argsort P0) /\
    C = take 0%Z C0 (argsort P0) /\
    StronglySorted
      (fun i j => ltb (nth i P0 NaN) (nth j P0 NaN) = true \/
                  (nth i P0 NaN = nth j P0 NaN /\ i < j))
      (argsort P0).
Proof.
  intros HTr Hth H. unfold mv_exp_sample_branching in H.
  destruct (sb_accumulate fuel (Fin Tr) mu A (Fin th) g)
    as [[[[P0 C0] g0] | e |] |] eqn:E; try discriminate.
  injection H as <- <- <-.
  destruct (sb_accumulate_inv Tr th HTr Hth fuel mu A g P0 C0 g0 E) as [Hwin Hlen].
  pose proof (argsort_perm P0) as Hperm.
  pose proof (argsort_sorted P0) as Hsorted.
  assert (Hidx : forall i, In i (argsort P0) -> i < length P0).
  { intros i Hi. apply (Permutation_in i Hperm), in_seq in Hi. lia. }
  assert (Hfin : forall i, In i (argsort P0) ->
                           exists x, nth i P0 NaN = Fin x /\ (0 <= x < Tr)%R).
  { intros i Hi. rewrite Forall_forall in Hwin.
    apply (Hwin (nth i P0 NaN)), nth_In, Hidx, Hi. }
  unfold take. repeat split.
  - apply (StronglySorted_map_in (key_before P0)); [exact Hsorted |].
    intros a b Ha Hb Hab.
    destruct (Hfin a Ha) as (x & Hx & _). destruct (Hfin b Hb) as (y & Hy & _).
    destruct (key_before_finite P0 a b x y Hx Hy Hab) as [Hle _].
    rewrite Hx, Hy. now apply leb_Fin.
  - apply Forall_forall. intros v Hv. apply in_map_iff in Hv.
    destruct Hv as (i & <- & Hi). destruct (Hfin i Hi) as (x & Hx & Hr).
    exists x. now split.
  - now rewrite !length_map.
  - exists P0, C0. repeat split; auto.
    rewrite <- (map_id (argsort P0)) at 1.
    apply (StronglySorted_map_in (key_before P0)); [exact Hsorted |].
    intros a b Ha Hb Hab.
    destruct (Hfin a Ha) as (x & Hx & _). destruct (Hfin b Hb) as (y & Hy & _).
    now destruct (key_before_finite P0 a b x y Hx Hy Hab) as [_ Hst].
Qed.

Lemma script_poisson_empty (m : R) (rs ss : list Z) :
  (0 <= m)%R ->
  np_random_poisson (Fin m) (mk_script rs [] ss) = Ret (O, mk_script rs [] ss).
Proof.
  intros Hm. cbn [np_random_poisson scripted script_poisson].
  destruct (Rle_dec 0 m) as [_ | Hn]; [reflexivity | contradiction].
Qed.

(** One process of rate 1 on [[0, 2)], no excitation: two immigrants, drawn
    at times 1 and 1/2 in this order, and no offspring; the call returns the
    two events in ascending order. *)
Lemma sample_run_two_immigrants :
  mv_exp_sample_branching 1 (Fin 2) [Fin 1] [[Fin 0%R]] (Fin 1)
                          (mk_script [] [2] [2 ^ 52; 2 ^ 51]%Z)
  = Some (Ret ([Fin (1 / 2); Fin 1], [0%Z; 0%Z], mk_script [] [] [])).
Proof.
  assert (Ha : (IZR (2 ^ 52 mod 2 ^ 53) / IZR (2 ^ 53) * 2 = 1)%R).
  { let z := eval vm_compute in (2 ^ 52 mod 2 ^ 53)%Z in
    change (2 ^ 52 mod 2 ^ 53)%Z with z.
    let z := eval vm_compute in (2 ^ 53)%Z in change (2 ^ 53)%Z with z.
    lra. }
  assert (Hb : (IZR (2 ^ 51 mod 2 ^ 53) / IZR (2 ^ 53) * 2 = 1 / 2)%R).
  { let z := eval vm_compute in (2 ^ 51 mod 2 ^ 53)%Z in
    change (2 ^ 51 mod 2 ^ 53)%Z with z.
    let z := eval vm_compute in (2 ^ 53)%Z in change (2 ^ 53)%Z with z.
    lra. }
  unfold mv_exp_sample_branching, sb_accumulate, for_range.
  cbn [length Nat.sub seq foldM].
  unfold sb_immigrants. cbn [Np.geti nth_error bind sb_gen mul].
  rewrite script_poisson_run by lra. cbn [bind np_random_rand].
  rewrite !script_sample_run.
  cbn [np_random_rand Np.scale map mul length repeat app curr_P curr_C bind].
  cbn [sb_generations length curr_P curr_C sb_gen for_range Nat.sub seq foldM].
  unfold sb_offspring. cbn [Np.geti nth_error bind row_of length].
  cbn -[_get_mv_offspring Rsgn IZR Z.pow Z.modulo].
  rewrite !get_mv_offspring_eq. unfold candidates. cbn [candidates_from].
  rewrite (script_poisson_empty 0 [] []) by lra.
  cbn [bind children app survivors filter map os_P os_C gen_gen].
  rewrite !get_mv_offspring_eq. unfold candidates. cbn [candidates_from].
  rewrite (script_poisson_empty 0 [] []) by lra.
  cbn [bind children app survivors filter map os_P os_C gen_gen concat length].
  unfold sb_sorted, argsort, mergesort.
  cbn [length seq mergesort0 Nat.div2 firstn skipn].
  rewrite merge_cons_cons. cbn [nth]. rewrite sort_lt_Fin.
  rewrite Ha, Hb. rewrite ltb_Fin_true by lra.
  rewrite merge_nil_r. reflexivity.
Qed.

Lemma mv_exp_sample_branching_sorted_witness :
  StronglySorted (fun a b => leb a b = true) [Fin (1 / 2); Fin 1] /\
  Forall (in_window 2) [Fin (1 / 2); Fin 1] /\
  length [0%Z; 0%Z] = length [Fin (1 / 2); Fin 1] /\
  exists P0 C0,
    sb_accumulate 1 (Fin 2) [Fin 1] [[Fin 0%R]] (Fin 1)
                  (mk_script [] [2] [2 ^ 52; 2 ^ 51]%Z)
    = Some (Ret (P0, C0, mk_script [] [] [])) /\
    length C0 = length P0 /\
    Permutation (argsort P0) (seq 0 (length P0)) /\
    [Fin (1 / 2); Fin 1] = take NaN P0 (argsort P0) /\
    [0%Z; 0%Z] = take 0%Z C0 (argsort P0) /\
    StronglySorted
      (fun i j => ltb (nth i P0 NaN) (nth j P0 NaN) = true \/
                  (nth i P0 NaN = nth j P0 NaN /\ i < j))
      (argsort P0).
Proof.
  apply (mv_exp_sample_branching_sorted
           1 2 1 [Fin 1] [[Fin 0%R]] (mk_script [] [2] [2 ^ 52; 2 ^ 51]%Z)
           [Fin (1 / 2); Fin 1] [0%Z; 0%Z] (mk_script [] [] [])).
  - lra.
  - lra.
  - exact sample_run_two_immigrants.
Defined.

(** * Further properties of the code *)

(** ** The sort of lines 154-156 *)

Lemma sort_lt_asym (a b : double) : sort_lt a b = true -> sort_lt b a = false.
Proof.
  unfold sort_lt. destruct a as [x | | |], b as [y | | |]; cbn; try discriminate;
    try reflexivity.
  destruct (Rlt_dec x y), (Rlt_dec y x); try discriminate; try reflexivity. lra.
Qed.

Lemma combine_take {X Y : Type} (dx : X) (dy : Y) (xs : list X) (ys : list Y)
      (six : list nat) :
  combine (take dx xs six) (take dy ys six)
  = map (fun i => (nth i xs dx, nth i ys dy)) six.
Proof.
  unfold take. induction six as [| i six IH]; cbn [map combine]; [reflexivity |].
  now rewrite IH.
Qed.

Lemma combine_nth_seq {X Y : Type} (dx : X) (dy : Y) (xs : list X) (ys : list Y) :
  length ys = length xs ->
  map (fun i => (nth i xs dx, nth i ys dy)) (seq 0 (length xs)) = combine xs ys.
Proof.
  revert ys. induction xs as [| x xs IH]; intros [| y ys] H; simpl in *;
    try reflexivity; try discriminate.
  f_equal. rewrite <- seq_shift, map_map. apply IH. lia.
Qed.

(** X1.  The sort of the last lines, on any two arrays of one length
    (whatever the times are: infinite, NaN): the pairs (time, mark) returned
    are a permutation of the pairs given, so every event keeps its mark; no
    time returned is smaller, in numpy's order with NaN last, than one
    returned before it. *)
Theorem sb_sorted_keeps_pairs (P : list double) (C : list Z) :
  length C = length P ->
  Permutation (combine (fst (sb_sorted P C)) (snd (sb_sorted P C))) (combine P C) /\
  StronglySorted (fun a b => sort_lt b a = false) (fst (sb_sorted P C)) /\
  length (fst (sb_sorted P C)) = length P /\
  length (snd (sb_sorted P C)) = length P.
Proof.
  intros Hlen. unfold sb_sorted; cbn [fst snd].
  pose proof (argsort_perm P) as Hperm.
  repeat split.
  - rewrite combine_take, <- (combine_nth_seq NaN 0%Z P C Hlen).
    now apply Permutation_map.
  - unfold take.
    apply (StronglySorted_map_in (key_before P)); [apply argsort_sorted |].
    intros a b _ _ [Hlt | [Hge _]]; [now apply sort_lt_asym | exact Hge].
  - unfold take. rewrite length_map.
    rewrite (Permutation_length Hperm). apply length_seq.
  - unfold take. rewrite length_map.
    rewrite (Permutation_length Hperm). apply length_seq.
Qed.

Lemma sb_sorted_keeps_pairs_witness :
  Permutation (combine (fst (sb_sorted [Fin 2; NaN; Fin 1] [0; 1; 2]%Z))
                       (snd (sb_sorted [Fin 2; NaN; Fin 1] [0; 1; 2]%Z)))
              (combine [Fin 2; NaN; Fin 1] [0; 1; 2]%Z).
Proof.
  apply (sb_sorted_keeps_pairs [Fin 2; NaN; Fin 1] [0; 1; 2]%Z). reflexivity.
Defined.

(** ** The marks of the offspring and of the realization *)

Lemma StronglySorted_app_from {X : Type} (R0 : X -> X -> Prop) (l1 l2 : list X) :
  StronglySorted R0 l1 -> StronglySorted R0 l2 ->
  (forall a b, In a l1 -> In b l2 -> R0 a b) ->
  StronglySorted R0 (l1 ++ l2).
Proof.
  induction 1 as [| a l1 Hs IH Hf]; intros H2 Hc; cbn [app]; [exact H2 |].
  constructor.
  - apply IH; [exact H2 |]. intros x y Hx Hy. apply Hc; [now right | exact Hy].
  - apply Forall_app. split; [exact Hf |].
    apply Forall_forall. intros y Hy. apply Hc; [now left | exact Hy].
Qed.

Lemma StronglySorted_filter_keeps {X : Type} (R0 : X -> X -> Prop) (p : X -> bool)
      (l : list X) :
  StronglySorted R0 l -> StronglySorted R0 (filter p l).
Proof.
  induction 1 as [| a l Hs IH Hf]; cbn [filter]; [constructor |].
  destruct (p a); [| exact IH].
  constructor; [exact IH |].
  rewrite Forall_forall in *. intros x Hx. apply filter_In in Hx. now apply Hf.
Qed.

Section OffspringOrder.

Context {rng : Type} {RS : RandomSource rng}.

Lemma candidates_from_ascending (t theta : double) :
  forall (row : list double) (k0 : nat) (g : rng) cands g',
    candidates_from t theta k0 row g = Ret (cands, g') ->
    StronglySorted (fun e1 e2 => (snd e1 <= snd e2)%Z) cands.
Proof.
  induction row as [| a row IH]; intros k0 g cands g' H; cbn [candidates_from] in H.
  - injection H as <- <-. constructor.
  - destruct (np_random_poisson a g) as [[n g1] | e |]; cbn [bind] in H;
      try discriminate.
    pose proof (children_marks t theta k0 n g1) as Hm.
    destruct (children t theta k0 n g1) as [ch g2]; cbn [fst] in *.
    destruct (candidates_from t theta (S k0) row g2) as [[rest g3] | e |] eqn:E;
      cbn [bind] in H; try discriminate.
    injection H as <- <-.
    pose proof (candidates_from_spec t theta row (S k0) g2 rest g3 E) as Hrest.
    rewrite Forall_forall in Hm, Hrest.
    apply StronglySorted_app_from.
    + clear - Hm. induction ch as [| e ch IHch]; constructor.
      * apply IHch. intros x Hx. apply Hm. now right.
      * apply Forall_forall. intros x Hx.
        rewrite (Hm e (or_introl eq_refl)), (Hm x (or_intror Hx)). lia.
    + now apply (IH (S k0) g2 rest g3).
    + intros x y Hx Hy. rewrite (Hm x Hx).
      destruct (Hrest y Hy) as [_ Hy2]. lia.
Qed.

(** X2.  The marks that [_get_mv_offspring] returns are in ascending order:
    the children come grouped by target process, in the order of the row. *)
Theorem get_mv_offspring_marks_ascending
        (t : double) (Acp : list double) (theta T : double) (g : rng)
        (tres : list double) (cres : list Z) (g' : rng) :
  _get_mv_offspring t Acp theta T g = Ret (tres, cres, g') ->
  StronglySorted Z.le cres.
Proof.
  intros H. rewrite get_mv_offspring_eq in H.
  destruct (candidates t Acp theta g) as [[cands g1] | e |] eqn:E;
    cbn [bind] in H; try discriminate.
  injection H as <- <- <-.
  apply (StronglySorted_map_in (fun e1 e2 => (snd e1 <= snd e2)%Z)).
  - apply StronglySorted_filter_keeps.
    now apply (candidates_from_ascending t theta Acp 0 g cands g1).
  - intros a b _ _ Hab. exact Hab.
Qed.

End OffspringOrder.

(** A parent at time 1 with one child in each of two processes. *)
Lemma offspring_run_two_processes :
  _get_mv_offspring (Fin 1) [Fin 1; Fin 2] (Fin 1) (Fin 2)
                    (mk_script [script_RAND_MAX; script_RAND_MAX] [1; 1] [])
  = Ret ([Fin 1; Fin 1], [0%Z; 1%Z], mk_script [] [] []).
Proof.
  rewrite get_mv_offspring_eq. unfold candidates. cbn [candidates_from].
  rewrite script_poisson_run by lra. cbn [bind children].
  rewrite script_uu. cbn [children app bind].
  rewrite script_poisson_run by lra. cbn [bind children].
  rewrite script_uu. cbn [children app bind].
  change (Z.max 0 (Z.min script_RAND_MAX script_RAND_MAX)) with script_RAND_MAX.
  replace (IZR script_RAND_MAX / IZR script_RAND_MAX)%R with 1%R
    by (unfold script_RAND_MAX; field; lra).
  rewrite child_time_at_one by lra.
  unfold survivors. cbn [filter fst]. rewrite ltb_Fin_true by lra.
  reflexivity.
Qed.

Lemma get_mv_offspring_marks_ascending_witness :
  StronglySorted Z.le [0%Z; 1%Z].
Proof.
  apply (get_mv_offspring_marks_ascending
           (Fin 1) [Fin 1; Fin 2] (Fin 1) (Fin 2)
           (mk_script [script_RAND_MAX; script_RAND_MAX] [1; 1] [])
           [Fin 1; Fin 1] [0%Z; 1%Z] (mk_script [] [] [])).
  exact offspring_run_two_processes.
Defined.

Lemma row_of_In (A : list (list double)) (ci : Z) (row : list double) :
  row_of A ci = Ret row -> In row A.
Proof.
  unfold row_of.
  destruct ((0 <=? (if (ci <? 0)%Z then (ci + Z.of_nat (length A))%Z else ci))%Z &&
            ((if (ci <? 0)%Z then (ci + Z.of_nat (length A))%Z else ci)
             <? Z.of_nat (length A))%Z); [| discriminate].
  destruct (nth_error A _) as [r |] eqn:E; [| discriminate].
  intros H. injection H as <-. now apply nth_error_In in E.
Qed.

Section RealizationMarks.

Context {rng : Type} {RS : RandomSource rng}.

Variables (mu : list double) (A : list (list double)).
Hypothesis HA : square A (length mu).

Lemma sb_immigrants_marks (T : double) (k : nat) (s s' : @sb_state rng) :
  k < length mu ->
  sb_marks_inv (length mu) s -> sb_immigrants T mu k s = Ret s' ->
  sb_marks_inv (length mu) s'.
Proof using.
  clear HA.
  intros Hk [HC Hlen] H. unfold sb_immigrants in H.
  destruct (Np.geti mu k) as [m | e |]; cbn [bind] in H; try discriminate.
  destruct (np_random_poisson (mul m T) (sb_gen s)) as [[n g1] | e |];
    cbn [bind] in H; try discriminate.
  destruct (np_random_rand n g1) as [us g2].
  injection H as <-. unfold sb_marks_inv, marks_in in *; cbn [curr_P curr_C]. split.
  - apply Forall_app. split; [exact HC |].
    apply Forall_forall. intros z Hz. apply in_map_iff in Hz.
    destruct Hz as (o & <- & Ho). apply repeat_spec in Ho. subst o. lia.
  - rewrite !length_app, length_map, repeat_length. lia.
Qed.

Lemma get_mv_offspring_marks (p : double) (row : list double) (theta T : double)
      (g : rng) tres cres g' :
  _get_mv_offspring p row theta T g = Ret (tres, cres, g') ->
  marks_in cres (length row) /\ length cres = length tres.
Proof using.
  clear HA.
  intros H. rewrite get_mv_offspring_eq in H.
  destruct (candidates p row theta g) as [[cands g1] | e |] eqn:E;
    cbn [bind] in H; try discriminate.
  injection H as <- <- <-.
  split; [| now rewrite !length_map].
  pose proof (candidates_from_spec p theta row 0 g cands g1 E) as Hs.
  unfold marks_in. rewrite Forall_forall in *. intros k Hk.
  apply in_map_iff in Hk. destruct Hk as (e & <- & He).
  apply survivors_In in He. destruct (Hs e (proj1 He)) as [_ Hm].
  cbn [Nat.add] in Hm. lia.
Qed.

Lemma sb_offspring_marks (T theta : double) (cP : list double) (cC : list Z)
      (i : nat) (s s' : @gen_state rng) :
  gen_marks_inv (length mu) s ->
  sb_offspring T A theta cP cC i s = Ret s' ->
  gen_marks_inv (length mu) s'.
Proof using HA.
  intros [HC Hlen] H. unfold sb_offspring in H.
  destruct (Np.geti cC i) as [ci | e |]; cbn [bind] in H; try discriminate.
  destruct (Np.geti cP i) as [p | e |]; cbn [bind] in H; try discriminate.
  destruct (row_of A ci) as [row | e |] eqn:Er; cbn [bind] in H; try discriminate.
  destruct (_get_mv_offspring p row theta T (gen_gen s))
    as [[[tres cres] g1] | e |] eqn:E; cbn [bind] in H; try discriminate.
  injection H as <-.
  destruct (get_mv_offspring_marks _ _ _ _ _ _ _ _ E) as [Hm Hl].
  apply row_of_In in Er. destruct HA as [_ Hrows].
  rewrite Forall_forall in Hrows. rewrite (Hrows row Er) in Hm.
  unfold gen_marks_inv, marks_in in *; cbn [os_P os_C].
  rewrite !concat_app; cbn [concat]. rewrite !app_nil_r. split.
  - apply Forall_app. now split.
  - rewrite !length_app. lia.
Qed.

Lemma sb_generations_marks (T theta : double) (fuel : nat) :
  forall (P : list double) (C : list Z) (cur : @sb_state rng) P' C' g',
    marks_in C (length mu) -> length C = length P ->
    sb_marks_inv (length mu) cur ->
    sb_generations fuel T A theta P C cur = Some (Ret (P', C', g')) ->
    marks_in C' (length mu) /\ length C' = length P'.
Proof using HA.
  induction fuel as [| fuel IH]; intros P C cur P' C' g' HC Hlen [HcC HcL] H;
    cbn [sb_generations] in H.
  - destruct (length (curr_P cur)); [| discriminate].
    injection H as <- <- <-. now split.
  - destruct (length (curr_P cur)) as [| n] eqn:En.
    + injection H as <- <- <-. now split.
    + rewrite <- En in H.
      destruct (for_range 0 (length (curr_P cur))
                  (sb_offspring T A theta (curr_P cur) (curr_C cur))
                  (mk_gen [] [] (sb_gen cur))) as [s | e |] eqn:E;
        try discriminate.
      assert (Hs : gen_marks_inv (length mu) s).
      { unfold for_range in E.
        eapply (foldM_preserves (gen_marks_inv (length mu))); [| | exact E].
        - intros x a b _ Ha Hb. eapply sb_offspring_marks; eauto.
        - split; [constructor | reflexivity]. }
      apply (IH _ _ _ _ _ _) in H; [exact H | | | exact Hs].
      * apply Forall_app. now split.
      * rewrite !length_app. lia.
Qed.

End RealizationMarks.

(** X3.  When [A] is a [K] by [K] array for [K = len(mu)], a run of the
    sampler that ends returns one mark per time, and every mark is a process
    index in [[0, K)], for every [T] and [theta]. *)
Theorem mv_exp_sample_branching_marks
        {rng : Type} {RS : RandomSource rng}
        (fuel : nat) (T : double) (mu : list double) (A : list (list double))
        (theta : double) (g : rng) (P : list double) (C : list Z) (g' : rng) :
  square A (length mu) ->
  mv_exp_sample_branching fuel T mu A theta g = Some (Ret (P, C, g')) ->
  marks_in C (length mu) /\ length C = length P.
Proof.
  intros HA H. unfold mv_exp_sample_branching in H.
  destruct (sb_accumulate fuel T mu A theta g)
    as [[[[P0 C0] g0] | e |] |] eqn:E; try discriminate.
  injection H as <- <- <-.
  unfold sb_accumulate in E.
  destruct (for_range 0 (length mu) (sb_immigrants T mu) (mk_sb [] [] g))
    as [cur | e |] eqn:Ei; try discriminate.
  assert (Hcur : sb_marks_inv (length mu) cur).
  { unfold for_range in Ei.
    eapply (foldM_preserves (sb_marks_inv (length mu))); [| | exact Ei].
    - intros x a b Hx Ha Hb. apply in_seq in Hx.
      eapply sb_immigrants_marks; eauto. lia.
    - split; [constructor | reflexivity]. }
  destruct (sb_generations_marks mu A HA T theta fuel [] [] cur P0 C0 g0
              (Forall_nil _) eq_refl Hcur E) as [HC Hlen].
  pose proof (argsort_perm P0) as Hperm.
  unfold sb_sorted, take. split.
  - unfold marks_in in *. apply Forall_forall. intros k Hk.
    apply in_map_iff in Hk. destruct Hk as (i & <- & Hi).
    apply (Permutation_in i Hperm), in_seq in Hi.
    rewrite Forall_forall in HC. apply HC, nth_In. lia.
  - now rewrite !length_map.
Qed.

Lemma mv_exp_sample_branching_marks_witness :
  marks_in [0%Z; 0%Z] 1 /\ length [0%Z; 0%Z] = length [Fin (1 / 2); Fin 1].
Proof.
  apply (mv_exp_sample_branching_marks
           1 (Fin 2) [Fin 1] [[Fin 0%R]] (Fin 1)
           (mk_script [] [2] [2 ^ 52; 2 ^ 51]%Z)
           [Fin (1 / 2); Fin 1] [0%Z; 0%Z] (mk_script [] [] [])).
  - split; [reflexivity | repeat constructor].
  - exact sample_run_two_immigrants.
Defined.

(** ** When [mv_exp_ll] returns, raises, or leaves its arrays *)

Lemma geti_Ret_inv {X : Type} (a : list X) (i : nat) (x : X) :
  Np.geti a i = Ret x -> i < length a.
Proof.
  unfold Np.geti. destruct (nth_error a i) as [y |] eqn:E; [| discriminate].
  intros _. apply nth_error_Some. congruence.
Qed.

Lemma getz_Ret_inv {X : Type} (a : list X) (z : Z) (x dflt : X) :
  Np.getz a z = Ret x -> (0 <= z < Z.of_nat (length a))%Z /\ x = nth (Z.to_nat z) a dflt.
Proof.
  unfold Np.getz. intros H.
  assert (Hi : Np.geti a (Z.to_nat z) = Ret x /\ (0 <= z)%Z)
    by (destruct z; try discriminate; split; try exact H; lia).
  destruct Hi as [Hi Hz]. pose proof (geti_Ret_inv _ _ _ Hi) as Hlt.
  split; [lia |].
  rewrite (geti_Ret a _ dflt Hlt) in Hi. now injection Hi.
Qed.

Lemma seti_Ret_inv {X : Type} (a a' : list X) (i : nat) (v : X) :
  Np.seti a i v = Ret a' -> length a' = length a.
Proof.
  unfold Np.seti. destruct (i <? length a); [| discriminate].
  intros H. injection H as <-. apply upd_length.
Qed.

Lemma setz_Ret_inv {X : Type} (a a' : list X) (z : Z) (v : X) :
  Np.setz a z v = Ret a' -> length a' = length a.
Proof.
  unfold Np.setz. destruct z; try discriminate; apply seti_Ret_inv.
Qed.

(** A loop that returns kept its invariant, and every one of its steps
    returned. *)
Lemma foldM_seq_collect {S : Type} (Inv : S -> Prop) (Q : nat -> Prop)
      (body : nat -> S -> outcome S) :
  (forall i s s1, Inv s -> body i s = Ret s1 -> Inv s1 /\ Q i) ->
  forall (n lo : nat) (s s' : S),
    Inv s -> foldM body (seq lo n) s = Ret s' ->
    Inv s' /\ forall i, lo <= i < lo + n -> Q i.
Proof.
  intros Hbody. induction n as [| n IH]; intros lo s s' Hs H; cbn [seq foldM] in H.
  - injection H as <-. split; [exact Hs | intros i Hi; lia].
  - destruct (body lo s) as [s1 | e |] eqn:E; cbn [bind] in H; try discriminate.
    destruct (Hbody lo s s1 Hs E) as [Hs1 Hq].
    destruct (IH (Datatypes.S lo) s1 s' Hs1 H) as [Hs' Hall].
    split; [exact Hs' |]. intros i Hi.
    destruct (Nat.eq_dec i lo) as [-> | Hne]; [exact Hq | apply Hall; lia].
Qed.

Section ReturnsOnlyIf.

Variables (t : list double) (c : list Z) (mu : list double)
          (A : list (list double)) (theta T : double) (K : nat).

Lemma ll_inner_keeps_wf (i : nat) (ci : Z) (ti : double) (k : nat) (s s' : ll_state) :
  ll_wf K s -> ll_inner t A theta i ci ti k s = Ret s' -> ll_wf K s'.
Proof.
  intros (Hp & Hd & He & HF) H. unfold ll_inner in H.
  destruct (Np.geti t (i - 1)) as [tp | e |]; cbn [bind] in H; try discriminate.
  destruct (Np.geti (d s) k) as [dk | e |]; cbn [bind] in H; try discriminate.
  destruct (Np.seti (d s) k _) as [d' | e |] eqn:Ed; cbn [bind] in H; try discriminate.
  destruct (Np.seti (ed s) k _) as [ed' | e |] eqn:Ee; cbn [bind] in H; try discriminate.
  destruct (Np.geti (phi s) k) as [pk | e |]; cbn [bind] in H; try discriminate.
  destruct (Np.seti (phi s) k _) as [phi' | e |] eqn:Ep; cbn [bind] in H; try discriminate.
  destruct (Np.get2 A k ci) as [a | e |]; cbn [bind] in H; try discriminate.
  injection H as <-. unfold ll_wf; cbn [phi d ed F].
  apply seti_Ret_inv in Ed, Ee, Ep. repeat split; congruence.
Qed.

Lemma ll_event_needs (i : nat) (s s' : ll_state) :
  ll_wf K s -> ll_event t c mu A theta T K i s = Ret s' ->
  ll_wf K s' /\ mark_fits c mu K i.
Proof.
  intros Hwf H. unfold ll_event in H.
  destruct (Np.geti c i) as [ci | e |] eqn:Ec; cbn [bind] in H; try discriminate.
  destruct (Np.geti t i) as [ti | e |]; cbn [bind] in H; try discriminate.
  destruct (for_range 0 K (ll_inner t A theta i ci ti) _) as [s1 | e |] eqn:Ei;
    cbn [bind] in H; try discriminate.
  assert (Hwf1 : ll_wf K s1).
  { unfold for_range in Ei.
    eapply (foldM_preserves (ll_wf K)); [| | exact Ei].
    - intros k a b _ Ha Hb. eapply ll_inner_keeps_wf; eauto.
    - exact Hwf. }
  destruct Hwf1 as (Hp & Hd & He & HF).
  destruct (Np.getz mu ci) as [m | e |] eqn:Em; cbn [bind] in H; try discriminate.
  destruct (Np.getz (F s1) ci) as [f | e |] eqn:Ef; cbn [bind] in H; try discriminate.
  destruct (Np.setz (F s1) ci _) as [F' | e |] eqn:EF; cbn [bind] in H; try discriminate.
  destruct (Np.setz (d s1) ci _) as [d' | e |] eqn:Ed; cbn [bind] in H; try discriminate.
  injection H as <-.
  apply setz_Ret_inv in EF, Ed.
  apply (getz_Ret_inv _ _ _ NaN) in Em, Ef. rewrite HF in Ef.
  pose proof (geti_Ret_inv _ _ _ Ec) as Hi.
  rewrite (geti_Ret c i 0%Z Hi) in Ec. injection Ec as <-.
  split.
  - unfold ll_wf; cbn [phi d ed F]. repeat split; congruence.
  - unfold mark_fits. repeat split; try lia.
Qed.

Lemma ll_first_needs (s' : ll_state) :
  ll_first t c mu theta T (ll_init K) = Ret s' ->
  ll_wf K s' /\ 1 <= length t /\ mark_fits c mu K 0.
Proof.
  intros H. unfold ll_first, ll_init in H; cbn [phi d ed F lJ lda dot] in H.
  destruct (Np.geti c 0) as [c0 | e |] eqn:Ec; cbn [bind] in H; try discriminate.
  destruct (Np.geti t 0) as [t0 | e |] eqn:Et; cbn [bind] in H; try discriminate.
  destruct (Np.getz (Np.zeros K) c0) as [f | e |] eqn:Ef; cbn [bind] in H;
    try discriminate.
  destruct (Np.setz (Np.zeros K) c0 (add f (comp_inc theta T t0)))
    as [F' | e |] eqn:EF; cbn [bind] in H; try discriminate.
  destruct (Np.getz mu c0) as [m | e |] eqn:Em; cbn [bind] in H; try discriminate.
  destruct (Np.setz (Np.scale (Np.ones K) PInf) c0 (Fin 0))
    as [d' | e |] eqn:Ed; cbn [bind] in H; try discriminate.
  injection H as <-.
  apply setz_Ret_inv in EF, Ed.
  apply (getz_Ret_inv _ _ _ NaN) in Em, Ef. rewrite zeros_length in Ef.
  rewrite zeros_length in EF.
  unfold Np.scale, Np.ones in Ed. rewrite length_map, repeat_length in Ed.
  pose proof (geti_Ret_inv _ _ _ Ec) as Hi.
  pose proof (geti_Ret_inv _ _ _ Et) as Ht.
  rewrite (geti_Ret c 0 0%Z Hi) in Ec. injection Ec as <-.
  repeat split; cbn [phi d ed F]; try apply zeros_length; try assumption; try lia.
Qed.

End ReturnsOnlyIf.

(** X4.  What a returned value tells about the input: there is at least one
    event, the array of marks is at least as long as the array of times, the
    mark of every event is at least 0 and below both the number of distinct
    marks and [len(mu)], and [A] has as many rows as there are distinct
    marks.  On any other input the call raises or leaves its arrays. *)
Theorem mv_exp_ll_returns_only_if
        (t : list double) (c : list Z) (mu : list double)
        (A : list (list double)) (theta T : double) (v : double) :
  mv_exp_ll t c mu A theta T = Ret v ->
  1 <= length t /\ length t <= length c /\
  (forall i, i < length t ->
             (0 <= nth i c 0%Z < Z.of_nat (ll_K c))%Z /\
             (nth i c 0%Z < Z.of_nat (length mu))%Z) /\
  length A = ll_K c.
Proof.
  intros H. unfold mv_exp_ll in H.
  destruct (ll_pass t c mu A theta T) as [s | e |] eqn:Ep; cbn [bind] in H;
    try discriminate.
  unfold ll_pass, ll_pass_upto in Ep.
  destruct (ll_first t c mu theta T (ll_init (ll_K c))) as [s0 | e |] eqn:E0;
    cbn [bind] in Ep; try discriminate.
  destruct (ll_first_needs t c mu theta T (ll_K c) s0 E0) as (Hwf0 & HN & Hm0).
  unfold for_range in Ep.
  destruct (foldM_seq_collect (ll_wf (ll_K c)) (mark_fits c mu (ll_K c))
              (ll_event t c mu A theta T (ll_K c))
              (ll_event_needs t c mu A theta T (ll_K c))
              (length t - 1) 1 s0 s Hwf0 Ep) as [Hwf Hall].
  assert (Hfit : forall i, i < length t -> mark_fits c mu (ll_K c) i).
  { intros i Hi. destruct i as [| i]; [exact Hm0 | apply Hall; lia]. }
  unfold ll_return in H.
  destruct (Np.T_dot A (F s)) as [w | e |] eqn:Ed; cbn [bind] in H; try discriminate.
  unfold Np.T_dot, Np.shape0 in Ed.
  destruct (Nat.eqb_spec (length A) (length (F s))) as [HA | HA]; [| discriminate].
  destruct Hwf as (_ & _ & _ & HF).
  repeat split; try (apply Hfit; assumption); try lia.
  destruct (Nat.le_gt_cases (length t) (length c)) as [Hle | Hgt]; [exact Hle |].
  destruct (Hfit (length c)) as [Hlt _]; lia.
Qed.

Lemma mv_exp_ll_returns_only_if_witness :
  1 <= length [Fin 0] /\ length [Fin 0] <= length [0%Z] /\
  (forall i, i < length [Fin 0] ->
             (0 <= nth i [0%Z] 0%Z < Z.of_nat (ll_K [0%Z]))%Z /\
             (nth i [0%Z] 0%Z < Z.of_nat (length [Fin 1]))%Z) /\
  length [[Fin 0%R]] = ll_K [0%Z].
Proof.
  apply (mv_exp_ll_returns_only_if [Fin 0] [0%Z] [Fin 1] [[Fin 0%R]] (Fin 1) (Fin 1)
           (sub (add (log (Fin 1)) (neg (Np.sum (Np.scale [Fin 1] (Fin 1)))))
                (Np.sum [Np.inner [Fin 0%R]
                           [add (Fin 0) (comp_inc (Fin 1) (Fin 1) (Fin 0))]]))).
  reflexivity.
Defined.

Section InBounds.

Variables (t : list double) (c : list Z) (mu : list double)
          (A : list (list double)) (theta T : double) (K : nat).

Hypothesis HN : 1 <= length t.
Hypothesis Hlen : length t <= length c.
Hypothesis Hc : forall i, i < length t -> (0 <= nth i c 0%Z < Z.of_nat K)%Z.
Hypothesis Hmu : K <= length mu.
Hypothesis HA : K <= length A.
Hypothesis Hrows : Forall (fun row => K <= length row) A.

Lemma rows_reach (i : nat) :
  i < length t ->
  Forall (fun row => (0 <= nth i c 0%Z < Z.of_nat (length row))%Z) A.
Proof using Hc Hrows.
  clear HN Hlen Hmu HA.
  intros Hi. pose proof (Hc i Hi) as Hr.
  eapply Forall_impl; [| exact Hrows]. cbn beta. intros row Hrow. lia.
Qed.

Lemma ll_first_in_bounds :
  ll_first t c mu theta T (ll_init K) = Ret (first_result t c mu theta T K).
Proof using HN Hlen Hc Hmu.
  clear HA Hrows.
  unfold ll_first, ll_init; cbn [phi d ed F lJ lda dot].
  pose proof (Hc 0 ltac:(lia)) as Hr.
  rewrite (geti_Ret c 0 0%Z) by lia.
  rewrite (geti_Ret t 0 NaN) by lia.
  cbn [bind].
  rewrite (getz_Ret _ _ NaN) by (rewrite zeros_length; exact Hr).
  cbn [bind].
  rewrite setz_Ret by (rewrite zeros_length; exact Hr).
  cbn [bind].
  rewrite (getz_Ret _ _ NaN) by lia.
  cbn [bind].
  rewrite scale_ones_inf.
  rewrite setz_Ret by (rewrite repeat_length; exact Hr).
  cbn [bind]. unfold first_result, mark, time.
  do 2 f_equal.
  unfold Np.zeros. f_equal. f_equal.
  apply nth_repeat_lt. lia.
Qed.

Lemma ll_event_in_bounds (i : nat) (s : ll_state) :
  1 <= i < length t -> ll_wf K s ->
  ll_event t c mu A theta T K i s = Ret (event_result t c mu A theta T K i s).
Proof using Hlen Hc Hmu HA Hrows.
  clear HN.
  intros Hi (Hphi & Hd & Hed & HF).
  pose proof (Hc i ltac:(lia)) as Hr.
  unfold ll_event.
  rewrite (geti_Ret c i 0%Z) by lia.
  rewrite (geti_Ret t i NaN) by lia.
  cbn [bind].
  unfold for_range. rewrite Nat.sub_0_r.
  pose proof (ll_inner_loop t A theta i (nth i c 0%Z) (nth i t NaN)
                ltac:(lia) (rows_reach i ltac:(lia))
                (d s) (phi s) (ed s) [] [] [] (F s) (lJ s) (lda s) (Fin 0)) as Hloop.
  cbn [app length] in Hloop.
  rewrite <- Hd at 1. rewrite Hloop; clear Hloop; try lia.
  cbn [bind phi d ed F lJ lda dot].
  rewrite (getz_Ret _ _ NaN) by lia.
  cbn [bind].
  rewrite (getz_Ret _ _ NaN) by (rewrite HF; exact Hr).
  cbn [bind].
  rewrite setz_Ret by (rewrite HF; exact Hr).
  cbn [bind].
  rewrite setz_Ret
    by (unfold advance_d; rewrite length_map, Hd; exact Hr).
  cbn [bind]. unfold event_result, mark, time. rewrite Hd. reflexivity.
Qed.

Lemma ll_loop_in_bounds (n : nat) :
  1 <= n <= length t ->
  for_range 1 n (ll_event t c mu A theta T K) (first_result t c mu theta T K)
  = Ret (pass_result t c mu A theta T K n).
Proof using Hlen Hc Hmu HA Hrows.
  clear HN.
  intros Hn. unfold for_range.
  destruct (foldM_seq_inv
              (fun i s => s = pass_result t c mu A theta T K i)
              (ll_event t c mu A theta T K) (n - 1) 1
              (first_result t c mu theta T K))
    as (s' & E & I).
  - reflexivity.
  - intros i s0 Hi ->.
    exists (event_result t c mu A theta T K i (pass_result t c mu A theta T K i)).
    split.
    + apply ll_event_in_bounds; [lia | apply pass_result_wf; lia].
    + now rewrite pass_result_S by lia.
  - rewrite E, I. now replace (1 + (n - 1)) with n by lia.
Qed.

End InBounds.

(** X5.  When no access leaves the arrays (at least one event, a mark for
    every time, every mark at least 0 and below the number [K] of distinct
    marks, [mu] and the rows and columns of [A] at least [K] long), the pass
    runs to its end, and the call returns a value if [A] has exactly [K]
    rows and raises numpy's ValueError if it has more: so it raises whenever
    [A] is sized for more processes than have events. *)
Theorem mv_exp_ll_value_or_ValueError
        (t : list double) (c : list Z) (mu : list double)
        (A : list (list double)) (theta T : double) :
  1 <= length t -> length t <= length c ->
  (forall i, i < length t -> (0 <= nth i c 0%Z < Z.of_nat (ll_K c))%Z) ->
  ll_K c <= length mu -> ll_K c <= length A ->
  Forall (fun row => ll_K c <= length row) A ->
  (exists s, ll_pass t c mu A theta T = Ret s /\ ll_wf (ll_K c) s) /\
  (length A = ll_K c -> returns_value (mv_exp_ll t c mu A theta T)) /\
  (ll_K c < length A -> mv_exp_ll t c mu A theta T = Raise ValueError).
Proof.
  intros HN Hlen Hc Hmu HA Hrows.
  assert (Hpass : ll_pass t c mu A theta T
                  = Ret (pass_result t c mu A theta T (ll_K c) (length t))).
  { unfold ll_pass, ll_pass_upto.
    rewrite (ll_first_in_bounds t c mu theta T (ll_K c)) by assumption.
    cbn [bind]. apply ll_loop_in_bounds; auto. }
  pose proof (pass_result_wf t c mu A theta T (ll_K c) (length t) HN) as Hwf.
  split; [eexists; split; [exact Hpass | exact Hwf] |].
  destruct Hwf as (_ & _ & _ & HF).
  unfold mv_exp_ll, returns_value. rewrite Hpass. cbn [bind].
  unfold ll_return, Np.T_dot, Np.shape0. rewrite HF.
  split; intros H.
  - rewrite H, Nat.eqb_refl. cbn [bind]. eauto.
  - destruct (Nat.eqb_spec (length A) (ll_K c)) as [E | _]; [lia | reflexivity].
Qed.

Lemma mv_exp_ll_value_or_ValueError_witness :
  mv_exp_ll [Fin 0; Fin 1; Fin 2] [0; 1; 0]%Z [Fin 1; Fin 1; Fin 1]
            [[Fin 0; Fin 1; Fin 0]; [Fin 0; Fin 0; Fin 0]; [Fin 1; Fin 0; Fin 0]]
            (Fin 1) (Fin 3)
  = Raise ValueError.
Proof.
  assert (HK : ll_K [0; 1; 0]%Z = 2) by reflexivity.
  apply (mv_exp_ll_value_or_ValueError
           [Fin 0; Fin 1; Fin 2] [0; 1; 0]%Z [Fin 1; Fin 1; Fin 1]
           [[Fin 0; Fin 1; Fin 0]; [Fin 0; Fin 0; Fin 0]; [Fin 1; Fin 0; Fin 0]]
           (Fin 1) (Fin 3)); rewrite ?HK; cbn [length].
  - lia.
  - lia.
  - intros i Hi. destruct i as [| [| [| i]]]; cbn [nth]; lia.
  - lia.
  - lia.
  - repeat constructor.
  - lia.
Defined.

(** ** The compensator on valid numbers *)

Local Open Scope R_scope.

Lemma exp_nonpos_le_1 (x : R) : x <= 0 -> 0 < Rtrigo_def.exp x <= 1.
Proof.
  intros Hx. split; [apply exp_pos |].
  destruct (Req_dec x 0) as [-> | Hne]; [rewrite exp_0; lra |].
  left. rewrite <- exp_0. apply exp_increasing. lra.
Qed.

Lemma comp_inc_unit (th Tr ti : R) :
  0 < th -> ti <= Tr ->
  exists x, comp_inc (Fin th) (Fin Tr) (Fin ti) = Fin x /\ 0 <= x < 1.
Proof.
  intros Hth Hti. unfold comp_inc. cbn [neg sub mul exp add].
  eexists. split; [reflexivity |].
  assert (Hx : - th * (Tr + - ti) <= 0) by nra.
  pose proof (exp_nonpos_le_1 _ Hx). lra.
Qed.

Local Open Scope nat_scope.

Lemma events_of_S (c : list Z) (k n : nat) :
  events_of c k (S n)
  = if mark c n =? k then S (events_of c k n) else events_of c k n.
Proof.
  unfold events_of. replace (S n) with (n + 1) by lia.
  rewrite seq_app, filter_app, length_app. cbn [Nat.add seq filter].
  destruct (mark c n =? k); cbn [length]; lia.
Qed.

Lemma comp_of_bounds (t : list double) (c : list Z) (th Tr : R) (k : nat) :
  (0 < th)%R ->
  Forall (fun x => exists r, x = Fin r /\ (r <= Tr)%R) t ->
  forall n, n <= length t ->
    exists f, comp_of t c (Fin th) (Fin Tr) n k = Fin f /\
              (0 <= f <= INR (events_of c k n))%R.
Proof.
  intros Hth Ht. induction n as [| n IH]; intros Hn.
  - exists 0%R. split; [reflexivity | cbn; lra].
  - destruct (IH ltac:(lia)) as (f & Ef & Hf).
    rewrite comp_of_S, events_of_S. destruct (mark c n =? k).
    + rewrite Forall_forall in Ht.
      destruct (Ht (time t n)) as (ti & Eti & Hti); [apply nth_In; lia |].
      rewrite Eti, Ef.
      destruct (comp_inc_unit th Tr ti Hth Hti) as (x & -> & Hx).
      exists (f + x)%R. split; [reflexivity |]. rewrite S_INR. lra.
    + exists f. now split.
Qed.

(** X6.  On arrays that fit together, with [theta > 0] and no event after
    [T], the pass ends with every [F[k]] finite, at least 0, and at most the
    number of events of process [k]: each event adds
    [1 - exp(-theta * (T - t_i))], which lies in [[0, 1)]. *)
Theorem mv_exp_ll_compensator_bounds
        (t : list double) (c : list Z) (mu : list double)
        (A : list (list double)) (th Tr : R) :
  shapes_agree t c mu A -> all_marks_occur c mu ->
  (0 < th)%R ->
  Forall (fun x => exists r, x = Fin r /\ (r <= Tr)%R) t ->
  exists s,
    ll_pass t c mu A (Fin th) (Fin Tr) = Ret s /\
    forall k, k < length mu ->
      exists f, nth k (F s) NaN = Fin f /\
                (0 <= f <= INR (events_of c k (length t)))%R.
Proof.
  intros Hshape Hall Hth Ht.
  exists (pass_result t c mu A (Fin th) (Fin Tr) (length mu) (length t)).
  split; [now apply ll_pass_Ret |].
  destruct Hshape as (Hlen & HN & Hc & HA).
  intros k Hk.
  rewrite (F_pass_result t c mu A (Fin th) (Fin Tr) (length mu) (length t))
    by (auto; lia).
  rewrite (nth_indep _ NaN (comp_of t c (Fin th) (Fin Tr) (length t) 0))
    by (rewrite length_map, length_seq; exact Hk).
  rewrite map_nth, seq_nth by exact Hk. cbn [Nat.add].
  apply comp_of_bounds; auto.
Qed.

Lemma mv_exp_ll_compensator_bounds_witness :
  exists s,
    ll_pass [Fin 0; Fin 1; Fin 2] [0; 1; 1]%Z [Fin 1; Fin 1]
            [[Fin 0; Fin 1]; [Fin 0; Fin 0]] (Fin 1) (Fin 3) = Ret s /\
    forall k, k < length [Fin 1; Fin 1] ->
      exists f, nth k (F s) NaN = Fin f /\
                (0 <= f <= INR (events_of [0; 1; 1]%Z k (length [Fin 0; Fin 1; Fin 2])))%R.
Proof.
  apply (mv_exp_ll_compensator_bounds
           [Fin 0; Fin 1; Fin 2] [0; 1; 1]%Z [Fin 1; Fin 1]
           [[Fin 0; Fin 1]; [Fin 0; Fin 0]] 1 3).
  - unfold shapes_agree, marks_in, square; simpl.
    repeat split; repeat constructor; lia.
  - reflexivity.
  - lra.
  - repeat constructor; eexists; (split; [reflexivity | lra]).
Defined.

(** ** The pass on valid numbers *)

Lemma Forall_upd {X : Type} (P : X -> Prop) (a : list X) (i : nat) (v : X) :
  Forall P a -> P v -> Forall P (Np.upd a i v).
Proof.
  intros Ha Hv. revert i. induction Ha as [| x a Hx Ha IH]; intros [| i];
    cbn [Np.upd]; constructor; auto.
Qed.

Lemma Forall_nth_in {X : Type} (P : X -> Prop) (a : list X) (i : nat) (dflt : X) :
  Forall P a -> i < length a -> P (nth i a dflt).
Proof.
  intros Ha Hi. rewrite Forall_forall in Ha. now apply Ha, nth_In.
Qed.

Lemma fold_left_keeps {X Y : Type} (P : Y -> Prop) (f : Y -> X -> Y) (l : list X) :
  (forall acc x, In x l -> P acc -> P (f acc x)) ->
  forall a, P a -> P (fold_left f l a).
Proof.
  induction l as [| x l IH]; intros Hf a Ha; cbn [fold_left]; [exact Ha |].
  apply IH.
  - intros acc y Hy. apply Hf. now right.
  - apply Hf; [now left | exact Ha].
Qed.

Lemma nonneg_fin_add (a b : double) : nonneg_fin a -> nonneg_fin b -> nonneg_fin (add a b).
Proof.
  intros (x & -> & Hx) (y & -> & Hy). exists (x + y)%R. split; [reflexivity | lra].
Qed.

Lemma nonneg_fin_mul (a b : double) : nonneg_fin a -> nonneg_fin b -> nonneg_fin (mul a b).
Proof.
  intros (x & -> & Hx) (y & -> & Hy). exists (x * y)%R. split; [reflexivity | nra].
Qed.

Lemma is_finite_add (a b : double) : is_finite a -> is_finite b -> is_finite (add a b).
Proof. intros (x & ->) (y & ->). now exists (x + y)%R. Qed.

Lemma is_finite_mul (a b : double) : is_finite a -> is_finite b -> is_finite (mul a b).
Proof. intros (x & ->) (y & ->). now exists (x * y)%R. Qed.

Lemma nonneg_is_finite (a : double) : nonneg_fin a -> is_finite a.
Proof. intros (x & -> & _). now exists x. Qed.

Lemma pos_is_finite (a : double) : pos_fin a -> is_finite a.
Proof. intros (x & -> & _). now exists x. Qed.

(** [exp(-theta * d)] for a cell of [d], with [theta > 0]. *)
Lemma decay_cell (th : R) (x : double) :
  (0 < th)%R -> fin_or_inf x -> nonneg_fin (exp (mul (neg (Fin th)) x)).
Proof.
  intros Hth [-> | (r & ->)]; cbn [neg mul].
  - unfold scale_inf. rewrite Rsgn_lt by lra. cbn [negb inf_signed exp].
    exists 0%R. split; [reflexivity | lra].
  - cbn [exp]. eexists. split; [reflexivity | left; apply exp_pos].
Qed.

Section ValidNumbers.

Variables (t : list double) (c : list Z) (mu : list double)
          (A : list (list double)) (th Tr : R) (K : nat).

Hypothesis Hmulen : length mu = K.
Hypothesis HA : square A K.
Hypothesis Hc : marks_in c K.
Hypothesis Hlen : length c = length t.
Hypothesis Hth : (0 < th)%R.
Hypothesis Ht : Forall is_finite t.
Hypothesis Hmu : Forall pos_fin mu.
Hypothesis HAn : Forall (Forall nonneg_fin) A.

Lemma comp_inc_finite (i : nat) :
  i < length t -> is_finite (comp_inc (Fin th) (Fin Tr) (time t i)).
Proof using Ht.
  clear Hmulen HA Hc Hlen Hth Hmu HAn.
  intros Hi. destruct (time_finite t i Ht Hi) as (x & ->).
  unfold comp_inc. cbn [neg sub mul exp add]. eexists. reflexivity.
Qed.

Lemma entry_nonneg (k ci : nat) : k < K -> ci < K -> nonneg_fin (entry A k ci).
Proof using HA HAn.
  clear Hmulen Hc Hlen Hth Ht Hmu.
  intros Hk Hci. destruct HA as [HA0 Hrows]. unfold entry.
  assert (Hin : In (nth k A []) A) by (apply nth_In; lia).
  rewrite Forall_forall in Hrows, HAn.
  apply Forall_nth_in; [now apply HAn |]. rewrite (Hrows _ Hin). exact Hci.
Qed.

Lemma first_result_num :
  1 <= length t -> num_inv (first_result t c mu (Fin th) (Fin Tr) K).
Proof using Hmulen Hc Hlen Ht Hmu.
  clear HA Hth HAn.
  intros HN. pose proof (mark_lt t c K Hc Hlen 0 ltac:(lia)) as Hm.
  unfold num_inv, first_result; cbn [phi d F lJ]. repeat split.
  - unfold Np.zeros. apply Forall_forall. intros x Hx.
    apply repeat_spec in Hx. subst x. exists 0%R. split; [reflexivity | lra].
  - apply Forall_upd; [| right; now exists 0%R].
    apply Forall_forall. intros x Hx. apply repeat_spec in Hx. now left.
  - apply Forall_upd.
    + unfold Np.zeros. apply Forall_forall. intros x Hx.
      apply repeat_spec in Hx. subst x. now exists 0%R.
    + apply is_finite_add; [now exists 0%R | apply comp_inc_finite; lia].
  - destruct (Forall_nth_in pos_fin mu (mark c 0) NaN Hmu ltac:(lia))
      as (m & -> & Hpos).
    cbn [log]. rewrite Rsgn_gt by exact Hpos. eexists. reflexivity.
Qed.

Lemma event_result_num (i : nat) (s : ll_state) :
  1 <= i < length t -> ll_wf K s -> num_inv s ->
  num_inv (event_result t c mu A (Fin th) (Fin Tr) K i s).
Proof using Hmulen HA Hc Hlen Hth Ht Hmu HAn.
  intros Hi (Hlp & Hld & _ & HlF) (Hp & Hd & HF & HlJ).
  pose proof (mark_lt t c K Hc Hlen i ltac:(lia)) as Hm.
  destruct (time_finite t i Ht ltac:(lia)) as (ti & Eti).
  destruct (time_finite t (i - 1) Ht ltac:(lia)) as (tp & Etp).
  set (newd := advance_d (sub (time t i) (time t (i - 1))) (d s)).
  assert (Hnewd : Forall fin_or_inf newd).
  { unfold newd, advance_d. rewrite Eti, Etp. cbn [neg sub add].
    apply Forall_forall. intros x Hx. apply in_map_iff in Hx.
    destruct Hx as (y & <- & Hy). rewrite Forall_forall in Hd.
    destruct (Hd y Hy) as [-> | (r & ->)]; [now left | right; eexists; reflexivity]. }
  set (newphi := bump (decay (Fin th) newd) (phi s)).
  assert (Hnewphi : Forall nonneg_fin newphi).
  { unfold newphi, bump, decay. apply Forall_forall. intros x Hx.
    apply in_map_iff in Hx. destruct Hx as ([e p] & <- & Hin).
    pose proof (in_combine_l _ _ _ _ Hin) as He.
    pose proof (in_combine_r _ _ _ _ Hin) as Hpp.
    apply in_map_iff in He. destruct He as (y & <- & Hy).
    rewrite Forall_forall in Hnewd, Hp. cbn [fst snd].
    apply nonneg_fin_mul; [apply decay_cell; auto |].
    apply nonneg_fin_add; [exists 1%R; split; [reflexivity | lra] | auto]. }
  assert (Hlnewphi : length newphi = K).
  { unfold newphi, bump, decay, newd, advance_d.
    rewrite length_map, length_combine, !length_map. lia. }
  set (dot' := fold_left (dot_step A (mark c i) newphi) (seq 0 K) (Fin 0)).
  assert (Hdot : nonneg_fin dot').
  { unfold dot'. apply fold_left_keeps; [| exists 0%R; split; [reflexivity | lra]].
    intros acc k Hk Hacc. apply in_seq in Hk. unfold dot_step.
    apply nonneg_fin_add; [exact Hacc |].
    apply nonneg_fin_mul; [apply entry_nonneg; lia |].
    apply Forall_nth_in; [exact Hnewphi | lia]. }
  unfold num_inv, event_result; cbn [phi d F lJ].
  fold newd. fold newphi. fold dot'. repeat split.
  - exact Hnewphi.
  - apply Forall_upd; [exact Hnewd | right; now exists 0%R].
  - apply Forall_upd; [exact HF |].
    apply is_finite_add; [apply Forall_nth_in; [exact HF | lia] |].
    apply comp_inc_finite. lia.
  - apply is_finite_add; [exact HlJ |].
    destruct (Forall_nth_in pos_fin mu (mark c i) NaN Hmu ltac:(lia))
      as (m & -> & Hpos).
    destruct Hdot as (dr & -> & Hdr). cbn [mul add log].
    rewrite Rsgn_gt by nra. eexists. reflexivity.
Qed.

Lemma pass_result_num (n : nat) :
  1 <= n <= length t ->
  num_inv (pass_result t c mu A (Fin th) (Fin Tr) K n).
Proof using Hmulen HA Hc Hlen Hth Ht Hmu HAn.
  intros [Hn Hle]. induction n as [| n IH]; [lia |].
  destruct n as [| n].
  - apply first_result_num. lia.
  - rewrite pass_result_S by lia.
    apply event_result_num; [lia | apply pass_result_wf; lia | apply IH; lia].
Qed.

End ValidNumbers.



(** ** One process with self-excitation *)

Lemma fold_add_Fin {X : Type} (g : X -> R) (l : list X) (x : R) :
  fold_left (fun acc j => add acc (Fin (g j))) l (Fin x)
  = Fin (fold_left (fun acc j => (acc + g j)%R) l x).
Proof.
  revert x. induction l as [| j l IH]; intros x; cbn [fold_left add]; auto.
Qed.

Lemma fold_scaled {X : Type} (a : R) (f : X -> R) (l : list X) (x : R) :
  fold_left (fun acc j => (acc + a * f j)%R) l (a * x)%R
  = (a * fold_left (fun acc j => (acc + f j)%R) l x)%R.
Proof.
  revert x. induction l as [| j l IH]; intros x; cbn [fold_left]; [reflexivity |].
  rewrite <- IH. f_equal. ring.
Qed.

Lemma time_map_Fin (ts : list R) (i : nat) :
  i < length ts -> time (map Fin ts) i = Fin (tau ts i).
Proof.
  intros Hi. unfold time, tau.
  rewrite (nth_indep _ NaN (Fin 0%R)) by (rewrite length_map; exact Hi).
  apply (map_nth Fin).
Qed.

(** The recursion of the decayed count: from one event to the next it is
    decayed over the gap, the earlier event counted in. *)
Lemma decayed_count_step (th : R) (ts : list R) (n : nat) :
  1 <= n ->
  decayed_count th ts n
  = (Rtrigo_def.exp (- th * (0 + (tau ts n + - tau ts (n - 1))))
     * (1 + decayed_count th ts (n - 1)))%R.
Proof.
  intros Hn. destruct n as [| k]; [lia |].
  replace (S k - 1) with k by lia.
  unfold decayed_count.
  rewrite seq_S, fold_left_app. cbn [Nat.add seq fold_left].
  set (e := Rtrigo_def.exp (- th * (0 + (tau ts (S k) + - tau ts k)))).
  assert (H1 : fold_left
                 (fun acc j =>
                    (acc + Rtrigo_def.exp (- th * (tau ts (S k) + - tau ts j)))%R)
                 (seq 0 k) 0%R
               = (e * fold_left
                        (fun acc j =>
                           (acc + Rtrigo_def.exp (- th * (tau ts k + - tau ts j)))%R)
                        (seq 0 k) 0)%R).
  { rewrite <- fold_scaled, Rmult_0_r.
    apply fold_left_ext_in. intros acc j _. f_equal.
    unfold e. rewrite <- exp_plus. f_equal. ring. }
  assert (H2 : Rtrigo_def.exp (- th * (tau ts (S k) + - tau ts k)) = e)
    by (unfold e; f_equal; ring).
  rewrite H1, H2. ring.
Qed.

Section OneProcess.

Variables (ts : list R) (c : list Z) (m a th Tr : R).

Hypothesis HN : 1 <= length ts.
Hypothesis Hzero : Forall (fun z => z = 0%Z) c.

Let t := map Fin ts.
Let mu := [Fin m].
Let A := [[Fin a]].

Lemma one_process_first :
  one_process_inv m a th Tr ts 1 (first_result t c mu (Fin th) (Fin Tr) 1).
Proof using HN Hzero.
  unfold one_process_inv, first_result, mark.
  rewrite nth_all_zero by assumption.
  unfold t. rewrite time_map_Fin by lia.
  cbn [Z.to_nat Np.zeros repeat Np.upd phi d F lJ nth mu Nat.sub].
  unfold comp_inc, compensator_sum, log_total, decayed_count.
  cbn [neg sub mul exp add seq fold_left].
  repeat split.
  replace (m + th * (a * 0))%R with m by ring.
  destruct (log (Fin m)); try reflexivity. f_equal. ring.
Qed.

Lemma one_process_event (n : nat) (s : ll_state) :
  1 <= n < length ts ->
  one_process_inv m a th Tr ts n s ->
  one_process_inv m a th Tr ts (S n)
                  (event_result t c mu A (Fin th) (Fin Tr) 1 n s).
Proof using Hzero.
  clear HN.
  intros Hn (Hp & Hd & HF & HlJ).
  unfold one_process_inv, event_result, mark.
  rewrite nth_all_zero by assumption.
  unfold t. rewrite !time_map_Fin by lia.
  rewrite Hp, Hd, HF, HlJ.
  unfold advance_d, decay, bump, dot_step, comp_inc, entry.
  cbn [Z.to_nat map combine fst snd seq fold_left nth Np.upd
       phi d F lJ A mu neg sub mul exp add].
  replace (S n - 1) with n by lia.
  rewrite <- (decayed_count_step th ts n) by lia.
  repeat split.
  - unfold compensator_sum. replace (S n) with (n + 1) by lia.
    rewrite seq_app, fold_left_app. reflexivity.
  - unfold log_total at 2. replace (S n) with (n + 1) by lia.
    rewrite seq_app, fold_left_app. cbn [Nat.add seq fold_left].
    fold (log_total m a th ts n). do 3 f_equal. ring.
Qed.

Lemma one_process_pass (n : nat) :
  1 <= n <= length ts ->
  one_process_inv m a th Tr ts n (pass_result t c mu A (Fin th) (Fin Tr) 1 n).
Proof using HN Hzero.
  intros [Hn Hle]. induction n as [| n IH]; [lia |].
  destruct n as [| n].
  - apply one_process_first.
  - rewrite pass_result_S by lia.
    apply one_process_event; [lia | apply IH; lia].
Qed.

(** The direct evaluation for one process, in the same sums. *)
Lemma bf_history_one (i : nat) :
  i < length ts ->
  bf_history t c A (Fin th) i = Fin (a * decayed_count th ts i).
Proof using Hzero.
  clear HN.
  intros Hi. unfold bf_history, decayed_count.
  rewrite <- fold_scaled, Rmult_0_r, <- fold_add_Fin.
  apply fold_left_ext_in. intros acc j Hj. apply in_seq in Hj.
  unfold mark. rewrite !nth_all_zero by assumption.
  unfold t. rewrite !time_map_Fin by lia.
  reflexivity.
Qed.

Lemma bf_log_sum_one :
  bf_log_sum t c mu A (Fin th) = log_total m a th ts (length ts).
Proof using Hzero.
  clear HN.
  assert (Hlt : length t = length ts) by (unfold t; apply length_map).
  unfold bf_log_sum, log_total. rewrite Hlt.
  apply fold_left_ext_in. intros acc i Hi. apply in_seq in Hi.
  unfold bf_intensity. rewrite bf_history_one by lia.
  unfold mark. rewrite nth_all_zero by assumption. reflexivity.
Qed.

Lemma bf_compensator_one :
  bf_compensator t c mu A (Fin th) (Fin Tr)
  = Fin (0 + m * Tr + a * compensator_sum th Tr ts (length ts)).
Proof using Hzero.
  clear HN.
  assert (Hlt : length t = length ts) by (unfold t; apply length_map).
  unfold bf_compensator, compensator_sum. rewrite Hlt.
  rewrite <- fold_scaled, Rmult_0_r.
  assert (Hex : forall i, i < length ts ->
                 bf_excitation t c mu A (Fin th) (Fin Tr) i
                 = Fin (a * (1 + - Rtrigo_def.exp (- th * (Tr + - tau ts i))))).
  { intros i Hi. unfold bf_excitation, rec_K, mark, entry, comp_inc.
    rewrite nth_all_zero by assumption.
    unfold t. rewrite time_map_Fin by lia.
    cbn [length mu A Z.to_nat seq fold_left nth neg sub mul exp add].
    f_equal. ring. }
  rewrite (fold_left_ext_in
             (fun acc i => add acc (bf_excitation t c mu A (Fin th) (Fin Tr) i))
             (fun acc i =>
                add acc (Fin (a * (1 + - Rtrigo_def.exp (- th * (Tr + - tau ts i)))))))
    by (intros acc i Hi; apply in_seq in Hi; rewrite Hex by lia; reflexivity).
  rewrite fold_add_Fin.
  unfold Np.sum, Np.scale. cbn [mu map fold_left mul add]. reflexivity.
Qed.

(** The value of the call for one process, in the same sums. *)
Lemma mv_exp_ll_one :
  length c = length ts ->
  mv_exp_ll t c mu A (Fin th) (Fin Tr)
  = Ret (sub (add (log_total m a th ts (length ts)) (neg (Fin (0 + m * Tr))))
             (Fin (0 + (0 + a * compensator_sum th Tr ts (length ts))))).
Proof using HN Hzero.
  intros Hlen.
  assert (Hlt : length t = length ts) by (unfold t; apply length_map).
  assert (Hshape : shapes_agree t c mu A).
  { unfold shapes_agree, marks_in, square. rewrite Hlt. repeat split; auto.
    - eapply Forall_impl; [| exact Hzero]. intros z ->. simpl. lia.
    - repeat constructor. }
  assert (Hall : all_marks_occur c mu).
  { unfold all_marks_occur. rewrite unique_all_zero; auto.
    intros ->. simpl in Hlen. lia. }
  rewrite (mv_exp_ll_Ret _ _ _ _ _ _ Hshape Hall). cbv zeta.
  cbn [length mu]. rewrite Hlt.
  destruct (one_process_pass (length ts) ltac:(lia)) as (_ & _ & HF & HlJ).
  rewrite HF, HlJ.
  unfold Np.scale, Np.transpose, Np.shape1, Np.inner, Np.sum.
  cbn [A mu hd length seq map combine fst snd fold_left nth mul add neg].
  reflexivity.
Qed.


End OneProcess.



(** ** No excitation *)

Lemma background_logs_S (mu : list double) (c : list Z) (n : nat) :
  background_logs mu c (S n)
  = add (background_logs mu c n) (log (nth (mark c n) mu NaN)).
Proof.
  unfold background_logs. rewrite seq_S, fold_left_app. reflexivity.
Qed.

Section NoExcitation.

Variables (t : list double) (c : list Z) (mu : list double)
          (A : list (list double)) (th Tr : R) (K : nat).

Hypothesis HA : square A K.
Hypothesis Hc : marks_in c K.
Hypothesis Hlen : length c = length t.
Hypothesis Hth : (0 < th)%R.
Hypothesis Ht : Forall is_finite t.
Hypothesis HA0 : no_excitation A.

Lemma entry_zero (k ci : nat) : k < K -> ci < K -> entry A k ci = Fin 0.
Proof using HA HA0.
  clear Hc Hlen Hth Ht.
  intros Hk Hci. destruct HA as [HAl Hrows]. unfold entry.
  assert (Hin : In (nth k A []) A) by (apply nth_In; lia).
  unfold no_excitation in HA0. rewrite Forall_forall in Hrows, HA0.
  apply (Forall_nth_in (fun x => x = Fin 0%R)); [now apply HA0 |].
  rewrite (Hrows _ Hin). exact Hci.
Qed.

Lemma first_result_quiet :
  1 <= length t -> quiet_inv mu c 1 (first_result t c mu (Fin th) (Fin Tr) K).
Proof using Hc Hlen Ht.
  clear HA Hth HA0.
  intros HN. pose proof (mark_lt t c K Hc Hlen 0 ltac:(lia)) as Hm.
  unfold quiet_inv, first_result; cbn [phi d F lJ]. repeat split.
  - unfold Np.zeros. apply Forall_forall. intros x Hx.
    apply repeat_spec in Hx. subst x. exists 0%R. split; [reflexivity | lra].
  - apply Forall_upd; [| right; now exists 0%R].
    apply Forall_forall. intros x Hx. apply repeat_spec in Hx. now left.
  - apply Forall_upd.
    + unfold Np.zeros. apply Forall_forall. intros x Hx.
      apply repeat_spec in Hx. subst x. now exists 0%R.
    + apply is_finite_add; [now exists 0%R | apply (comp_inc_finite t); auto; lia].
  - unfold background_logs. cbn [seq fold_left]. now rewrite add_0_l.
Qed.

Lemma event_result_quiet (i : nat) (s : ll_state) :
  1 <= i < length t -> ll_wf K s -> quiet_inv mu c i s ->
  quiet_inv mu c (S i) (event_result t c mu A (Fin th) (Fin Tr) K i s).
Proof using HA Hc Hlen Hth Ht HA0.
  intros Hi (Hlp & Hld & _ & HlF) (Hp & Hd & HF & HlJ).
  pose proof (mark_lt t c K Hc Hlen i ltac:(lia)) as Hm.
  destruct (time_finite t i Ht ltac:(lia)) as (ti & Eti).
  destruct (time_finite t (i - 1) Ht ltac:(lia)) as (tp & Etp).
  set (newd := advance_d (sub (time t i) (time t (i - 1))) (d s)).
  assert (Hnewd : Forall fin_or_inf newd).
  { unfold newd, advance_d. rewrite Eti, Etp. cbn [neg sub add].
    apply Forall_forall. intros x Hx. apply in_map_iff in Hx.
    destruct Hx as (y & <- & Hy). rewrite Forall_forall in Hd.
    destruct (Hd y Hy) as [-> | (r & ->)]; [now left | right; eexists; reflexivity]. }
  set (newphi := bump (decay (Fin th) newd) (phi s)).
  assert (Hnewphi : Forall nonneg_fin newphi).
  { unfold newphi, bump, decay. apply Forall_forall. intros x Hx.
    apply in_map_iff in Hx. destruct Hx as ([e p] & <- & Hin).
    pose proof (in_combine_l _ _ _ _ Hin) as He.
    pose proof (in_combine_r _ _ _ _ Hin) as Hpp.
    apply in_map_iff in He. destruct He as (y & <- & Hy).
    rewrite Forall_forall in Hnewd, Hp. cbn [fst snd].
    apply nonneg_fin_mul; [apply decay_cell; auto |].
    apply nonneg_fin_add; [exists 1%R; split; [reflexivity | lra] | auto]. }
  assert (Hlnewphi : length newphi = K).
  { unfold newphi, bump, decay, newd, advance_d.
    rewrite length_map, length_combine, !length_map. lia. }
  set (dot' := fold_left (dot_step A (mark c i) newphi) (seq 0 K) (Fin 0)).
  assert (Hdot : dot' = Fin 0).
  { unfold dot'. apply (fold_left_keeps (fun a => a = Fin 0%R)); [| reflexivity].
    intros acc k Hk ->. apply in_seq in Hk. unfold dot_step.
    rewrite entry_zero by lia.
    destruct (Forall_nth_in nonneg_fin newphi k NaN Hnewphi ltac:(lia))
      as (p & -> & _).
    cbn [mul add]. f_equal. ring. }
  unfold quiet_inv, event_result; cbn [phi d F lJ].
  fold newd. fold newphi. fold dot'. repeat split.
  - exact Hnewphi.
  - apply Forall_upd; [exact Hnewd | right; now exists 0%R].
  - apply Forall_upd; [exact HF |].
    apply is_finite_add; [apply Forall_nth_in; [exact HF | lia] |].
    apply (comp_inc_finite t); auto. lia.
  - rewrite background_logs_S, HlJ, Hdot. do 2 f_equal.
    cbn [mul]. destruct (nth (mark c i) mu NaN) as [m | | |];
      cbn [add]; try reflexivity.
    f_equal. ring.
Qed.

Lemma pass_result_quiet (n : nat) :
  1 <= n <= length t ->
  quiet_inv mu c n (pass_result t c mu A (Fin th) (Fin Tr) K n).
Proof using HA Hc Hlen Hth Ht HA0.
  intros [Hn Hle]. induction n as [| n IH]; [lia |].
  destruct n as [| n].
  - apply first_result_quiet. lia.
  - rewrite pass_result_S by lia.
    apply event_result_quiet; [lia | apply pass_result_wf; lia | apply IH; lia].
Qed.

Lemma excitation_zero (Fv : list double) :
  length Fv = K -> Forall is_finite Fv -> excitation_by_source A Fv = Fin 0.
Proof using HA HA0.
  clear Hc Hlen Hth Ht.
  intros HlF HF. unfold excitation_by_source.
  assert (Hcols : Np.shape1 A <= K).
  { destruct HA as [HAl Hrows]. unfold Np.shape1.
    destruct A as [| row0 A']; [simpl; lia |].
    cbn [hd]. rewrite Forall_forall in Hrows.
    rewrite (Hrows row0) by now left. lia. }
  apply (fold_left_keeps (fun a => a = Fin 0%R)); [| reflexivity].
  intros acc k Hk ->. apply in_seq in Hk.
  assert (Hin : fold_left (fun acc' j => add acc' (mul (entry A j k) (nth j Fv NaN)))
                          (seq 0 (length A)) (Fin 0) = Fin 0).
  { apply (fold_left_keeps (fun a => a = Fin 0%R)); [| reflexivity].
    intros acc' j Hj ->. apply in_seq in Hj.
    destruct HA as [HAl Hrows].
    rewrite entry_zero by lia.
    destruct (Forall_nth_in is_finite Fv j NaN HF ltac:(lia)) as (f & ->).
    cbn [mul add]. f_equal. ring. }
  rewrite Hin. cbn [add]. f_equal. ring.
Qed.

End NoExcitation.



(** ** Moving the origin of time *)

Lemma foldM_ext {X S : Type} (f g : X -> S -> outcome S) (xs : list X) :
  (forall x s, f x s = g x s) -> forall s, foldM f xs s = foldM g xs s.
Proof.
  intros Hfg. induction xs as [| x xs IH]; intros s; cbn [foldM]; [reflexivity |].
  rewrite Hfg. destruct (g x s); cbn [bind]; auto.
Qed.

Lemma geti_shift (s : R) (t : list double) (i : nat) :
  Np.geti (shift s t) i = (x <- Np.geti t i ;; Ret (add x (Fin s))).
Proof.
  unfold Np.geti, shift. rewrite nth_error_map.
  destruct (nth_error t i); reflexivity.
Qed.

Lemma geti_finite (t : list double) (i : nat) (x : double) :
  Forall is_finite t -> Np.geti t i = Ret x -> is_finite x.
Proof.
  intros Ht E. rewrite Forall_forall in Ht. eapply Ht, geti_In, E.
Qed.

Lemma comp_inc_shift (theta : double) (Tr s x : R) :
  comp_inc theta (Fin (Tr + s)) (add (Fin x) (Fin s)) = comp_inc theta (Fin Tr) (Fin x).
Proof.
  unfold comp_inc. cbn [add sub neg].
  replace (Tr + s + - (x + s))%R with (Tr + - x)%R by ring. reflexivity.
Qed.

Section TimeShift.

Variables (t : list double) (c : list Z) (mu : list double)
          (A : list (list double)) (theta : double) (Tr s : R).

Hypothesis Ht : Forall is_finite t.

Lemma ll_first_shift (st : ll_state) :
  ll_first (shift s t) c mu theta (Fin (Tr + s)) st
  = ll_first t c mu theta (Fin Tr) st.
Proof using Ht.
  unfold ll_first. destruct (Np.geti c 0) as [c0 | e |]; cbn [bind]; try reflexivity.
  rewrite geti_shift.
  destruct (Np.geti t 0) as [t0 | e |] eqn:E; cbn [bind]; try reflexivity.
  destruct (geti_finite t 0 t0 Ht E) as (x & ->).
  rewrite comp_inc_shift. reflexivity.
Qed.

Lemma ll_inner_shift (i : nat) (ci : Z) (ti : R) (k : nat) (st : ll_state) :
  ll_inner (shift s t) A theta i ci (add (Fin ti) (Fin s)) k st
  = ll_inner t A theta i ci (Fin ti) k st.
Proof using Ht.
  unfold ll_inner. rewrite geti_shift.
  destruct (Np.geti t (i - 1)) as [tp | e |] eqn:E; cbn [bind]; try reflexivity.
  destruct (geti_finite t (i - 1) tp Ht E) as (x & ->).
  replace (sub (add (Fin ti) (Fin s)) (add (Fin x) (Fin s)))
    with (sub (Fin ti) (Fin x))
    by (cbn [add sub neg]; f_equal; ring).
  reflexivity.
Qed.

Lemma ll_event_shift (K i : nat) (st : ll_state) :
  ll_event (shift s t) c mu A theta (Fin (Tr + s)) K i st
  = ll_event t c mu A theta (Fin Tr) K i st.
Proof using Ht.
  unfold ll_event. destruct (Np.geti c i) as [ci | e |]; cbn [bind]; try reflexivity.
  rewrite geti_shift.
  destruct (Np.geti t i) as [ti | e |] eqn:E; cbn [bind]; try reflexivity.
  destruct (geti_finite t i ti Ht E) as (x & ->).
  rewrite comp_inc_shift. unfold for_range.
  rewrite (foldM_ext _ _ _ (ll_inner_shift i ci x)). reflexivity.
Qed.

Lemma ll_pass_shift :
  ll_pass (shift s t) c mu A theta (Fin (Tr + s)) = ll_pass t c mu A theta (Fin Tr).
Proof using Ht.
  unfold ll_pass, ll_pass_upto. rewrite ll_first_shift.
  destruct (ll_first t c mu theta (Fin Tr) (ll_init (ll_K c))) as [s0 | e |];
    cbn [bind]; try reflexivity.
  unfold shift at 1. rewrite length_map. unfold for_range.
  apply foldM_ext. intros i st. apply ll_event_shift.
Qed.

End TimeShift.

(** The background term at [T + s], for finite rates. *)
Lemma background_shift (mu : list double) (Tr s : R) :
  Forall is_finite mu ->
  forall M0 b0 b0',
  exists M b b',
    fold_left add mu (Fin M0) = Fin M /\
    fold_left add (Np.scale mu (Fin Tr)) (Fin b0) = Fin b /\
    fold_left add (Np.scale mu (Fin (Tr + s))) (Fin b0') = Fin b' /\
    (b' - b = b0' - b0 + s * (M - M0))%R.
Proof.
  induction 1 as [| m mu (x & ->) _ IH]; intros M0 b0 b0'; cbn [Np.scale map fold_left].
  - exists M0, b0, b0'. repeat split. ring.
  - cbn [mul add].
    destruct (IH (M0 + x) (b0 + x * Tr) (b0' + x * (Tr + s)))%R
      as (M & b & b' & E1 & E2 & E3 & E).
    exists M, b, b'. unfold Np.scale in E2, E3. repeat split; auto. lra.
Qed.

(** X10.  Moving the origin of time: the pass reads the times only through
    differences, so for finite times the pass on [t + s] with the horizon
    [T + s] ends in the same state (or fails in the same way) as on [t] with
    [T], whatever the other arguments are; and with finite rates a value
    returned for [t] and [T] becomes that value minus [s * sum(mu)]. *)
Theorem mv_exp_ll_time_shift
        (t : list double) (c : list Z) (mu : list double)
        (A : list (list double)) (theta : double) (Tr s : R) :
  Forall is_finite t ->
  ll_pass (shift s t) c mu A theta (Fin (Tr + s)) = ll_pass t c mu A theta (Fin Tr)
  /\ (Forall is_finite mu ->
      forall v, mv_exp_ll t c mu A theta (Fin Tr) = Ret v ->
                mv_exp_ll (shift s t) c mu A theta (Fin (Tr + s))
                = Ret (sub v (mul (Fin s) (Np.sum mu)))).
Proof.
  intros Ht. split; [now apply ll_pass_shift |].
  intros Hmu v. unfold mv_exp_ll. rewrite (ll_pass_shift t c mu A theta Tr s Ht).
  destruct (ll_pass t c mu A theta (Fin Tr)) as [st | e |]; cbn [bind];
    try discriminate.
  unfold ll_return.
  destruct (Np.T_dot A (F st)) as [w | e |]; cbn [bind]; try discriminate.
  intros Hv. injection Hv as <-. f_equal.
  destruct (background_shift mu Tr s Hmu 0 0 0) as (M & b & b' & E1 & E2 & E3 & E).
  unfold Np.sum. rewrite E1, E2, E3.
  replace b' with (b + s * M)%R by lra.
  unfold sub.
  destruct (lJ st) as [l | | |], (fold_left add w (Fin 0)) as [e | | |];
    cbn [neg add mul]; try reflexivity.
  f_equal. ring.
Qed.

Lemma mv_exp_ll_time_shift_witness :
  ll_pass (shift 5 [Fin 0; Fin 1; Fin 2]) [0; 1; 1]%Z [Fin 1; Fin 3]
          [[Fin 0; Fin 1]; [Fin 0; Fin 0]] (Fin 1) (Fin (3 + 5))
  = ll_pass [Fin 0; Fin 1; Fin 2] [0; 1; 1]%Z [Fin 1; Fin 3]
            [[Fin 0; Fin 1]; [Fin 0; Fin 0]] (Fin 1) (Fin 3)
  /\ exists v,
      mv_exp_ll [Fin 0; Fin 1; Fin 2] [0; 1; 1]%Z [Fin 1; Fin 3]
                [[Fin 0; Fin 1]; [Fin 0; Fin 0]] (Fin 1) (Fin 3) = Ret v /\
      mv_exp_ll (shift 5 [Fin 0; Fin 1; Fin 2]) [0; 1; 1]%Z [Fin 1; Fin 3]
                [[Fin 0; Fin 1]; [Fin 0; Fin 0]] (Fin 1) (Fin (3 + 5))
      = Ret (sub v (mul (Fin 5) (Np.sum [Fin 1; Fin 3]))).
Proof.
  assert (Ht : Forall is_finite [Fin 0; Fin 1; Fin 2])
    by (repeat constructor; eexists; reflexivity).
  assert (Hmu : Forall is_finite [Fin 1; Fin 3])
    by (repeat constructor; eexists; reflexivity).
  assert (Hshape : shapes_agree [Fin 0; Fin 1; Fin 2] [0; 1; 1]%Z [Fin 1; Fin 3]
                                [[Fin 0; Fin 1]; [Fin 0; Fin 0]]).
  { unfold shapes_agree, marks_in, square; simpl.
    repeat split; repeat constructor; lia. }
  assert (Hall : all_marks_occur [0; 1; 1]%Z [Fin 1; Fin 3]) by reflexivity.
  destruct (mv_exp_ll_time_shift
              [Fin 0; Fin 1; Fin 2] [0; 1; 1]%Z [Fin 1; Fin 3]
              [[Fin 0; Fin 1]; [Fin 0; Fin 0]] (Fin 1) 3 5 Ht) as [Hpass Hval].
  split; [exact Hpass |].
  eexists. split.
  - rewrite (mv_exp_ll_Ret _ _ _ _ (Fin 1) (Fin 3) Hshape Hall). cbv zeta. reflexivity.
  - apply (Hval Hmu).
    rewrite (mv_exp_ll_Ret _ _ _ _ (Fin 1) (Fin 3) Hshape Hall). cbv zeta. reflexivity.
Defined.

(** ** The rows of [A] in the sampler *)

(** X11.  The sampler reads [A] only when an event has been drawn.  When the
    loop of the immigrants draws no event, the call returns two empty arrays
    whatever [A] and [theta] are, without entering the [while] loop; when it
    draws one and the mark of the first is not a row of [A], the call raises
    IndexError at [A[ci, :]]. *)
Theorem mv_exp_sample_branching_reads_A_late
        {rng : Type} {RS : RandomSource rng}
        (fuel : nat) (T : double) (mu : list double) (A : list (list double))
        (theta : double) (g : rng) (cur : @sb_state rng) :
  for_range 0 (length mu) (sb_immigrants T mu) (mk_sb [] [] g) = Ret cur ->
  (curr_P cur = [] ->
   mv_exp_sample_branching fuel T mu A theta g = Some (Ret ([], [], sb_gen cur)))
  /\ (forall p ps ci cs,
         curr_P cur = p :: ps -> curr_C cur = ci :: cs ->
         (Z.of_nat (length A) <= ci)%Z ->
         mv_exp_sample_branching (S fuel) T mu A theta g = Some (Raise IndexError)).
Proof.
  intros Him. unfold mv_exp_sample_branching, sb_accumulate. rewrite Him. split.
  - intros HP. destruct fuel; cbn [sb_generations]; rewrite HP; reflexivity.
  - intros p ps ci cs HP HC Hci. cbn [sb_generations]. rewrite HP, HC.
    unfold for_range. cbn [length Nat.sub seq foldM].
    unfold sb_offspring. cbn [Np.geti nth_error bind]. unfold row_of.
    destruct (ci <? 0)%Z eqn:E0; [apply Z.ltb_lt in E0; lia |].
    destruct (ci <? Z.of_nat (length A))%Z eqn:E1; [apply Z.ltb_lt in E1; lia |].
    rewrite andb_false_r. reflexivity.
Qed.

Lemma mv_exp_sample_branching_reads_A_late_witness :
  mv_exp_sample_branching 0 (Fin 2) [Fin 1] [] (Fin 1) (mk_script [] [0] [])
  = Some (Ret ([], [], mk_script [] [] []))
  /\ mv_exp_sample_branching 1 (Fin 2) [Fin 1] [] (Fin 1) (mk_script [] [1] [0%Z])
     = Some (Raise IndexError).
Proof.
  split.
  - refine (proj1 (mv_exp_sample_branching_reads_A_late
                     0 (Fin 2) [Fin 1] [] (Fin 1) (mk_script [] [0] [])
                     (mk_sb [] [] (mk_script [] [] [])) _) eq_refl).
    unfold for_range. cbn [length Nat.sub seq foldM].
    unfold sb_immigrants. cbn [Np.geti nth_error bind sb_gen mul].
    rewrite script_poisson_run by lra. reflexivity.
  - refine (proj2 (mv_exp_sample_branching_reads_A_late
                     0 (Fin 2) [Fin 1] [] (Fin 1) (mk_script [] [1] [0%Z])
                     (mk_sb [Fin (IZR (0 mod 2 ^ 53) / IZR (2 ^ 53) * 2)] [0%Z]
                            (mk_script [] [] [])) _)
                  _ [] 0%Z [] eq_refl eq_refl _).
    + unfold for_range. cbn [length Nat.sub seq foldM].
      unfold sb_immigrants. cbn [Np.geti nth_error bind sb_gen mul].
      rewrite script_poisson_run by lra. cbn [bind np_random_rand].
      rewrite !script_sample_run. reflexivity.
    + simpl. lia.
Defined.
